(** * Packager: a shallow embedding of [tools/packager.py]

    The packager takes a triangulated solid, puts it in the stable pose of
    least height, turns it about the vertical axis to reduce its x extent,
    extrudes the ground-contact triangle into a pedestal and stitches a box
    underneath it.

    Numbers: numpy's float64 values are modelled by exact rationals [Q];
    rounding is not modelled.  Index arrays are arrays of integers [Z], as
    in numpy (the source computes with negative intermediate indices).
    Mesh objects live in a heap of [Trimesh] values addressed by
    references, because the source copies and mutates them in place. *)

From Stdlib Require Import QArith Qminmax Qabs ZArith Lia Lqa Bool String.
From stdpp Require Import base list.

Local Open Scope Q_scope.

(** ** Numbers *)

Definition Qlt_bool (x y : Q) : bool := negb (Qle_bool y x).

Lemma Qlt_bool_iff (x y : Q) : Qlt_bool x y = true <-> x < y.
Proof.
  unfold Qlt_bool. rewrite negb_true_iff. split.
  - intros H. apply Qnot_le_lt. intros Hle.
    apply Qle_bool_iff in Hle. congruence.
  - intros H. destruct (Qle_bool y x) eqn:E; [|reflexivity].
    apply Qle_bool_iff in E. exfalso. apply (Qlt_not_le _ _ H E).
Qed.

Lemma Qlt_bool_false_iff (x y : Q) : Qlt_bool x y = false <-> y <= x.
Proof.
  unfold Qlt_bool. rewrite negb_false_iff. apply Qle_bool_iff.
Qed.

(** [np.pi], the float64 nearest to pi: 884279719003555 / 2^48. *)
Definition np_pi : Q := 884279719003555 # 281474976710656.

(** [np.infty] only occurs as the initial [min_z]; a running minimum is
    [None] while it is still infinite. *)
Definition lt_inf (x : Q) (bound : option Q) : bool :=
  match bound with
  | None => true
  | Some b => Qlt_bool x b
  end.

(** ** Vectors and homogeneous transforms *)

Definition vec2 : Type := Q * Q.
Definition vec3 : Type := Q * Q * Q.
Definition vec4 : Type := Q * Q * Q * Q.
Definition mat3 : Type := vec3 * vec3 * vec3.
Definition mat4 : Type := vec4 * vec4 * vec4 * vec4.

Definition vx (v : vec3) : Q := fst (fst v).
Definition vy (v : vec3) : Q := snd (fst v).
Definition vz (v : vec3) : Q := snd v.

(** [np.eye(4)] *)
Definition eye4 : mat4 :=
  ((1, 0, 0, 0), (0, 1, 0, 0), (0, 0, 1, 0), (0, 0, 0, 1)).

(** [rot = np.eye(4); rot[:3,:3] = R] *)
Definition set_rot (R : mat3) : mat4 :=
  let '((a, b, c), (d, e, f), (g, h, i)) := R in
  ((a, b, c, 0), (d, e, f, 0), (g, h, i, 0), (0, 0, 0, 1)).

Definition dot4 (r c : vec4) : Q :=
  let '(a, b, c0, d) := r in
  let '(x, y, z, w) := c in
  a * x + b * y + c0 * z + d * w.

Definition col (k : nat) (m : mat4) : vec4 :=
  let '(r0, r1, r2, r3) := m in
  let pick (r : vec4) :=
    let '(a, b, c, d) := r in
    match k with O => a | 1%nat => b | 2%nat => c | _ => d end in
  (pick r0, pick r1, pick r2, pick r3).

(** [A.dot(B)] for 4x4 arrays. *)
Definition mat4_dot (A B : mat4) : mat4 :=
  let '(r0, r1, r2, r3) := A in
  let row (r : vec4) : vec4 :=
    (dot4 r (col 0 B), dot4 r (col 1 B), dot4 r (col 2 B), dot4 r (col 3 B)) in
  (row r0, row r1, row r2, row r3).

(** trimesh's [transform_points]: the first three rows of the matrix are
    applied to the homogeneous point [(x, y, z, 1)]. *)
Definition transform_point (T : mat4) (v : vec3) : vec3 :=
  let '(r0, r1, r2, _) := T in
  let '(x, y, z) := v in
  (dot4 r0 (x, y, z, 1), dot4 r1 (x, y, z, 1), dot4 r2 (x, y, z, 1)).

(** ** Meshes *)

Definition face : Type := Z * Z * Z.

Record Trimesh := mkTrimesh {
  vertices : list vec3;
  faces : list face
}.

(** numpy indexing of a sequence by an integer: negative indices count
    from the end, anything else out of range is an [IndexError]. *)
Definition np_index {A} (l : list A) (i : Z) : option A :=
  let n := Z.of_nat (length l) in
  if (0 <=? i)%Z then l !! Z.to_nat i
  else if (- n <=? i)%Z then l !! Z.to_nat (n + i)
  else None.

Definition triangle3 : Type := vec3 * vec3 * vec3.

Definition face_triangle (vs : list vec3) (f : face) : option triangle3 :=
  let '(a, b, c) := f in
  match np_index vs a, np_index vs b, np_index vs c with
  | Some p, Some q, Some r => Some (p, q, r)
  | _, _, _ => None
  end.

(** [mesh.triangles]: [vertices[faces]]. *)
Definition triangles (m : Trimesh) : option (list triangle3) :=
  mapM (face_triangle (vertices m)) (faces m).

Definition vmin (u v : vec3) : vec3 :=
  (Qmin (vx u) (vx v), Qmin (vy u) (vy v), Qmin (vz u) (vz v)).
Definition vmax (u v : vec3) : vec3 :=
  (Qmax (vx u) (vx v), Qmax (vy u) (vy v), Qmax (vz u) (vz v)).

(** [mesh.bounds]: per-axis minimum and maximum of the vertices; there are
    none for a mesh without vertices. *)
Definition bounds (m : Trimesh) : option (vec3 * vec3) :=
  match vertices m with
  | [] => None
  | v :: vs => Some (foldl vmin v vs, foldl vmax v vs)
  end.

Definition vsub (u v : vec3) : vec3 :=
  (vx u - vx v, vy u - vy v, vz u - vz v).

(** [mesh.extents]: [bounds[1] - bounds[0]]. *)
Definition extents (m : Trimesh) : option vec3 :=
  match bounds m with
  | Some (lo, hi) => Some (vsub hi lo)
  | None => None
  end.

(** [mesh.apply_transform(T)] on the value of a mesh. *)
Definition transform_mesh (T : mat4) (m : Trimesh) : Trimesh :=
  mkTrimesh (map (transform_point T) (vertices m)) (faces m).

(** [mesh.apply_translation(t)] on the value of a mesh. *)
Definition translate_mesh (t : vec3) (m : Trimesh) : Trimesh :=
  mkTrimesh
    (map (fun v => (vx v + vx t, vy v + vy t, vz v + vz t)) (vertices m))
    (faces m).

(** The z component of [cross(v1 - v0, v2 - v0)].  [mesh.face_normals]
    is this cross product scaled to unit length (and zero for a
    degenerate face), so its z component has the same sign. *)
Definition cross_z (t : triangle3) : Q :=
  let '(p, q, r) := t in
  (vx q - vx p) * (vy r - vy p) - (vy q - vy p) * (vx r - vx p).

(** *** Edges and watertightness *)

Definition edge : Type := Z * Z.

(** A row of [edges_sorted]: the two vertex indices of an edge, smaller
    first. *)
Definition sorted_edge (a b : Z) : edge := (Z.min a b, Z.max a b).

Definition face_edges (f : face) : list edge :=
  let '(a, b, c) := f in [sorted_edge a b; sorted_edge b c; sorted_edge c a].

Definition edges_sorted (fs : list face) : list edge :=
  concat (map face_edges fs).

Definition edge_eqb (e1 e2 : edge) : bool :=
  (fst e1 =? fst e2)%Z && (snd e1 =? snd e2)%Z.

Fixpoint edge_count (e : edge) (es : list edge) : nat :=
  match es with
  | [] => 0
  | x :: rest => (if edge_eqb x e then 1 else 0) + edge_count e rest
  end.

(** Modelled from the spec: [mesh.is_watertight] of the mesh library, a
    mesh in which every edge is shared by exactly two faces. *)
Definition is_watertight (m : Trimesh) : bool :=
  let es := edges_sorted (faces m) in
  forallb (fun e => Nat.eqb (edge_count e es) 2) es.

(** An index that numpy accepts for a sequence of length [n]. *)
Definition index_ok (n : nat) (i : Z) : bool :=
  (- Z.of_nat n <=? i)%Z && (i <? Z.of_nat n)%Z.

Definition face_ok (n : nat) (f : face) : bool :=
  let '(a, b, c) := f in index_ok n a && index_ok n b && index_ok n c.

(** Every face index is valid into the vertex sequence. *)
Definition faces_valid (m : Trimesh) : bool :=
  forallb (face_ok (length (vertices m))) (faces m).

(** *** Centre of mass *)

Definition vadd (u v : vec3) : vec3 :=
  (vx u + vx v, vy u + vy v, vz u + vz v).
Definition vmul (u v : vec3) : vec3 :=
  (vx u * vx v, vy u * vy v, vz u * vz v).

Definition cross (u v : vec3) : vec3 :=
  (vy u * vz v - vz u * vy v,
   vz u * vx v - vx u * vz v,
   vx u * vy v - vy u * vx v).

(** The surface integrals behind [mesh.center_mass] (polyhedral mass
    properties): per triangle, [f1 = v0 + v1 + v2] and
    [f2 = v0^2 + v1^2 + v0*v1 + v2*f1] componentwise; the volume is
    the sum of [cross.x * f1.x] over 6 and the centre the sum of
    [cross * f2] over 24, divided by the volume. *)
Definition mass_integrand (t : triangle3) : Q * vec3 :=
  let '(p, q, r) := t in
  let c := cross (vsub q p) (vsub r p) in
  let f1 := vadd (vadd p q) r in
  let f2 := vadd (vadd (vadd (vmul p p) (vmul q q)) (vmul p q)) (vmul r f1) in
  (vx c * vx f1, vmul c f2).

Definition vred (v : vec3) : vec3 := (Qred (vx v), Qred (vy v), Qred (vz v)).

(** The sums and the quotients are kept in lowest terms. *)
Definition center_mass_of (ts : list triangle3) : vec3 :=
  let s := foldl (fun acc t =>
                    let '(i0, i1) := mass_integrand t in
                    (Qred (fst acc + i0), vred (vadd (snd acc) i1)))
                 (0, (0, 0, 0)) ts in
  let volume := fst s / 6 in
  let i := snd s in
  vred (vx i / 24 / volume, vy i / 24 / volume, vz i / 24 / volume).

(** *** The ground-contact test of [_package] *)

(** [(np.abs(tri)[:,2] < 1e-12).any()] *)
Definition touches_ground (t : triangle3) : bool :=
  let '(p, q, r) := t in
  let tol := 1 # 1000000000000 in
  Qlt_bool (Qabs (vz p)) tol || Qlt_bool (Qabs (vz q)) tol
  || Qlt_bool (Qabs (vz r)) tol.

(** [np.dot(mesh.face_normals[i], np.array([0.0, 0.0, -1.0])) > 0.0] *)
Definition faces_down (t : triangle3) : bool := Qlt_bool 0 (- cross_z t).

Definition is_contact (t : triangle3) : bool :=
  touches_ground t && faces_down t.

(** The [for i, tri in enumerate(mesh.triangles)] scan with its [break]:
    [i] counts the triangles already passed. *)
Fixpoint find_contact (i : nat) (ts : list triangle3) : option nat :=
  match ts with
  | [] => None
  | t :: rest => if is_contact t then Some i else find_contact (S i) rest
  end.

(** ** Collaborators

    The libraries the packager calls into: trimesh's stable-pose
    enumeration, autolab_core's rotation about the z axis, the
    [triangle] library's constrained triangulation and numpy's global
    random generator, seen as the stream of unit samples it will
    produce. *)

Record PSLG := mkPSLG {
  segments : list (Z * Z);
  pslg_vertices : list vec2;
  holes : vec2
}.

Class Collaborators := {
  compute_stable_poses : Trimesh -> list mat4;
  z_axis_rotation : Q -> mat3;
  triangulate : PSLG -> string -> list face;
  rng : nat -> Q
}.

(** ** The object heap and the effects of the program *)

Definition ref : Type := nat.

Record World := mkWorld {
  heap : list Trimesh;
  rng_pos : nat;
  draw_log : list (Q * Q)
}.

Inductive exn : Type :=
| ValueError (msg : string)
| BadTransform
| NoBounds
| IndexError
| DanglingRef
| OutOfFuel.

Inductive outcome (A : Type) : Type :=
| Return (a : A)
| Raise (e : exn).
Arguments Return {A} a.
Arguments Raise {A} e.

(** A computation runs in a world and leaves a world behind, also when
    it raises. *)
Definition M (A : Type) : Type := World -> outcome A * World.

Definition ret {A} (a : A) : M A := fun w => (Return a, w).
Definition raise {A} (e : exn) : M A := fun w => (Raise e, w).
Definition bind {A B} (m : M A) (k : A -> M B) : M B :=
  fun w =>
    match m w with
    | (Return a, w') => k a w'
    | (Raise e, w') => (Raise e, w')
    end.

Notation "x <- m ;; k" := (bind m (fun x => k))
  (at level 100, m at next level, right associativity).
Notation "m ;;; k" := (bind m (fun _ => k))
  (at level 100, right associativity).

Definition set_heap (h : list Trimesh) (w : World) : World :=
  mkWorld h (rng_pos w) (draw_log w).

Definition deref (r : ref) : M Trimesh :=
  fun w =>
    match heap w !! r with
    | Some m => (Return m, w)
    | None => (Raise DanglingRef, w)
    end.

Definition alloc (m : Trimesh) : M ref :=
  fun w => (Return (length (heap w)), set_heap (heap w ++ [m]) w).

Definition store (r : ref) (m : Trimesh) : M unit :=
  fun w => (Return tt, set_heap (<[r := m]> (heap w)) w).

(** [mesh.copy()] *)
Definition mesh_copy (r : ref) : M ref := m <- deref r ;; alloc m.

(** [mesh.apply_transform(tf)], in place; [None] is not a matrix. *)
Definition apply_transform (r : ref) (tf : option mat4) : M unit :=
  match tf with
  | None => raise BadTransform
  | Some T => m <- deref r ;; store r (transform_mesh T m)
  end.

(** [mesh.apply_translation(t)], in place. *)
Definition apply_translation (r : ref) (t : vec3) : M unit :=
  m <- deref r ;; store r (translate_mesh t m).

Definition get_extents (r : ref) : M vec3 :=
  m <- deref r ;;
  match extents m with
  | Some e => ret e
  | None => raise NoBounds
  end.

Definition get_bounds (r : ref) : M (vec3 * vec3) :=
  m <- deref r ;;
  match bounds m with
  | Some b => ret b
  | None => raise NoBounds
  end.

Definition get_triangles (r : ref) : M (list triangle3) :=
  m <- deref r ;;
  match triangles m with
  | Some ts => ret ts
  | None => raise IndexError
  end.

(** ** The packager *)

(** The entries of the YAML configuration that [package] reads. *)
Record Config := mkConfig {
  min_border_width_pct : Q;
  max_border_width_pct : Q;
  min_tab_height_pct : Q;
  max_tab_height_pct : Q;
  min_depth : Q;
  max_depth : Q;
  offset : Q;
  ext_limits : vec3
}.

(** [np.any(extents > ext_limits)] *)
Definition any_gt (e l : vec3) : bool :=
  Qlt_bool (vx l) (vx e) || Qlt_bool (vy l) (vy e) || Qlt_bool (vz l) (vz e).

(** "Create the extrusion": the contact face [face_ind] of [m] is replaced
    by six faces that join its edge loop to three new vertices at height
    [zu]. *)
Definition create_extrusion (m : Trimesh) (ts : list triangle3)
    (face_ind : nat) (zu : Q) : option Trimesh :=
  match faces m !! face_ind, ts !! face_ind with
  | Some (v0, v1, v2), Some (p, q, r) =>
      let vo := Z.of_nat (length (vertices m)) in
      let new_vertices := [(vx p, vy p, zu); (vx q, vy q, zu); (vx r, vy r, zu)] in
      let new_faces : list face :=
        [ (v0, v1, 1 + vo); (v0, 1 + vo, 0 + vo);
          (v1, v2, 2 + vo); (v1, 2 + vo, 1 + vo);
          (v2, v0, 0 + vo); (v2, 0 + vo, 2 + vo) ]%Z in
      let verts := vertices m ++ new_vertices in
      let fs := faces m ++ new_faces in
      let fs := delete face_ind fs in
      Some (mkTrimesh verts fs)
  | _, _ => None
  end.

(** [faces[faces == old] = new] *)
Definition replace_index (old new : Z) (f : face) : face :=
  let s (x : Z) := if (x =? old)%Z then new else x in
  let '(a, b, c) := f in (s a, s b, s c).

(** [faces + vo] *)
Definition shift_face (vo : Z) (f : face) : face :=
  let '(a, b, c) := f in (a + vo, b + vo, c + vo)%Z.

(** The ten faces of the walls and the bottom of the box, before the
    offset [vo] is added. *)
Definition box_faces : list face :=
  [ (0, 5, 1); (0, 4, 5); (1, 6, 2); (1, 5, 6); (2, 7, 3);
    (2, 6, 7); (3, 4, 0); (3, 7, 4); (4, 7, 5); (5, 7, 6) ]%Z.

Section Packager.
Context `{Collab : Collaborators}.

(** [np.random.uniform(lo, hi)]: the next unit sample scaled to
    [[lo, hi)]; the draw is appended to the log. *)
Definition uniform (lo hi : Q) : M Q :=
  fun w =>
    (Return (lo + (hi - lo) * rng (rng_pos w)),
     mkWorld (heap w) (S (rng_pos w)) (draw_log w ++ [(lo, hi)])).

(** The [for tf in tfs] loop of [_get_packaged_pose]. *)
Fixpoint pose_loop (mesh : ref) (tfs : list mat4)
    (min_z : option Q) (min_tf : option mat4)
    : M (option Q * option mat4) :=
  match tfs with
  | [] => ret (min_z, min_tf)
  | tf :: rest =>
      m <- mesh_copy mesh ;;
      apply_transform m (Some tf) ;;;
      e <- get_extents m ;;
      let z_ext := vz e in
      if lt_inf z_ext min_z
      then pose_loop mesh rest (Some z_ext) (Some tf)
      else pose_loop mesh rest min_z min_tf
  end.

Definition dtheta : Q := 1 # 10.

(** The [while theta < np.pi] loop of [_get_packaged_pose]; [fuel]
    bounds the number of iterations. *)
Fixpoint yaw_loop (fuel : nat) (mesh : ref) (theta : Q)
    (min_rot : mat4) (min_x_ext : Q) : M mat4 :=
  if Qlt_bool theta np_pi then
    match fuel with
    | O => raise OutOfFuel
    | S fuel' =>
        let rot := set_rot (z_axis_rotation theta) in
        m <- mesh_copy mesh ;;
        apply_transform m (Some rot) ;;;
        e <- get_extents m ;;
        let x_ext := vx e in
        if Qlt_bool x_ext min_x_ext
        then yaw_loop fuel' mesh (theta + dtheta) rot x_ext
        else yaw_loop fuel' mesh (theta + dtheta) min_rot min_x_ext
    end
  else ret min_rot.

Definition yaw_fuel : nat := 32.

Definition _get_packaged_pose (mesh : ref) : M mat4 :=
  mesh <- mesh_copy mesh ;;
  m <- deref mesh ;;
  let tfs := compute_stable_poses m in
  zt <- pose_loop mesh tfs None None ;;
  let min_tf := snd zt in
  apply_transform mesh min_tf ;;;
  e <- get_extents mesh ;;
  min_rot <- yaw_loop yaw_fuel mesh 0 eye4 (vx e) ;;
  match min_tf with
  | Some tf => ret (mat4_dot min_rot tf)
  | None => raise BadTransform
  end.

(** "Now, create the base": the eight corners of the box, the
    triangulated top with its hole around the pedestal, the walls and
    the bottom. *)
Definition create_base (m : Trimesh)
    (xl xu yl yu zl zu : Q) : option Trimesh :=
  let new_vertices :=
    [ (xl, yl, zu); (xu, yl, zu); (xu, yu, zu); (xl, yu, zu);
      (xl, yl, zl); (xu, yl, zl); (xu, yu, zl); (xl, yu, zl) ] in
  let vo := Z.of_nat (length (vertices m)) in
  let vinds := (vo - 3, vo - 2, vo - 1)%Z in
  match drop (length (vertices m) - 3) (vertices m) with
  | [o0; o1; o2] =>
      let verts_2d : list vec2 :=
        [ (xl, yl); (xu, yl); (xu, yu); (xl, yu);
          (vx o0, vy o0); (vx o1, vy o1); (vx o2, vy o2) ] in
      let plsg :=
        mkPSLG [(5, 4); (6, 5); (4, 6)]%Z verts_2d
               ((vx o0 + vx o1 + vx o2) / 3, (vy o0 + vy o1 + vy o2) / 3) in
      let fs := triangulate plsg "pc" in
      let fs := map (replace_index 4 (fst (fst vinds) - vo)) fs in
      let fs := map (replace_index 5 (snd (fst vinds) - vo)) fs in
      let fs := map (replace_index 6 (snd vinds - vo)) fs in
      let fs := map (shift_face vo) fs in
      let new_faces := map (shift_face vo) box_faces in
      let new_faces := fs ++ new_faces in
      Some (mkTrimesh (vertices m ++ new_vertices) (faces m ++ new_faces))
  | _ => None
  end.

Definition _package (mesh : ref)
    (border_width_pct tab_height_pct depth offset : Q)
    (ext_limits : vec3) : M (option ref) :=
  mesh <- mesh_copy mesh ;;
  pose <- _get_packaged_pose mesh ;;
  apply_transform mesh (Some pose) ;;;
  extents <- get_extents mesh ;;
  if any_gt extents ext_limits then ret None
  else
    let border_width := border_width_pct * vx extents in
    let tab_height := tab_height_pct * vy extents in
    b <- get_bounds mesh ;;
    let '(bl, bu) := b in
    let '(xl, xu) := (vx bl - border_width, vx bu + border_width) in
    let '(yl, yu) :=
      (vy bl - border_width, vy bu + border_width + tab_height) in
    let '(zl, zu) := (- offset - depth, - offset) in
    ts <- get_triangles mesh ;;
    match find_contact 0 ts with
    | None => raise (ValueError "Malformed mesh")
    | Some face_ind =>
        m <- deref mesh ;;
        match create_extrusion m ts face_ind zu with
        | None => raise IndexError
        | Some extruded =>
            mesh <- alloc extruded ;;
            m <- deref mesh ;;
            match create_base m xl xu yl yu zl zu with
            | None => raise IndexError
            | Some boxed =>
                mesh <- alloc boxed ;;
                ts <- get_triangles mesh ;;
                let cm := center_mass_of ts in
                apply_translation mesh (- vx cm, - vy cm, - vz cm) ;;;
                ret (Some mesh)
            end
        end
    end.

Definition package (config : Config) (mesh : ref) : M (option ref) :=
  m <- deref mesh ;;
  if negb (is_watertight m)
  then raise (ValueError "Must have a watertight mesh to package it!")
  else
    border_width_pct <-
      uniform (min_border_width_pct config) (max_border_width_pct config) ;;
    tab_height_pct <-
      uniform (min_tab_height_pct config) (max_tab_height_pct config) ;;
    depth <- uniform (min_depth config) (max_depth config) ;;
    _package mesh border_width_pct tab_height_pct depth
             (offset config) (ext_limits config).

End Packager.

(** ** What a run computes

    The loops and [_package] only ever mutate objects they allocated
    themselves, so the outcome of a run is a function of the value of the
    input mesh.  The functions below compute that outcome without a heap;
    the [_run] lemmas relate them to the program. *)

Section Outcomes.
Context `{Collab : Collaborators}.

Fixpoint pose_select (m : Trimesh) (tfs : list mat4)
    (min_z : option Q) (min_tf : option mat4)
    : outcome (option Q * option mat4) :=
  match tfs with
  | [] => Return (min_z, min_tf)
  | tf :: rest =>
      match extents (transform_mesh tf m) with
      | None => Raise NoBounds
      | Some e =>
          if lt_inf (vz e) min_z
          then pose_select m rest (Some (vz e)) (Some tf)
          else pose_select m rest min_z min_tf
      end
  end.

Fixpoint yaw_select (fuel : nat) (m : Trimesh) (theta : Q)
    (min_rot : mat4) (min_x_ext : Q) : outcome mat4 :=
  if Qlt_bool theta np_pi then
    match fuel with
    | O => Raise OutOfFuel
    | S fuel' =>
        let rot := set_rot (z_axis_rotation theta) in
        match extents (transform_mesh rot m) with
        | None => Raise NoBounds
        | Some e =>
            if Qlt_bool (vx e) min_x_ext
            then yaw_select fuel' m (theta + dtheta) rot (vx e)
            else yaw_select fuel' m (theta + dtheta) min_rot min_x_ext
        end
    end
  else Return min_rot.

Definition packaged_pose (m : Trimesh) : outcome mat4 :=
  match pose_select m (compute_stable_poses m) None None with
  | Raise e => Raise e
  | Return (_, None) => Raise BadTransform
  | Return (_, Some tf) =>
      let posed := transform_mesh tf m in
      match extents posed with
      | None => Raise NoBounds
      | Some e =>
          match yaw_select yaw_fuel posed 0 eye4 (vx e) with
          | Raise e => Raise e
          | Return min_rot => Return (mat4_dot min_rot tf)
          end
      end
  end.

(** The uncentred assembly built from the posed mesh, once the extents
    have passed the limits: the mesh with its pedestal and the box. *)
Definition build (posed : Trimesh) (extents : vec3)
    (border_width_pct tab_height_pct depth offset : Q)
    : outcome Trimesh :=
  let border_width := border_width_pct * vx extents in
  let tab_height := tab_height_pct * vy extents in
  match bounds posed with
  | None => Raise NoBounds
  | Some (bl, bu) =>
      let '(xl, xu) := (vx bl - border_width, vx bu + border_width) in
      let '(yl, yu) :=
        (vy bl - border_width, vy bu + border_width + tab_height) in
      let '(zl, zu) := (- offset - depth, - offset) in
      match triangles posed with
      | None => Raise IndexError
      | Some ts =>
          match find_contact 0 ts with
          | None => Raise (ValueError "Malformed mesh")
          | Some face_ind =>
              match create_extrusion posed ts face_ind zu with
              | None => Raise IndexError
              | Some extruded =>
                  match create_base extruded xl xu yl yu zl zu with
                  | None => Raise IndexError
                  | Some boxed => Return boxed
                  end
              end
          end
      end
  end.

(** The assembly, moved so that its centre of mass is the origin. *)
Definition assemble (posed : Trimesh) (extents : vec3)
    (border_width_pct tab_height_pct depth offset : Q)
    : outcome (option Trimesh) :=
  match build posed extents border_width_pct tab_height_pct depth offset with
  | Raise e => Raise e
  | Return boxed =>
      match triangles boxed with
      | None => Raise IndexError
      | Some ts' =>
          let cm := center_mass_of ts' in
          Return (Some (translate_mesh (- vx cm, - vy cm, - vz cm) boxed))
      end
  end.

Definition packaged (m : Trimesh)
    (border_width_pct tab_height_pct depth offset : Q)
    (ext_limits : vec3) : outcome (option Trimesh) :=
  match packaged_pose m with
  | Raise e => Raise e
  | Return pose =>
      let posed := transform_mesh pose m in
      match extents posed with
      | None => Raise NoBounds
      | Some e =>
          if any_gt e ext_limits then Return None
          else assemble posed e border_width_pct tab_height_pct depth offset
      end
  end.

(** The result of a run agrees with a heap-free outcome: same error,
    same rejection, or a reference to a newly allocated cell that holds
    the computed mesh. *)
Definition agrees (old : list Trimesh) (h : list Trimesh)
    (o : outcome (option ref)) (p : outcome (option Trimesh)) : Prop :=
  match p with
  | Raise e => o = Raise e
  | Return None => o = Return None
  | Return (Some m') =>
      exists r, o = Return (Some r) /\ h !! r = Some m'
                /\ (length old <= r)%nat
  end.

End Outcomes.

(** ** Runs *)

Section Runs.
Context `{Collab : Collaborators}.

Lemma set_heap_set_heap h1 h2 w :
  set_heap h2 (set_heap h1 w) = set_heap h2 w.
Proof. reflexivity. Qed.

Lemma set_heap_same w : set_heap (heap w) w = w.
Proof. destruct w; reflexivity. Qed.

Lemma lookup_fresh (h : list Trimesh) m ext :
  (h ++ m :: ext) !! length h = Some m.
Proof. apply list_lookup_middle. reflexivity. Qed.

Lemma insert_fresh (h : list Trimesh) m m' ext :
  <[length h := m']> (h ++ m :: ext) = h ++ m' :: ext.
Proof.
  rewrite insert_app_r_alt by lia. rewrite Nat.sub_diag. reflexivity.
Qed.

(** Copy, transform the copy, read its extents: the pattern of both
    loops. *)
Lemma measure_run {A} (r : ref) (T : mat4) (k : vec3 -> M A) w m :
  heap w !! r = Some m ->
  (c <- mesh_copy r ;; apply_transform c (Some T) ;;;
   e <- get_extents c ;; k e) w
  = match extents (transform_mesh T m) with
    | Some e => k e (set_heap (heap w ++ [transform_mesh T m]) w)
    | None => (Raise NoBounds, set_heap (heap w ++ [transform_mesh T m]) w)
    end.
Proof.
  intros Hr.
  unfold bind, mesh_copy, apply_transform, get_extents, deref, alloc,
    store, bind. rewrite Hr. cbn [heap set_heap].
  rewrite lookup_fresh. cbn [heap set_heap].
  rewrite insert_fresh, lookup_fresh.
  destruct (extents (transform_mesh T m)); reflexivity.
Qed.

(** A cell with the faces of [m]: a copy of [m], possibly moved. *)
Definition same_faces (m x : Trimesh) : Prop := faces x = faces m.

Lemma pose_loop_run r m tfs : forall min_z min_tf w,
  heap w !! r = Some m ->
  exists ext,
    pose_loop r tfs min_z min_tf w
    = (pose_select m tfs min_z min_tf, set_heap (heap w ++ ext) w)
    /\ Forall (same_faces m) ext.
Proof.
  induction tfs as [|tf rest IH]; intros min_z min_tf w Hr.
  - exists []. cbn. rewrite app_nil_r, set_heap_same. split; [reflexivity|].
    constructor.
  - cbn [pose_loop pose_select]. rewrite (measure_run _ _ _ _ _ Hr).
    destruct (extents (transform_mesh tf m)) as [e|].
    + set (w1 := set_heap _ w).
      assert (H1 : heap w1 !! r = Some m)
        by (apply lookup_app_l_Some; exact Hr).
      destruct (lt_inf (vz e) min_z).
      * destruct (IH (Some (vz e)) (Some tf) w1 H1) as (ext & -> & Hf).
        exists ([transform_mesh tf m] ++ ext).
        subst w1. cbn [heap set_heap]. rewrite <- app_assoc.
        split; [reflexivity|]. constructor; [reflexivity|exact Hf].
      * destruct (IH min_z min_tf w1 H1) as (ext & -> & Hf).
        exists ([transform_mesh tf m] ++ ext).
        subst w1. cbn [heap set_heap]. rewrite <- app_assoc.
        split; [reflexivity|]. constructor; [reflexivity|exact Hf].
    + eexists. split; [reflexivity|]. repeat constructor.
Qed.

Lemma yaw_loop_run r m fuel : forall theta min_rot min_x w,
  heap w !! r = Some m ->
  exists ext,
    yaw_loop fuel r theta min_rot min_x w
    = (yaw_select fuel m theta min_rot min_x, set_heap (heap w ++ ext) w)
    /\ Forall (same_faces m) ext.
Proof.
  induction fuel as [|fuel IH]; intros theta min_rot min_x w Hr.
  - exists []. cbn. rewrite app_nil_r, set_heap_same.
    split; [|constructor].
    destruct (Qlt_bool theta np_pi); reflexivity.
  - cbn [yaw_loop yaw_select].
    destruct (Qlt_bool theta np_pi).
    2:{ exists []. rewrite app_nil_r, set_heap_same.
        split; [reflexivity|constructor]. }
    rewrite (measure_run _ _ _ _ _ Hr).
    set (rot := set_rot (z_axis_rotation theta)).
    destruct (extents (transform_mesh rot m)) as [e|].
    + set (w1 := set_heap _ w).
      assert (H1 : heap w1 !! r = Some m)
        by (apply lookup_app_l_Some; exact Hr).
      destruct (Qlt_bool (vx e) min_x).
      * destruct (IH (theta + dtheta) rot (vx e) w1 H1) as (ext & -> & Hf).
        exists ([transform_mesh rot m] ++ ext).
        subst w1. cbn [heap set_heap]. rewrite <- app_assoc.
        split; [reflexivity|]. constructor; [reflexivity|exact Hf].
      * destruct (IH (theta + dtheta) min_rot min_x w1 H1) as (ext & -> & Hf).
        exists ([transform_mesh rot m] ++ ext).
        subst w1. cbn [heap set_heap]. rewrite <- app_assoc.
        split; [reflexivity|]. constructor; [reflexivity|exact Hf].
    + eexists. split; [reflexivity|]. repeat constructor.
Qed.

Lemma _get_packaged_pose_run r m w :
  heap w !! r = Some m ->
  exists ext,
    _get_packaged_pose r w
    = (packaged_pose m, set_heap (heap w ++ ext) w)
    /\ Forall (same_faces m) ext.
Proof.
  intros Hr. unfold _get_packaged_pose, packaged_pose.
  unfold bind at 1. unfold mesh_copy, bind, deref at 1, alloc.
  rewrite Hr. cbn [heap set_heap].
  unfold deref at 1. cbn [heap set_heap]. rewrite lookup_fresh.
  set (w1 := set_heap (heap w ++ [m]) w).
  assert (H1 : heap w1 !! length (heap w) = Some m)
    by (subst w1; cbn [heap set_heap]; apply lookup_fresh).
  destruct (pose_loop_run _ _ (compute_stable_poses m) None None w1 H1)
    as (ext1 & -> & Hf1).
  destruct (pose_select m (compute_stable_poses m) None None)
    as [[mz [tf|]]|e].
  - cbn [snd apply_transform]. unfold bind, deref, store, get_extents.
    unfold bind, deref. subst w1. cbn [heap set_heap].
    rewrite <- app_assoc. cbn [app]. rewrite lookup_fresh.
    cbn [heap set_heap]. rewrite insert_fresh, lookup_fresh.
    destruct (extents (transform_mesh tf m)) as [e|].
    + unfold ret. set (w2 := set_heap _ _).
      assert (H2 : heap w2 !! length (heap w) = Some (transform_mesh tf m))
        by (subst w2; cbn [heap set_heap]; apply lookup_fresh).
      destruct (yaw_loop_run _ _ yaw_fuel 0 eye4 (vx e) w2 H2)
        as (ext2 & -> & Hf2).
      subst w2. cbn [heap set_heap]. rewrite <- app_assoc.
      assert (Hall : Forall (same_faces m)
                       ((transform_mesh tf m :: ext1) ++ ext2)).
      { apply Forall_app. split; [constructor; [reflexivity|exact Hf1]|].
        exact Hf2. }
      destruct (yaw_select _ _ _ _ _); eexists; (split; [reflexivity|]);
        exact Hall.
    + eexists. split; [reflexivity|]. constructor; [reflexivity|exact Hf1].
  - cbn. subst w1. cbn [heap set_heap]. rewrite <- app_assoc.
    eexists. split; [reflexivity|]. constructor; [reflexivity|exact Hf1].
  - subst w1. cbn [heap set_heap]. rewrite <- app_assoc.
    eexists. split; [reflexivity|]. constructor; [reflexivity|exact Hf1].
Qed.

(** No geometry has been added when a run of [_package] ends in the
    rejection or in the contact-face error. *)
Definition ends_early (p : outcome (option Trimesh)) : Prop :=
  p = Return None \/ p = Raise (ValueError "Malformed mesh").

Lemma _package_run r m bw th depth off lim w :
  heap w !! r = Some m ->
  exists ext o,
    _package r bw th depth off lim w = (o, set_heap (heap w ++ ext) w)
    /\ agrees (heap w) (heap w ++ ext) o (packaged m bw th depth off lim)
    /\ (ends_early (packaged m bw th depth off lim) ->
        Forall (same_faces m) ext).
Proof.
  intros Hr. unfold _package, packaged.
  unfold bind at 1. unfold mesh_copy, bind, deref at 1, alloc.
  rewrite Hr. cbn [heap set_heap].
  set (w1 := set_heap (heap w ++ [m]) w).
  assert (H1 : heap w1 !! length (heap w) = Some m)
    by (subst w1; cbn [heap set_heap]; apply lookup_fresh).
  destruct (_get_packaged_pose_run _ _ w1 H1) as (ext1 & -> & Hf1).
  subst w1. cbn [heap set_heap]. rewrite <- app_assoc. cbn [app].
  assert (Hm : Forall (same_faces m) (m :: ext1))
    by (constructor; [reflexivity|exact Hf1]).
  destruct (packaged_pose m) as [pose|e].
  2:{ do 2 eexists. split; [reflexivity|]. split; [reflexivity|].
      intros _. exact Hm. }
  unfold apply_transform, get_extents, get_bounds, get_triangles,
    apply_translation, bind, deref, store, ret, raise.
  cbn [heap set_heap]. rewrite lookup_fresh. cbn [heap set_heap].
  rewrite insert_fresh, !lookup_fresh.
  set (posed := transform_mesh pose m). unfold assemble, build.
  assert (Hp : Forall (same_faces m) (posed :: ext1))
    by (constructor; [reflexivity|exact Hf1]).
  destruct (extents posed) as [e|].
  2:{ do 2 eexists. split; [reflexivity|]. split; [reflexivity|].
      intros _. exact Hp. }
  destruct (any_gt e lim).
  { do 2 eexists. split; [reflexivity|]. split; [reflexivity|].
    intros _. exact Hp. }
  cbn [heap set_heap]. rewrite !lookup_fresh.
  destruct (bounds posed) as [[bl bu]|].
  2:{ do 2 eexists. split; [reflexivity|]. split; [reflexivity|].
      intros _. exact Hp. }
  cbn [heap set_heap]. rewrite !lookup_fresh.
  destruct (triangles posed) as [ts|].
  2:{ do 2 eexists. split; [reflexivity|]. split; [reflexivity|].
      intros _. exact Hp. }
  destruct (find_contact 0 ts) as [face_ind|].
  2:{ do 2 eexists. split; [reflexivity|]. split; [reflexivity|].
      intros _. exact Hp. }
  cbn [heap set_heap]. rewrite !lookup_fresh.
  destruct (create_extrusion posed ts face_ind (- off)) as [extruded|].
  2:{ do 2 eexists. split; [reflexivity|]. split; [reflexivity|].
      intros _. exact Hp. }
  cbn [heap set_heap].
  set (h1 := heap w ++ posed :: ext1).
  rewrite (lookup_fresh h1).
  destruct (create_base extruded _ _ _ _ _ _) as [boxed|].
  2:{ exists (posed :: ext1 ++ [extruded]), (Raise IndexError).
      split; [|split; [reflexivity|intros [?|?]; discriminate]].
      subst h1. cbn [heap set_heap].
      rewrite <- !app_assoc. reflexivity. }
  cbn [heap set_heap].
  set (h2 := h1 ++ [extruded]).
  rewrite (lookup_fresh h2).
  destruct (triangles boxed) as [ts'|].
  2:{ exists (posed :: ext1 ++ [extruded; boxed]), (Raise IndexError).
      split; [|split; [reflexivity|intros [?|?]; discriminate]].
      subst h2 h1. cbn [heap set_heap].
      rewrite <- !app_assoc. reflexivity. }
  cbn [heap set_heap]. rewrite (lookup_fresh h2).
  cbn [heap set_heap]. rewrite (insert_fresh h2).
  set (res := translate_mesh _ boxed).
  exists (posed :: ext1 ++ [extruded; res]), (Return (Some (length h2))).
  split; [|split].
  - subst h2 h1. cbn [heap set_heap]. rewrite <- !app_assoc. reflexivity.
  - exists (length h2). split; [reflexivity|]. split.
    + replace (heap w ++ posed :: ext1 ++ [extruded; res])
        with (h2 ++ [res]).
      * apply lookup_fresh.
      * subst h2 h1. rewrite <- !app_assoc. reflexivity.
    + subst h2 h1. rewrite !length_app. lia.
  - intros [?|?]; discriminate.
Qed.

(** The value [np.random.uniform(lo, hi)] returns at position [k] of
    the random stream. *)
Definition sample (lo hi : Q) (k : nat) : Q := lo + (hi - lo) * rng k.

Definition draws_of (config : Config) : list (Q * Q) :=
  [ (min_border_width_pct config, max_border_width_pct config);
    (min_tab_height_pct config, max_tab_height_pct config);
    (min_depth config, max_depth config) ].

(** The heap-free outcome of [package] on a watertight mesh when the
    random stream stands at position [k]. *)
Definition package_outcome (config : Config) (m : Trimesh) (k : nat)
    : outcome (option Trimesh) :=
  packaged m
    (sample (min_border_width_pct config) (max_border_width_pct config) k)
    (sample (min_tab_height_pct config) (max_tab_height_pct config) (S k))
    (sample (min_depth config) (max_depth config) (S (S k)))
    (offset config) (ext_limits config).

Lemma package_run_not_watertight config r m w :
  heap w !! r = Some m ->
  is_watertight m = false ->
  package config r w
  = (Raise (ValueError "Must have a watertight mesh to package it!"), w).
Proof.
  intros Hr Hw. unfold package, bind, deref. rewrite Hr, Hw. reflexivity.
Qed.

Lemma package_run config r m w :
  heap w !! r = Some m ->
  is_watertight m = true ->
  exists ext o,
    package config r w
    = (o, mkWorld (heap w ++ ext) (3 + rng_pos w)
                  (draw_log w ++ draws_of config))
    /\ agrees (heap w) (heap w ++ ext) o
              (package_outcome config m (rng_pos w))
    /\ (ends_early (package_outcome config m (rng_pos w)) ->
        Forall (same_faces m) ext).
Proof.
  intros Hr Hw. unfold package, bind at 1, deref. rewrite Hr, Hw.
  cbn [negb]. unfold bind at 1, uniform at 1.
  unfold bind at 1, uniform at 1. cbn [heap rng_pos draw_log].
  unfold bind at 1, uniform at 1. cbn [heap rng_pos draw_log].
  set (w3 := mkWorld _ _ _).
  assert (H3 : heap w3 !! r = Some m) by exact Hr.
  destruct (_package_run r m
              (sample (min_border_width_pct config)
                      (max_border_width_pct config) (rng_pos w))
              (sample (min_tab_height_pct config)
                      (max_tab_height_pct config) (S (rng_pos w)))
              (sample (min_depth config) (max_depth config)
                      (S (S (rng_pos w))))
              (offset config) (ext_limits config) w3 H3)
    as (ext & o & Hrun & Hag).
  exists ext, o. split; [|exact Hag].
  unfold sample in Hrun. rewrite Hrun. subst w3.
  unfold set_heap, draws_of. cbn [heap rng_pos draw_log].
  rewrite <- !app_assoc. reflexivity.
Qed.

End Runs.

(** ** Properties of [package] *)

Section Claims.
Context `{Collab : Collaborators}.

Lemma agrees_raise old h o e :
  agrees old h o (Raise e) -> o = Raise e.
Proof. intros H. exact H. Qed.

Lemma packaged_pose_no_poses m :
  compute_stable_poses m = [] -> packaged_pose m = Raise BadTransform.
Proof. intros H. unfold packaged_pose. rewrite H. reflexivity. Qed.

Lemma any_gt_true e l :
  vx l < vx e \/ vy l < vy e \/ vz l < vz e -> any_gt e l = true.
Proof.
  intros H. unfold any_gt.
  destruct H as [H|[H|H]]; apply Qlt_bool_iff in H; rewrite H;
    rewrite ?orb_true_r; reflexivity.
Qed.

Lemma packaged_rejects m pose e bw th depth off lim :
  packaged_pose m = Return pose ->
  extents (transform_mesh pose m) = Some e ->
  any_gt e lim = true ->
  packaged m bw th depth off lim = Return None.
Proof.
  intros Hp He Hgt. unfold packaged. rewrite Hp. cbn zeta.
  rewrite He, Hgt. reflexivity.
Qed.

(** C7: a mesh that is not watertight makes [package] raise its
    [ValueError]; the world is left as it was, so nothing was sampled
    and no mesh was copied or built before the check. *)
Theorem package_rejects_open_mesh config r m w :
  heap w !! r = Some m ->
  is_watertight m = false ->
  package config r w
  = (Raise (ValueError "Must have a watertight mesh to package it!"), w).
Proof. apply package_run_not_watertight. Qed.

(** C8: whatever the outcome of [package] (a mesh, the rejection or an
    error), every cell that was in the heap before the call, the input
    mesh among them, holds the same value afterwards; a returned mesh
    sits in a cell that did not exist before the call. *)
Theorem package_preserves_input config r m w o w' :
  heap w !! r = Some m ->
  package config r w = (o, w') ->
  heap w' !! r = Some m
  /\ (forall r0, (r0 < length (heap w))%nat -> heap w' !! r0 = heap w !! r0)
  /\ (forall r', o = Return (Some r') ->
                 (length (heap w) <= r')%nat /\ is_Some (heap w' !! r')).
Proof.
  intros Hr Hrun. destruct (is_watertight m) eqn:Hw.
  - destruct (package_run config r m w Hr Hw) as (ext & o1 & Hp & Hag & _).
    rewrite Hp in Hrun. injection Hrun as <- <-. cbn [heap].
    split; [apply lookup_app_l_Some; exact Hr|]. split.
    + intros r0 Hlt. apply lookup_app_l. exact Hlt.
    + intros r' ->. unfold agrees in Hag.
      destruct (package_outcome config m (rng_pos w)) as [[m'|]|e].
      * destruct Hag as (r1 & Heq & Hl & Hge). injection Heq as ->.
        split; [exact Hge|]. exists m'. exact Hl.
      * discriminate.
      * discriminate.
  - rewrite (package_run_not_watertight config r m w Hr Hw) in Hrun.
    injection Hrun as <- <-.
    split; [exact Hr|]. split; [reflexivity|]. intros r' H. discriminate.
Qed.

(** C9: on a watertight mesh [package] makes exactly three draws, for
    the border width, the tab height and the depth in that order,
    whatever the outcome of the call; the three values reach
    [_package] in that order.  On a mesh that is not watertight it
    makes none. *)
Theorem package_draws_three_samples config r m w o w' :
  heap w !! r = Some m ->
  package config r w = (o, w') ->
  if is_watertight m
  then rng_pos w' = (3 + rng_pos w)%nat
       /\ draw_log w' = draw_log w ++ draws_of config
       /\ agrees (heap w) (heap w') o
                 (package_outcome config m (rng_pos w))
  else rng_pos w' = rng_pos w /\ draw_log w' = draw_log w.
Proof.
  intros Hr Hrun. destruct (is_watertight m) eqn:Hw.
  - destruct (package_run config r m w Hr Hw) as (ext & o1 & Hp & Hag & _).
    rewrite Hp in Hrun. injection Hrun as <- <-. cbn.
    split; [reflexivity|]. split; [reflexivity|]. exact Hag.
  - rewrite (package_run_not_watertight config r m w Hr Hw) in Hrun.
    injection Hrun as <- <-. split; reflexivity.
Qed.

(** C10: when the enumeration of stable poses of a watertight mesh is
    empty, [package] ends in the error of applying a transform that is
    not a matrix; it does not return the rejection. *)
Theorem package_without_stable_pose config r m w :
  heap w !! r = Some m ->
  is_watertight m = true ->
  compute_stable_poses m = [] ->
  exists w', package config r w = (Raise BadTransform, w').
Proof.
  intros Hr Hw Hposes.
  destruct (package_run config r m w Hr Hw) as (ext & o & Hp & Hag & _).
  unfold package_outcome, packaged in Hag.
  rewrite (packaged_pose_no_poses m Hposes) in Hag.
  apply agrees_raise in Hag. subst o. eexists. exact Hp.
Qed.

(** C3: when the posed mesh exceeds a limit on some axis, [package]
    returns the rejection, and so does [_package] for every border
    width, tab height and depth.  No cell of the heap after the run
    holds other faces than those of the input: nothing was extruded or
    triangulated, and the contact face was not looked for. *)
Theorem package_rejects_oversized config r m w pose e :
  heap w !! r = Some m ->
  is_watertight m = true ->
  packaged_pose m = Return pose ->
  extents (transform_mesh pose m) = Some e ->
  vx (ext_limits config) < vx e \/ vy (ext_limits config) < vy e
    \/ vz (ext_limits config) < vz e ->
  (forall bw th depth,
      exists ext,
        _package r bw th depth (offset config) (ext_limits config) w
        = (Return None, set_heap (heap w ++ ext) w)
        /\ Forall (same_faces m) ext)
  /\ exists w', package config r w = (Return None, w').
Proof.
  intros Hr Hw Hp He Hlim. apply any_gt_true in Hlim. split.
  - intros bw th depth.
    destruct (_package_run r m bw th depth (offset config)
                (ext_limits config) w Hr) as (ext & o & Hrun & Hag & Hearly).
    rewrite (packaged_rejects m pose e _ _ _ _ _ Hp He Hlim) in Hag, Hearly.
    cbn in Hag. subst o. exists ext. split; [exact Hrun|].
    apply Hearly. left. reflexivity.
  - destruct (package_run config r m w Hr Hw) as (ext & o & Hrun & Hag & _).
    unfold package_outcome in Hag.
    rewrite (packaged_rejects m pose e _ _ _ _ _ Hp He Hlim) in Hag.
    cbn in Hag. subst o. eexists. exact Hrun.
Qed.

End Claims.

(** ** The pose of least height *)

Section PoseSolver.
Context `{Collab : Collaborators}.

Lemma extents_transform T m :
  vertices m <> [] -> exists e, extents (transform_mesh T m) = Some e.
Proof.
  intros Hne. unfold extents, bounds, transform_mesh. cbn [vertices].
  destruct (vertices m) as [|v vs]; [contradiction|].
  cbn [map]. eexists. reflexivity.
Qed.

(** The z extent of the mesh [m] in pose [tf] is [z]. *)
Definition z_extent (m : Trimesh) (tf : mat4) (z : Q) : Prop :=
  exists e, extents (transform_mesh tf m) = Some e /\ z = vz e.

Lemma z_extent_fun m tf z z' : z_extent m tf z -> z_extent m tf z' -> z = z'.
Proof. intros (e & He & ->) (e' & He' & ->). congruence. Qed.

(** The loop invariant, for a running minimum [z0] held by [tf0]: the
    result is [tf0] itself, or the first pose of [tfs] that is lower
    than [z0] and than every pose before it, and no pose of [tfs] is
    lower than the result. *)
Lemma pose_select_running m tfs : forall z0 tf0,
  vertices m <> [] ->
  exists z tf,
    pose_select m tfs (Some z0) (Some tf0) = Return (Some z, Some tf)
    /\ z <= z0
    /\ (forall j tf' z', tfs !! j = Some tf' -> z_extent m tf' z' -> z <= z')
    /\ ((tf = tf0 /\ z = z0)
        \/ exists i, tfs !! i = Some tf /\ z_extent m tf z /\ z < z0
                     /\ forall j tf' z', (j < i)%nat -> tfs !! j = Some tf' ->
                                         z_extent m tf' z' -> z < z').
Proof.
  induction tfs as [|t rest IH]; intros z0 tf0 Hne.
  - exists z0, tf0. cbn. split; [reflexivity|]. split; [lra|].
    split; [|left; split; reflexivity].
    intros j tf' z' Hj. rewrite lookup_nil in Hj. discriminate.
  - cbn [pose_select]. destruct (extents_transform t m Hne) as [e He].
    rewrite He. cbn [lt_inf].
    assert (Ht : z_extent m t (vz e)) by (exists e; split; [exact He|reflexivity]).
    destruct (Qlt_bool (vz e) z0) eqn:Hlt.
    + apply Qlt_bool_iff in Hlt.
      destruct (IH (vz e) t Hne) as (z & tf & Hsel & Hle & Hall & Hwho).
      exists z, tf. split; [exact Hsel|]. split; [lra|]. split.
      * intros [|j] tf' z' Hj Hz.
        -- cbn in Hj. injection Hj as <-.
           rewrite (z_extent_fun _ _ _ _ Hz Ht). exact Hle.
        -- exact (Hall j tf' z' Hj Hz).
      * right. destruct Hwho as [[-> ->]|(i & Hi & Hzi & Hlti & Hbefore)].
        -- exists 0%nat. split; [reflexivity|]. split; [exact Ht|].
           split; [exact Hlt|]. intros j tf' z' Hj. lia.
        -- exists (S i). split; [exact Hi|]. split; [exact Hzi|].
           split; [lra|]. intros [|j] tf' z' Hj Hl Hz.
           ++ cbn in Hl. injection Hl as <-.
              rewrite (z_extent_fun _ _ _ _ Hz Ht). exact Hlti.
           ++ apply (Hbefore j tf' z'); [lia|exact Hl|exact Hz].
    + apply Qlt_bool_false_iff in Hlt.
      destruct (IH z0 tf0 Hne) as (z & tf & Hsel & Hle & Hall & Hwho).
      exists z, tf. split; [exact Hsel|]. split; [exact Hle|]. split.
      * intros [|j] tf' z' Hj Hz.
        -- cbn in Hj. injection Hj as <-.
           rewrite (z_extent_fun _ _ _ _ Hz Ht). lra.
        -- exact (Hall j tf' z' Hj Hz).
      * destruct Hwho as [[-> ->]|(i & Hi & Hzi & Hlti & Hbefore)].
        -- left. split; reflexivity.
        -- right. exists (S i). split; [exact Hi|]. split; [exact Hzi|].
           split; [exact Hlti|]. intros [|j] tf' z' Hj Hl Hz.
           ++ cbn in Hl. injection Hl as <-.
              rewrite (z_extent_fun _ _ _ _ Hz Ht). lra.
           ++ apply (Hbefore j tf' z'); [lia|exact Hl|exact Hz].
Qed.

Lemma pose_select_lowest m tfs :
  vertices m <> [] -> tfs <> [] ->
  exists i tf z,
    pose_select m tfs None None = Return (Some z, Some tf)
    /\ tfs !! i = Some tf /\ z_extent m tf z
    /\ (forall j tf' z', tfs !! j = Some tf' -> z_extent m tf' z' -> z <= z')
    /\ (forall j tf' z', (j < i)%nat -> tfs !! j = Some tf' ->
                         z_extent m tf' z' -> z < z').
Proof.
  intros Hne Htfs. destruct tfs as [|t rest]; [contradiction|].
  cbn [pose_select]. destruct (extents_transform t m Hne) as [e He].
  rewrite He. cbn [lt_inf].
  assert (Ht : z_extent m t (vz e)) by (exists e; split; [exact He|reflexivity]).
  destruct (pose_select_running m rest (vz e) t Hne)
    as (z & tf & Hsel & Hle & Hall & Hwho).
  destruct Hwho as [[-> ->]|(i & Hi & Hzi & Hlti & Hbefore)].
  - exists 0%nat, t, (vz e). split; [exact Hsel|]. split; [reflexivity|].
    split; [exact Ht|]. split.
    + intros [|j] tf' z' Hj Hz.
      * cbn in Hj. injection Hj as <-.
        rewrite (z_extent_fun _ _ _ _ Hz Ht). lra.
      * exact (Hall j tf' z' Hj Hz).
    + intros j tf' z' Hj. lia.
  - exists (S i), tf, z. split; [exact Hsel|]. split; [exact Hi|].
    split; [exact Hzi|]. split.
    + intros [|j] tf' z' Hj Hz.
      * cbn in Hj. injection Hj as <-.
        rewrite (z_extent_fun _ _ _ _ Hz Ht). lra.
      * exact (Hall j tf' z' Hj Hz).
    + intros [|j] tf' z' Hj Hl Hz.
      * cbn in Hl. injection Hl as <-.
        rewrite (z_extent_fun _ _ _ _ Hz Ht). exact Hlti.
      * apply (Hbefore j tf' z'); [lia|exact Hl|exact Hz].
Qed.

(** C4: the scan over the enumerated poses runs to the end and returns
    a pose of the enumeration whose z extent is at most that of every
    enumerated pose and strictly below that of every pose enumerated
    before it: among the poses of least height the first one wins. *)
Theorem pose_loop_selects_lowest r m w tfs :
  heap w !! r = Some m ->
  vertices m <> [] ->
  tfs <> [] ->
  exists i tf z w',
    pose_loop r tfs None None w = (Return (Some z, Some tf), w')
    /\ tfs !! i = Some tf /\ z_extent m tf z
    /\ (forall j tf' z', tfs !! j = Some tf' -> z_extent m tf' z' -> z <= z')
    /\ (forall j tf' z', (j < i)%nat -> tfs !! j = Some tf' ->
                         z_extent m tf' z' -> z < z').
Proof.
  intros Hr Hne Htfs.
  destruct (pose_select_lowest m tfs Hne Htfs)
    as (i & tf & z & Hsel & Hi & Hz & Hmin & Hfirst).
  destruct (pose_loop_run r m tfs None None w Hr) as (ext & Hrun & _).
  rewrite Hsel in Hrun.
  exists i, tf, z, (set_heap (heap w ++ ext) w). repeat split; assumption.
Qed.

End PoseSolver.

(** ** The yaw search *)

Section FootprintOptimizer.
Context `{Collab : Collaborators}.

(** The angle of the [k]-th pass through the loop: [theta] after [k]
    additions of [dtheta]. *)
Definition theta_at (k : nat) : Q := Nat.iter k (fun t => t + dtheta) 0.

Definition rot_at (k : nat) : mat4 := set_rot (z_axis_rotation (theta_at k)).

Lemma theta_at_S k : theta_at (S k) = theta_at k + dtheta.
Proof. reflexivity. Qed.

Lemma theta_at_below k : (k < 32)%nat -> Qlt_bool (theta_at k) np_pi = true.
Proof.
  intros Hk. do 32 (destruct k as [|k]; [vm_compute; reflexivity|]). lia.
Qed.

Lemma theta_at_32 : Qlt_bool (theta_at 32) np_pi = false.
Proof. vm_compute. reflexivity. Qed.

Lemma theta_at_mono k n : theta_at k <= theta_at (n + k).
Proof.
  induction n as [|n IH]; [apply Qle_refl|].
  cbn [Nat.add]. rewrite theta_at_S.
  apply Qle_trans with (1 := IH). unfold dtheta.
  rewrite <- (Qplus_0_r (theta_at (n + k))) at 1.
  apply Qplus_le_r. discriminate.
Qed.

(** The loop is entered exactly for the angles [theta_at 0] to
    [theta_at 31]. *)
Lemma theta_at_range k : theta_at k < np_pi <-> (k < 32)%nat.
Proof.
  split.
  - intros Hlt. destruct (Nat.lt_ge_cases k 32) as [H|H]; [exact H|].
    exfalso. pose proof theta_at_32 as H32.
    apply Qlt_bool_false_iff in H32.
    pose proof (theta_at_mono 32 (k - 32)) as Hm.
    replace (k - 32 + 32)%nat with k in Hm by lia. lra.
  - intros Hk. apply Qlt_bool_iff. apply theta_at_below. exact Hk.
Qed.

(** The x extent of the mesh [m] turned by [rot] is [x]. *)
Definition x_extent (m : Trimesh) (rot : mat4) (x : Q) : Prop :=
  exists e, extents (transform_mesh rot m) = Some e /\ x = vx e.

Lemma x_extent_fun m rot x x' :
  x_extent m rot x -> x_extent m rot x' -> x = x'.
Proof. intros (e & He & ->) (e' & He' & ->). congruence. Qed.

(** The loop invariant, entering pass [k] with the running minimum
    [min_x] held by [min_rot] and fuel for the passes that remain. *)
Lemma yaw_select_running m n : forall k min_rot min_x,
  (k + n = 32)%nat ->
  vertices m <> [] ->
  exists rot x,
    yaw_select n m (theta_at k) min_rot min_x = Return rot
    /\ x <= min_x
    /\ (forall j x', (k <= j < 32)%nat -> x_extent m (rot_at j) x' -> x <= x')
    /\ ((rot = min_rot /\ x = min_x)
        \/ exists i, (k <= i < 32)%nat /\ rot = rot_at i
                     /\ x_extent m rot x /\ x < min_x
                     /\ forall j x', (k <= j < i)%nat ->
                                     x_extent m (rot_at j) x' -> x < x').
Proof.
  induction n as [|n IH]; intros k min_rot min_x Hk Hne.
  - replace k with 32%nat by lia. cbn [yaw_select].
    rewrite theta_at_32. exists min_rot, min_x.
    split; [reflexivity|]. split; [lra|]. split; [intros j x' Hj; lia|].
    left. split; reflexivity.
  - cbn [yaw_select]. rewrite theta_at_below by lia.
    fold (rot_at k). destruct (extents_transform (rot_at k) m Hne) as [e He].
    rewrite He. rewrite <- theta_at_S.
    assert (Hx : x_extent m (rot_at k) (vx e))
      by (exists e; split; [exact He|reflexivity]).
    destruct (Qlt_bool (vx e) min_x) eqn:Hlt.
    + apply Qlt_bool_iff in Hlt.
      destruct (IH (S k) (rot_at k) (vx e) ltac:(lia) Hne)
        as (rot & x & Hsel & Hle & Hall & Hwho).
      exists rot, x. split; [exact Hsel|]. split; [lra|]. split.
      * intros j x' Hj Hx'. destruct (Nat.eq_dec j k) as [->|Hjk].
        -- rewrite (x_extent_fun _ _ _ _ Hx' Hx). exact Hle.
        -- apply (Hall j x'); [lia|exact Hx'].
      * right. destruct Hwho as [[-> ->]|(i & Hi & Hrot & Hxi & Hlti & Hbefore)].
        -- exists k. split; [lia|]. split; [reflexivity|].
           split; [exact Hx|]. split; [exact Hlt|]. intros j x' Hj. lia.
        -- exists i. split; [lia|]. split; [exact Hrot|].
           split; [exact Hxi|]. split; [lra|]. intros j x' Hj Hx'.
           destruct (Nat.eq_dec j k) as [->|Hjk].
           ++ rewrite (x_extent_fun _ _ _ _ Hx' Hx). exact Hlti.
           ++ apply (Hbefore j x'); [lia|exact Hx'].
    + apply Qlt_bool_false_iff in Hlt.
      destruct (IH (S k) min_rot min_x ltac:(lia) Hne)
        as (rot & x & Hsel & Hle & Hall & Hwho).
      exists rot, x. split; [exact Hsel|]. split; [exact Hle|]. split.
      * intros j x' Hj Hx'. destruct (Nat.eq_dec j k) as [->|Hjk].
        -- rewrite (x_extent_fun _ _ _ _ Hx' Hx). lra.
        -- apply (Hall j x'); [lia|exact Hx'].
      * destruct Hwho as [[-> ->]|(i & Hi & Hrot & Hxi & Hlti & Hbefore)].
        -- left. split; reflexivity.
        -- right. exists i. split; [lia|]. split; [exact Hrot|].
           split; [exact Hxi|]. split; [exact Hlti|]. intros j x' Hj Hx'.
           destruct (Nat.eq_dec j k) as [->|Hjk].
           ++ rewrite (x_extent_fun _ _ _ _ Hx' Hx). lra.
           ++ apply (Hbefore j x'); [lia|exact Hx'].
Qed.

(** C5: started on the posed mesh with its own x extent [vx e0] (the
    mesh as it is, identity rotation), the yaw search ends with a
    rotation whose x extent [x] is at most [vx e0].  It examines the
    angles [theta_at 0 .. theta_at 31], the multiples of 0.1 below
    [np.pi]; [x] is at most the x extent at each of them; the result is
    the identity unless some angle is strictly better, and then it is
    the first angle that reaches the minimum. *)
Theorem yaw_search_never_widens r m w e0 :
  heap w !! r = Some m ->
  extents m = Some e0 ->
  exists rot x w',
    yaw_loop yaw_fuel r 0 eye4 (vx e0) w = (Return rot, w')
    /\ x <= vx e0
    /\ (forall k, theta_at k < np_pi <-> (k < 32)%nat)
    /\ (forall j x', (j < 32)%nat -> x_extent m (rot_at j) x' -> x <= x')
    /\ ((rot = eye4 /\ x = vx e0)
        \/ exists i, (i < 32)%nat /\ rot = rot_at i
                     /\ x_extent m rot x /\ x < vx e0
                     /\ forall j x', (j < i)%nat ->
                                     x_extent m (rot_at j) x' -> x < x')
    /\ ((forall j x', (j < 32)%nat -> x_extent m (rot_at j) x' ->
                      vx e0 <= x') -> rot = eye4).
Proof.
  intros Hr He0.
  assert (Hne : vertices m <> []).
  { intros Hnil. unfold extents, bounds in He0. rewrite Hnil in He0.
    discriminate. }
  destruct (yaw_select_running m 32 0 eye4 (vx e0) eq_refl Hne)
    as (rot & x & Hsel & Hle & Hall & Hwho).
  destruct (yaw_loop_run r m yaw_fuel 0 eye4 (vx e0) w Hr)
    as (ext & Hrun & _).
  change (theta_at 0) with 0 in Hsel. unfold yaw_fuel in Hrun.
  rewrite Hsel in Hrun.
  exists rot, x, (set_heap (heap w ++ ext) w).
  split; [exact Hrun|]. split; [exact Hle|].
  split; [exact theta_at_range|]. split.
  { intros j x' Hj. apply Hall. lia. }
  split.
  - destruct Hwho as [H|(i & Hi & Hrot & Hxi & Hlti & Hbefore)];
      [left; exact H|].
    right. exists i. split; [lia|]. split; [exact Hrot|].
    split; [exact Hxi|]. split; [exact Hlti|].
    intros j x' Hj. apply Hbefore. lia.
  - intros Hnone.
    destruct Hwho as [[H _]|(i & Hi & Hrot & Hxi & Hlti & _)]; [exact H|].
    exfalso. subst rot.
    pose proof (Hnone i x ltac:(lia) Hxi). lra.
Qed.

End FootprintOptimizer.

(** ** The contact face *)

Section ContactFaceLocator.
Context `{Collab : Collaborators}.

(** A triangle qualifies as contact face when one of its vertices is
    within 1e-12 of the ground plane and its normal has a negative z
    component. *)
Definition qualifies (t : triangle3) : Prop :=
  let '(p, q, r) := t in
  (Qabs (vz p) < 1 # 1000000000000 \/ Qabs (vz q) < 1 # 1000000000000
   \/ Qabs (vz r) < 1 # 1000000000000)
  /\ cross_z t < 0.

Lemma is_contact_iff t : is_contact t = true <-> qualifies t.
Proof.
  destruct t as [[p q] r]. unfold is_contact, qualifies, touches_ground,
    faces_down.
  rewrite andb_true_iff, !orb_true_iff, !Qlt_bool_iff.
  split; intros [H1 H2]; (split; [tauto|lra]).
Qed.

Lemma find_contact_some ts : forall k i,
  find_contact k ts = Some i ->
  (k <= i)%nat
  /\ (exists t, ts !! (i - k)%nat = Some t /\ qualifies t)
  /\ forall j t', (j < i - k)%nat -> ts !! j = Some t' -> ~ qualifies t'.
Proof.
  induction ts as [|t rest IH]; intros k i H; [discriminate|].
  cbn [find_contact] in H. destruct (is_contact t) eqn:Hc.
  - injection H as <-. rewrite Nat.sub_diag. split; [lia|]. split.
    + exists t. split; [reflexivity|]. apply is_contact_iff. exact Hc.
    + intros j t' Hj. lia.
  - destruct (IH (S k) i H) as (Hle & (t0 & Ht0 & Hq) & Hbefore).
    split; [lia|]. split.
    + exists t0. split; [|exact Hq].
      replace (i - k)%nat with (S (i - S k)) by lia. exact Ht0.
    + intros [|j] t' Hj Hl.
      * cbn in Hl. injection Hl as <-. intros Hq'.
        apply is_contact_iff in Hq'. congruence.
      * apply (Hbefore j t'); [lia|exact Hl].
Qed.

Lemma find_contact_none ts : forall k,
  find_contact k ts = None <-> forall j t, ts !! j = Some t -> ~ qualifies t.
Proof.
  induction ts as [|t rest IH]; intros k.
  - split; [|reflexivity]. intros _ j t H. rewrite lookup_nil in H.
    discriminate.
  - cbn [find_contact]. destruct (is_contact t) eqn:Hc.
    + split; [discriminate|]. intros H. exfalso.
      apply (H 0%nat t eq_refl). apply is_contact_iff. exact Hc.
    + rewrite (IH (S k)). split.
      * intros H [|j] t' Hl.
        -- cbn in Hl. injection Hl as <-. intros Hq.
           apply is_contact_iff in Hq. congruence.
        -- exact (H j t' Hl).
      * intros H j t' Hl. exact (H (S j) t' Hl).
Qed.

Lemma extents_bounds m e :
  extents m = Some e -> exists bl bu, bounds m = Some (bl, bu).
Proof.
  unfold extents. destruct (bounds m) as [[bl bu]|]; [|discriminate].
  intros _. exists bl, bu. reflexivity.
Qed.

Lemma packaged_without_contact m pose e ts bw th depth off lim :
  packaged_pose m = Return pose ->
  extents (transform_mesh pose m) = Some e ->
  any_gt e lim = false ->
  triangles (transform_mesh pose m) = Some ts ->
  find_contact 0 ts = None ->
  packaged m bw th depth off lim = Raise (ValueError "Malformed mesh").
Proof.
  intros Hp He Hlim Hts Hnone. unfold packaged. rewrite Hp. cbn zeta.
  rewrite He, Hlim. unfold assemble, build.
  destruct (extents_bounds _ _ He) as (bl & bu & ->).
  rewrite Hts, Hnone. reflexivity.
Qed.

(** C6 (amended): with the posed mesh within the extent limits, the
    scan selects the first face, in face order, that has a vertex
    within 1e-12 of the ground plane and a normal with negative z
    component.  When no face qualifies, [package] raises
    [ValueError "Malformed mesh"], and every cell added to the heap by
    then has the faces of the input: no geometry was emitted. *)
Theorem contact_face_first_or_fatal config r m w pose e ts :
  heap w !! r = Some m ->
  is_watertight m = true ->
  packaged_pose m = Return pose ->
  extents (transform_mesh pose m) = Some e ->
  any_gt e (ext_limits config) = false ->
  triangles (transform_mesh pose m) = Some ts ->
  match find_contact 0 ts with
  | Some i =>
      (exists t, ts !! i = Some t /\ qualifies t)
      /\ forall j t', (j < i)%nat -> ts !! j = Some t' -> ~ qualifies t'
  | None =>
      (forall j t, ts !! j = Some t -> ~ qualifies t)
      /\ exists ext w',
           package config r w = (Raise (ValueError "Malformed mesh"), w')
           /\ heap w' = heap w ++ ext
           /\ Forall (same_faces m) ext
  end.
Proof.
  intros Hr Hw Hp He Hlim Hts.
  destruct (find_contact 0 ts) as [i|] eqn:Hfind.
  - destruct (find_contact_some ts 0 i Hfind) as (_ & Hsel & Hbefore).
    rewrite Nat.sub_0_r in Hsel, Hbefore. split; assumption.
  - split; [apply (find_contact_none ts 0); exact Hfind|].
    destruct (package_run config r m w Hr Hw)
      as (ext & o & Hrun & Hag & Hearly).
    unfold package_outcome in Hag, Hearly.
    rewrite (packaged_without_contact m pose e ts _ _ _ _ _
               Hp He Hlim Hts Hfind) in Hag, Hearly.
    cbn in Hag. subst o. exists ext. eexists.
    split; [exact Hrun|]. split; [reflexivity|].
    apply Hearly. right. reflexivity.
Qed.

End ContactFaceLocator.

(** ** Edge counts

    Watertightness is a statement about how often each sorted edge
    occurs; the lemmas below count edges through the list operations the
    packager applies to face arrays. *)

Section EdgeCounts.
Local Open Scope Z_scope.

Lemma edge_eqb_eq e1 e2 : edge_eqb e1 e2 = true <-> e1 = e2.
Proof.
  destruct e1 as [a b], e2 as [c d]. unfold edge_eqb. cbn [fst snd].
  rewrite andb_true_iff, !Z.eqb_eq. split; [intros [-> ->]; reflexivity|].
  intros H. injection H as -> ->. split; reflexivity.
Qed.

Lemma edge_eqb_neq e1 e2 : edge_eqb e1 e2 = false <-> e1 <> e2.
Proof.
  rewrite <- edge_eqb_eq. destruct (edge_eqb e1 e2); split; congruence.
Qed.

Lemma sorted_edge_eq_iff p q r s :
  sorted_edge p q = sorted_edge r s <-> (p = r /\ q = s) \/ (p = s /\ q = r).
Proof.
  unfold sorted_edge. split.
  - intros H. injection H as H1 H2. lia.
  - intros [[-> ->]|[-> ->]]; [reflexivity|].
    rewrite Z.min_comm, Z.max_comm. reflexivity.
Qed.

Lemma edge_count_app e l1 l2 :
  edge_count e (l1 ++ l2) = (edge_count e l1 + edge_count e l2)%nat.
Proof.
  induction l1 as [|x l1 IH]; [reflexivity|].
  cbn [app edge_count]. rewrite IH. lia.
Qed.

Lemma edges_sorted_app l1 l2 :
  edges_sorted (l1 ++ l2) = edges_sorted l1 ++ edges_sorted l2.
Proof. unfold edges_sorted. rewrite map_app, concat_app. reflexivity. Qed.

Lemma edges_sorted_cons f l :
  edges_sorted (f :: l) = face_edges f ++ edges_sorted l.
Proof. reflexivity. Qed.

Lemma edge_count_pos e es : (0 < edge_count e es)%nat <-> e ∈ es.
Proof.
  induction es as [|x es IH]; cbn [edge_count].
  - split; [lia|]. intros H. inversion H.
  - rewrite elem_of_cons. destruct (edge_eqb x e) eqn:E.
    + apply edge_eqb_eq in E. subst x. split; [left; reflexivity|lia].
    + apply edge_eqb_neq in E. rewrite <- IH. split; [intros H; right; lia|].
      intros [->|H]; [contradiction|lia].
Qed.

(** Every edge occurs twice or not at all. *)
Definition closed (fs : list face) : Prop :=
  forall e, edge_count e (edges_sorted fs) = 0%nat
            \/ edge_count e (edges_sorted fs) = 2%nat.

Lemma is_watertight_closed m : is_watertight m = true <-> closed (faces m).
Proof.
  unfold is_watertight, closed. rewrite forallb_forall. split.
  - intros H e.
    destruct (Nat.eq_dec (edge_count e (edges_sorted (faces m))) 0%nat)
      as [H0|H0]; [left; exact H0|right].
    apply Nat.eqb_eq, H. apply list_elem_of_In, edge_count_pos. lia.
  - intros H e Hin. apply Nat.eqb_eq.
    apply list_elem_of_In, edge_count_pos in Hin.
    destruct (H e); lia.
Qed.

(** All three indices of a face satisfy [R]. *)
Definition face_all (R : Z -> Prop) (f : face) : Prop :=
  let '(a, b, c) := f in R a /\ R b /\ R c.

Lemma sorted_edge_all (R : Z -> Prop) u v :
  R u -> R v -> R (Z.min u v) /\ R (Z.max u v).
Proof.
  intros Hu Hv.
  destruct (Z.min_spec u v) as [[_ ->]|[_ ->]];
    destruct (Z.max_spec u v) as [[_ ->]|[_ ->]]; split; assumption.
Qed.

Lemma edge_eqb_outside (R : Z -> Prop) u v e :
  R u -> R v -> ~ (R (fst e) /\ R (snd e)) ->
  edge_eqb (sorted_edge u v) e = false.
Proof.
  intros Hu Hv Hn. apply edge_eqb_neq. intros <-. apply Hn.
  exact (sorted_edge_all R u v Hu Hv).
Qed.

(** An edge with an endpoint outside the range of the faces occurs in
    none of them. *)
Lemma edge_count_outside (R : Z -> Prop) fs e :
  Forall (face_all R) fs ->
  ~ (R (fst e) /\ R (snd e)) ->
  edge_count e (edges_sorted fs) = 0%nat.
Proof.
  intros Hfs Hn. induction Hfs as [|[[a b] c] fs (Ha & Hb & Hc) _ IH];
    [reflexivity|].
  rewrite edges_sorted_cons, edge_count_app, IH.
  cbn [face_edges edge_count].
  rewrite !(edge_eqb_outside R) by assumption. reflexivity.
Qed.

(** Edges are stored smaller index first. *)
Lemma edge_count_unsorted fs x y :
  y < x -> edge_count (x, y) (edges_sorted fs) = 0%nat.
Proof.
  intros Hlt. induction fs as [|[[a b] c] fs IH]; [reflexivity|].
  rewrite edges_sorted_cons, edge_count_app, IH.
  cbn [face_edges edge_count].
  assert (H : forall u v, edge_eqb (sorted_edge u v) (x, y) = false).
  { intros u v. apply edge_eqb_neq. unfold sorted_edge. intros H.
    injection H as H1 H2. lia. }
  rewrite !H. reflexivity.
Qed.

Lemma delete_app_l (fs gs : list face) i :
  (i < length fs)%nat -> delete i (fs ++ gs) = delete i fs ++ gs.
Proof.
  revert i. induction fs as [|f fs IH]; intros i Hi; [cbn in Hi; lia|].
  destruct i as [|i]; [reflexivity|].
  cbn. f_equal. apply IH. cbn in Hi. lia.
Qed.

(** [np.delete(faces, i, 0)] removes the edges of face [i]. *)
Lemma edge_count_delete fs i f e :
  fs !! i = Some f ->
  edge_count e (edges_sorted fs)
  = (edge_count e (edges_sorted (delete i fs))
     + edge_count e (face_edges f))%nat.
Proof.
  revert i. induction fs as [|g fs IH]; intros i Hi; [discriminate|].
  destruct i as [|i].
  - cbn in Hi. injection Hi as ->. cbn [delete list_delete].
    rewrite edges_sorted_cons, edge_count_app. lia.
  - cbn in Hi. change (delete (S i) (g :: fs)) with (g :: delete i fs).
    rewrite !edges_sorted_cons, !edge_count_app, (IH i Hi). lia.
Qed.

(** [map_face g] renames the vertices of a face. *)
Definition map_face (g : Z -> Z) (f : face) : face :=
  let '(a, b, c) := f in (g a, g b, g c).

(** Renaming the vertices by a function that is injective on the
    vertices in use keeps the edge counts. *)
Lemma edge_count_rename (g : Z -> Z) (D : Z -> Prop) fs u v :
  (forall x y, D x -> D y -> g x = g y -> x = y) ->
  Forall (face_all D) fs -> D u -> D v ->
  edge_count (sorted_edge (g u) (g v)) (edges_sorted (map (map_face g) fs))
  = edge_count (sorted_edge u v) (edges_sorted fs).
Proof.
  intros Hinj Hfs Hu Hv.
  assert (Heq : forall a b, D a -> D b ->
            edge_eqb (sorted_edge (g a) (g b)) (sorted_edge (g u) (g v))
            = edge_eqb (sorted_edge a b) (sorted_edge u v)).
  { intros a b Ha Hb.
    destruct (edge_eqb (sorted_edge a b) (sorted_edge u v)) eqn:E.
    - apply edge_eqb_eq in E. apply edge_eqb_eq.
      apply sorted_edge_eq_iff in E. apply sorted_edge_eq_iff.
      destruct E as [[-> ->]|[-> ->]]; [left|right]; split; reflexivity.
    - apply edge_eqb_neq in E. apply edge_eqb_neq. intros H. apply E.
      apply sorted_edge_eq_iff in H. apply sorted_edge_eq_iff.
      destruct H as [[H1 H2]|[H1 H2]]; [left|right];
        split; apply Hinj; assumption. }
  induction Hfs as [|[[a b] c] fs (Ha & Hb & Hc) _ IH]; [reflexivity|].
  cbn [map map_face]. rewrite !edges_sorted_cons, !edge_count_app, IH.
  cbn [face_edges edge_count]. rewrite !Heq by assumption. reflexivity.
Qed.

End EdgeCounts.

(** ** The perforated top face

    What the packager needs of [triangle.triangulate] on its seven
    points (corners 0..3 of the box top, pedestal ring 4..6): triangles
    over these points only, each of the four hull edges and of the three
    ring segments in exactly one triangle, every other edge in two
    triangles or in none. *)

Definition top_points : list Z := [0; 1; 2; 3; 4; 5; 6]%Z.

Definition top_rim : list edge :=
  [(0, 1); (1, 2); (2, 3); (0, 3); (4, 5); (5, 6); (4, 6)]%Z.

Definition in_top (v : Z) : bool := (0 <=? v)%Z && (v <=? 6)%Z.

Definition face_in_top (f : face) : bool :=
  let '(a, b, c) := f in in_top a && in_top b && in_top c.

Definition expected_count (e : edge) (c : nat) : bool :=
  if existsb (edge_eqb e) top_rim then Nat.eqb c 1
  else Nat.eqb c 0 || Nat.eqb c 2.

Definition top_face_ok (T : list face) : bool :=
  forallb face_in_top T
  && forallb (fun u =>
       forallb (fun v =>
         expected_count (sorted_edge u v)
           (edge_count (sorted_edge u v) (edges_sorted T)))
         top_points)
       top_points.

(** The index arithmetic of "Compute top faces": 4, 5, 6 go to the last
    three vertices of the extruded mesh, everything else moves up by
    [vo]. *)
Definition remap (vo : Z) (x : Z) : Z :=
  (if x =? 4 then vo - 3 else if x =? 5 then vo - 2
   else if x =? 6 then vo - 1 else x + vo)%Z.

(** The six faces of the pedestal wall. *)
Definition side_faces (v0 v1 v2 vo : Z) : list face :=
  [ (v0, v1, 1 + vo); (v0, 1 + vo, 0 + vo);
    (v1, v2, 2 + vo); (v1, 2 + vo, 1 + vo);
    (v2, v0, 0 + vo); (v2, 0 + vo, 2 + vo) ]%Z.

Section TopFace.
Local Open Scope Z_scope.

Lemma remap_faces vo (T : list face) :
  map (shift_face vo)
    (map (replace_index 6 (vo - 1 - vo))
       (map (replace_index 5 (vo - 2 - vo))
          (map (replace_index 4 (vo - 3 - vo)) T)))
  = map (map_face (remap vo)) T.
Proof.
  rewrite !map_map. apply map_ext. intros [[a b] c].
  assert (H : forall x,
            (let y := if x =? 4 then vo - 3 - vo else x in
             let y := if y =? 5 then vo - 2 - vo else y in
             let y := if y =? 6 then vo - 1 - vo else y in y + vo)
            = remap vo x).
  { intros x. unfold remap. cbv zeta.
    repeat match goal with
           | |- context [Z.eqb ?p ?q] =>
               lazymatch p with
               | context [Z.eqb] => fail
               | _ => destruct (Z.eqb_spec p q); cbv iota
               end
           end; lia. }
  unfold shift_face, replace_index, map_face. cbv zeta in H.
  rewrite !H. reflexivity.
Qed.

Lemma shift_faces vo (fs : list face) :
  map (shift_face vo) fs = map (map_face (fun v => v + vo)) fs.
Proof. apply map_ext. intros [[a b] c]. reflexivity. Qed.

Lemma edge_eqb_shift d a b x y :
  edge_eqb (sorted_edge (a + d) (b + d)) (x, y)
  = edge_eqb (sorted_edge a b) (x - d, y - d).
Proof.
  unfold edge_eqb, sorted_edge. cbn [fst snd].
  rewrite Z.add_min_distr_r, Z.add_max_distr_r.
  destruct (Z.eqb_spec (Z.min a b + d) x), (Z.eqb_spec (Z.min a b) (x - d)),
    (Z.eqb_spec (Z.max a b + d) y), (Z.eqb_spec (Z.max a b) (y - d));
    try reflexivity; lia.
Qed.

(** Moving all indices up by [d] moves the edges with them. *)
Lemma edge_count_shift d fs x y :
  edge_count (x, y) (edges_sorted (map (map_face (fun v => v + d)) fs))
  = edge_count (x - d, y - d) (edges_sorted fs).
Proof.
  induction fs as [|[[a b] c] fs IH]; [reflexivity|].
  cbn [map map_face]. rewrite !edges_sorted_cons, !edge_count_app, IH.
  cbn [face_edges edge_count]. rewrite !edge_eqb_shift. reflexivity.
Qed.

Lemma in_top_iff v : in_top v = true <-> 0 <= v <= 6.
Proof. unfold in_top. rewrite andb_true_iff, !Z.leb_le. reflexivity. Qed.

Lemma top_face_ok_range T :
  top_face_ok T = true -> Forall (face_all (fun v => 0 <= v <= 6)) T.
Proof.
  unfold top_face_ok. rewrite andb_true_iff. intros [H _].
  apply Forall_forall. intros [[a b] c] Hin.
  rewrite forallb_forall in H. apply list_elem_of_In in Hin.
  specialize (H _ Hin). unfold face_in_top in H.
  rewrite !andb_true_iff, !in_top_iff in H. unfold face_all. tauto.
Qed.

Lemma top_points_iff v : In v top_points <-> 0 <= v <= 6.
Proof. unfold top_points. cbn [In]. lia. Qed.

Lemma top_face_ok_count T u v :
  top_face_ok T = true -> 0 <= u <= 6 -> 0 <= v <= 6 ->
  expected_count (sorted_edge u v)
    (edge_count (sorted_edge u v) (edges_sorted T)) = true.
Proof.
  unfold top_face_ok. rewrite andb_true_iff. intros [_ H] Hu Hv.
  rewrite forallb_forall in H. apply top_points_iff in Hu, Hv.
  specialize (H u Hu). rewrite forallb_forall in H. exact (H v Hv).
Qed.

End TopFace.

(** ** The new faces close the gap

    In coordinates relative to the first new vertex (pedestal top 0..2,
    box top 3..6, box bottom 7..10) the rim of the pedestal wall, the
    walls and bottom of the box and the remapped top face together use
    every edge twice or not at all. *)

Section NewFaces.
Local Open Scope Z_scope.

(** The top loop of the pedestal wall, as it occurs in [side_faces]. *)
Definition wall_rim : list edge :=
  [sorted_edge 1 0; sorted_edge 2 1; sorted_edge 0 2].

(** The vertex of the triangulation behind a remapped index. *)
Definition unmap (j : Z) : Z := if j <? 3 then j + 4 else j - 3.

Lemma remap_unmap j : 0 <= j <= 6 -> remap 3 (unmap j) = j.
Proof.
  intros Hj. unfold remap, unmap.
  repeat match goal with
         | |- context [Z.eqb ?p ?q] =>
             lazymatch p with
             | context [Z.ltb] => fail
             | _ => destruct (Z.eqb_spec p q)
             end
         | |- context [Z.ltb ?p ?q] => destruct (Z.ltb_spec p q)
         end; lia.
Qed.

Lemma unmap_range j : 0 <= j <= 6 -> 0 <= unmap j <= 6.
Proof. intros Hj. unfold unmap. destruct (Z.ltb_spec j 3); lia. Qed.

Lemma remap_range vo x : 0 <= x <= 6 -> vo - 3 <= remap vo x <= vo + 3.
Proof.
  intros Hx. unfold remap.
  repeat match goal with
         | |- context [Z.eqb ?p ?q] => destruct (Z.eqb_spec p q)
         end; lia.
Qed.

Lemma remap_inj vo x y :
  0 <= x <= 6 -> 0 <= y <= 6 -> remap vo x = remap vo y -> x = y.
Proof.
  intros Hx Hy. unfold remap.
  repeat match goal with
         | |- context [Z.eqb ?p ?q] => destruct (Z.eqb_spec p q)
         end; lia.
Qed.

Lemma Forall_map_face (D R : Z -> Prop) g fs :
  (forall x, D x -> R (g x)) ->
  Forall (face_all D) fs -> Forall (face_all R) (map (map_face g) fs).
Proof.
  intros Hg Hfs. induction Hfs as [|[[a b] c] fs (Ha & Hb & Hc) _ IH];
    constructor; [|exact IH].
  cbn. auto.
Qed.

Lemma top_count_template T j k :
  top_face_ok T = true -> 0 <= j <= 6 -> 0 <= k <= 6 -> j <= k ->
  edge_count (j, k) (edges_sorted (map (map_face (remap 3)) T))
  = edge_count (sorted_edge (unmap j) (unmap k)) (edges_sorted T).
Proof.
  intros Hok Hj Hk Hjk.
  replace (j, k)
    with (sorted_edge (remap 3 (unmap j)) (remap 3 (unmap k))).
  - apply (edge_count_rename (remap 3) (fun v => 0 <= v <= 6)).
    + intros x y. apply remap_inj.
    + apply top_face_ok_range. exact Hok.
    + apply unmap_range. exact Hj.
    + apply unmap_range. exact Hk.
  - rewrite !remap_unmap by assumption. unfold sorted_edge.
    f_equal; lia.
Qed.

Lemma top_template_range T :
  top_face_ok T = true ->
  Forall (face_all (fun v => 0 <= v <= 6)) (map (map_face (remap 3)) T).
Proof.
  intros Hok.
  apply (Forall_map_face (fun v => 0 <= v <= 6)); [|apply top_face_ok_range, Hok].
  intros x Hx. pose proof (remap_range 3 x Hx). lia.
Qed.

Lemma expected_count_cases e c :
  expected_count e c = true ->
  (existsb (edge_eqb e) top_rim = true /\ c = 1%nat)
  \/ (existsb (edge_eqb e) top_rim = false /\ (c = 0%nat \/ c = 2%nat)).
Proof.
  unfold expected_count. destruct (existsb (edge_eqb e) top_rim).
  - intros H. apply Nat.eqb_eq in H. left. split; [reflexivity|exact H].
  - intros H. apply orb_true_iff in H. right. split; [reflexivity|].
    destruct H as [H|H]; apply Nat.eqb_eq in H; [left|right]; exact H.
Qed.

Lemma box_faces_range : Forall (face_all (fun v => 0 <= v <= 7)) box_faces.
Proof. unfold box_faces. repeat constructor; lia. Qed.

Lemma wall_rim_outside j k :
  ~ (0 <= j /\ j <= k /\ k <= 2) -> edge_count (j, k) wall_rim = 0%nat.
Proof.
  intros H. unfold wall_rim, edge_count, edge_eqb, sorted_edge.
  cbn [fst snd Z.min Z.max Z.compare Pos.compare Pos.compare_cont].
  repeat match goal with
         | |- context [Z.eqb ?p ?q] => destruct (Z.eqb_spec p q)
         end; cbn; lia.
Qed.

Lemma range_cases (P : Z -> Prop) :
  P 0 -> P 1 -> P 2 -> P 3 -> P 4 -> P 5 -> P 6 -> P 7 -> P 8 -> P 9 ->
  P 10 -> forall j, 0 <= j <= 10 -> P j.
Proof.
  intros H0 H1 H2 H3 H4 H5 H6 H7 H8 H9 H10 j Hj.
  assert (H : j = 0 \/ j = 1 \/ j = 2 \/ j = 3 \/ j = 4 \/ j = 5 \/ j = 6
              \/ j = 7 \/ j = 8 \/ j = 9 \/ j = 10) by lia.
  repeat (destruct H as [->|H]; [assumption|]). subst j. assumption.
Qed.

(** How often the edge [(j, k)] occurs among the new faces, the rim of
    the pedestal wall included. *)
Definition new_count (T : list face) (j k : Z) : nat :=
  (edge_count (j, k) wall_rim
   + edge_count (j - 3, k - 3)%Z (edges_sorted box_faces)
   + edge_count (j, k) (edges_sorted (map (map_face (remap 3%Z)) T)))%nat.

Ltac new_count_case T Hok :=
  lazymatch goal with
  | |- new_count T ?j ?k = _ \/ _ =>
      unfold new_count;
      first
        [ rewrite (top_count_template T) by (assumption || lia);
          let Hr := fresh "Hr" in
          let Hc := fresh "Hc" in
          destruct (expected_count_cases _ _
                      (top_face_ok_count T (unmap j) (unmap k) Hok
                         ltac:(apply unmap_range; lia)
                         ltac:(apply unmap_range; lia)))
            as [[Hr Hc]|[Hr [Hc|Hc]]];
          vm_compute in Hr; try discriminate Hr;
          rewrite Hc; vm_compute; auto
        | rewrite (edge_count_outside (fun v => 0 <= v <= 6) _ _
                     (top_template_range T Hok)) by (cbn; lia);
          vm_compute; auto ]
  end.

Lemma new_part_closed T j k :
  top_face_ok T = true ->
  new_count T j k = 0%nat \/ new_count T j k = 2%nat.
Proof.
  intros Hok.
  destruct (Z_lt_dec k j) as [Hkj|Hjk].
  { unfold new_count. rewrite wall_rim_outside by lia.
    rewrite !edge_count_unsorted by lia. left. reflexivity. }
  destruct (Z_lt_dec j 0) as [Hj0|Hj0].
  { unfold new_count. rewrite wall_rim_outside by lia.
    rewrite (edge_count_outside (fun v => 0 <= v <= 7) box_faces)
      by (try apply box_faces_range; cbn; lia).
    rewrite (edge_count_outside (fun v => 0 <= v <= 6) _ _
               (top_template_range T Hok)) by (cbn; lia).
    left. reflexivity. }
  destruct (Z_lt_dec 10 k) as [Hk10|Hk10].
  { unfold new_count. rewrite wall_rim_outside by lia.
    rewrite (edge_count_outside (fun v => 0 <= v <= 7) box_faces)
      by (try apply box_faces_range; cbn; lia).
    rewrite (edge_count_outside (fun v => 0 <= v <= 6) _ _
               (top_template_range T Hok)) by (cbn; lia).
    left. reflexivity. }
  assert (Hj : 0 <= j <= 10) by lia.
  assert (Hk : 0 <= k <= 10) by lia.
  assert (Hle : j <= k) by lia.
  clear Hjk Hj0 Hk10. revert k Hk Hle. revert j Hj.
  apply (range_cases
           (fun j => forall k, 0 <= k <= 10 -> j <= k ->
                     new_count T j k = 0%nat \/ new_count T j k = 2%nat));
    apply (range_cases
             (fun k => _ <= k ->
                       new_count T _ k = 0%nat \/ new_count T _ k = 2%nat));
    intros Hle; try lia; new_count_case T Hok.
Qed.

End NewFaces.

(** ** The assembled faces are closed *)

Section Assembly.
Local Open Scope Z_scope.

Lemma edge_eqb_false u v e :
  Z.min u v <> fst e \/ Z.max u v <> snd e ->
  edge_eqb (sorted_edge u v) e = false.
Proof.
  intros H. apply edge_eqb_neq. intros <-. unfold sorted_edge in H.
  cbn [fst snd] in H. lia.
Qed.

Lemma edge_eqb_true u v e :
  Z.min u v = fst e -> Z.max u v = snd e ->
  edge_eqb (sorted_edge u v) e = true.
Proof.
  intros H1 H2. apply edge_eqb_eq. destruct e as [x y].
  unfold sorted_edge. cbn [fst snd] in H1, H2. congruence.
Qed.

(** Settle every comparison of an explicit edge with [e] that linear
    arithmetic can settle. *)
Ltac settle_edges :=
  repeat match goal with
         | |- context [edge_eqb (sorted_edge ?u ?v) ?e] =>
             first [ rewrite (edge_eqb_false u v e) by (cbn [fst snd]; lia)
                   | rewrite (edge_eqb_true u v e) by (cbn [fst snd]; lia) ]
         end.

Ltac unfold_side :=
  unfold side_faces, edges_sorted;
  cbn [map concat face_edges app edge_count].

(** Below the new vertices the pedestal wall has the edges of the face it
    replaces. *)
Lemma side_count_old n a b c x y :
  a < n -> b < n -> c < n -> x < n -> y < n ->
  edge_count (x, y) (edges_sorted (side_faces a b c n))
  = edge_count (x, y) (face_edges (a, b, c)).
Proof.
  intros Ha Hb Hc Hx Hy. unfold_side.
  repeat match goal with
         | |- context [edge_eqb (sorted_edge ?u ?v) ?e] =>
             rewrite (edge_eqb_false u v e) by (cbn [fst snd]; lia)
         end.
  cbv iota. lia.
Qed.

(** Between an old and a new vertex the pedestal wall is closed. *)
Lemma side_count_mixed n a b c x y :
  a < n -> b < n -> c < n -> a <> b -> b <> c -> c <> a ->
  x < n -> n <= y ->
  edge_count (x, y) (edges_sorted (side_faces a b c n)) = 0%nat
  \/ edge_count (x, y) (edges_sorted (side_faces a b c n)) = 2%nat.
Proof.
  intros Ha Hb Hc Hab Hbc Hca Hx Hy. unfold_side.
  destruct (Z.eq_dec x a), (Z.eq_dec x b), (Z.eq_dec x c);
    destruct (Z.eq_dec y n), (Z.eq_dec y (n + 1)), (Z.eq_dec y (n + 2));
    try lia; settle_edges; cbv iota; cbn [Nat.add]; auto.
Qed.

(** Among the new vertices the pedestal wall has its top rim only. *)
Lemma side_count_new n a b c x y :
  a < n -> b < n -> c < n -> n <= x ->
  edge_count (x, y) (edges_sorted (side_faces a b c n))
  = edge_count (x - n, y - n) wall_rim.
Proof.
  intros Ha Hb Hc Hx. unfold wall_rim. cbn [edge_count].
  rewrite <- !edge_eqb_shift. unfold_side.
  repeat match goal with
         | |- context [edge_eqb (sorted_edge ?u ?v) ?e] =>
             rewrite (edge_eqb_false u v e) by (cbn [fst snd]; lia)
         end.
  cbv iota. lia.
Qed.

Lemma remap_shift n (T : list face) :
  map (map_face (remap (n + 3))) T
  = map (map_face (fun v => v + n)) (map (map_face (remap 3)) T).
Proof.
  rewrite map_map. apply map_ext. intros [[a b] c].
  assert (H : forall x, remap (n + 3) x = remap 3 x + n).
  { intros x. unfold remap.
    repeat match goal with
           | |- context [Z.eqb ?p ?q] => destruct (Z.eqb_spec p q)
           end; lia. }
  cbn [map_face]. rewrite !H. reflexivity.
Qed.

Lemma top_faces_high n T :
  top_face_ok T = true ->
  Forall (face_all (fun v => n <= v)) (map (map_face (remap (n + 3))) T).
Proof.
  intros Hok.
  apply (Forall_map_face (fun v => 0 <= v <= 6));
    [|apply top_face_ok_range, Hok].
  intros x Hx. pose proof (remap_range (n + 3) x Hx). lia.
Qed.

Lemma box_faces_high n :
  Forall (face_all (fun v => n <= v)) (map (shift_face (n + 3)) box_faces).
Proof. unfold box_faces. cbn [map shift_face]. repeat constructor; lia. Qed.

(** The faces of the packaged mesh: those of the posed mesh without the
    contact face [i], the pedestal wall, the remapped top face and the
    rest of the box. *)
Definition assembled_faces (F : list face) (n : Z) (i : nat)
    (a b c : Z) (T : list face) : list face :=
  delete i (F ++ side_faces a b c n)
  ++ (map (map_face (remap (n + 3))) T
      ++ map (shift_face (n + 3)) box_faces).

Lemma assembly_closed (F : list face) (n : Z) (i : nat) a b c T :
  closed F ->
  Forall (face_all (fun v => - n <= v < n)) F ->
  F !! i = Some (a, b, c) ->
  a <> b -> b <> c -> c <> a ->
  top_face_ok T = true ->
  closed (assembled_faces F n i a b c T).
Proof.
  intros HF Hrange Hi Hab Hbc Hca Hok [x y]. unfold assembled_faces.
  assert (Habc : face_all (fun v => - n <= v < n) (a, b, c)).
  { rewrite Forall_forall in Hrange. apply Hrange.
    apply list_elem_of_lookup. exists i. exact Hi. }
  destruct Habc as (Ha & Hb & Hc).
  rewrite delete_app_l by (apply lookup_lt_Some in Hi; exact Hi).
  rewrite !edges_sorted_app, !edge_count_app.
  pose proof (edge_count_delete F i _ (x, y) Hi) as Hdel.
  destruct (Z_lt_dec x n) as [Hx|Hx].
  - (* no new face has an edge that starts below [n] *)
    rewrite (edge_count_outside (fun v => n <= v) _ (x, y)
               (top_faces_high n T Hok)) by (cbn [fst snd]; lia).
    rewrite (edge_count_outside (fun v => n <= v) _ (x, y)
               (box_faces_high n)) by (cbn [fst snd]; lia).
    destruct (Z_lt_dec y n) as [Hy|Hy].
    + rewrite side_count_old by lia. destruct (HF (x, y)); lia.
    + rewrite (edge_count_outside _ F (x, y) Hrange) in Hdel
        by (cbn [fst snd]; lia).
      destruct (side_count_mixed n a b c x y) as [H|H]; try lia;
        rewrite H; lia.
  - rewrite (edge_count_outside _ F (x, y) Hrange) in Hdel
      by (cbn [fst snd]; lia).
    rewrite side_count_new by lia.
    rewrite remap_shift, shift_faces, !edge_count_shift.
    replace (x - (n + 3)) with (x - n - 3) by lia.
    replace (y - (n + 3)) with (y - n - 3) by lia.
    pose proof (new_part_closed T (x - n) (y - n) Hok) as Hnew.
    unfold new_count in Hnew. lia.
Qed.

End Assembly.

(** ** The packaged mesh is watertight *)

Section Watertight.
Context `{Collab : Collaborators}.

Lemma np_index_range {A} (l : list A) i x :
  np_index l i = Some x ->
  (- Z.of_nat (length l) <= i < Z.of_nat (length l))%Z.
Proof.
  unfold np_index. destruct (Z.leb_spec 0 i) as [H0|H0].
  - intros H. apply lookup_lt_Some in H. lia.
  - destruct (Z.leb_spec (- Z.of_nat (length l)) i); [lia|discriminate].
Qed.

Lemma face_triangle_range vs f t :
  face_triangle vs f = Some t ->
  face_all (fun v => - Z.of_nat (length vs) <= v < Z.of_nat (length vs))%Z f.
Proof.
  destruct f as [[a b] c]. unfold face_triangle.
  destruct (np_index vs a) eqn:Ea; [|discriminate].
  destruct (np_index vs b) eqn:Eb; [|discriminate].
  destruct (np_index vs c) eqn:Ec; [|discriminate].
  intros _. cbn. split; [|split]; eapply np_index_range; eassumption.
Qed.

Lemma triangles_range m ts :
  triangles m = Some ts ->
  Forall (face_all (fun v => - Z.of_nat (length (vertices m)) <= v
                             < Z.of_nat (length (vertices m)))%Z) (faces m).
Proof.
  unfold triangles. intros H. apply mapM_Some_1 in H.
  induction H as [|f t fs ts Hft _ IH]; constructor; [|exact IH].
  exact (face_triangle_range _ _ _ Hft).
Qed.

Lemma triangles_lookup m ts i f t :
  triangles m = Some ts -> faces m !! i = Some f -> ts !! i = Some t ->
  face_triangle (vertices m) f = Some t.
Proof.
  unfold triangles. intros H Hf Ht. apply mapM_Some_1 in H.
  destruct (Forall2_lookup_l _ _ _ _ _ H Hf) as (t' & Ht' & Hft).
  congruence.
Qed.

(** A face whose normal has a z component joins three different
    vertices. *)
Lemma contact_face_distinct vs a b c t :
  face_triangle vs (a, b, c) = Some t ->
  is_contact t = true ->
  a <> b /\ b <> c /\ c <> a.
Proof.
  unfold face_triangle. intros Ht Hc.
  destruct (np_index vs a) as [p|] eqn:Ea; [|discriminate].
  destruct (np_index vs b) as [q|] eqn:Eb; [|discriminate].
  destruct (np_index vs c) as [r0|] eqn:Ec; [|discriminate].
  injection Ht as <-.
  unfold is_contact in Hc. apply andb_true_iff in Hc. destruct Hc as [_ Hd].
  unfold faces_down in Hd. apply Qlt_bool_iff in Hd.
  repeat split; intros ->.
  - assert (q = p) by congruence. subst q.
    assert (cross_z (p, p, r0) == 0) by (unfold cross_z; ring). lra.
  - assert (r0 = q) by congruence. subst r0.
    assert (cross_z (p, q, q) == 0) by (unfold cross_z; ring). lra.
  - assert (r0 = p) by congruence. subst r0.
    assert (cross_z (p, q, p) == 0) by (unfold cross_z; ring). lra.
Qed.

Lemma find_contact_is_contact ts i :
  find_contact 0 ts = Some i ->
  exists t, ts !! i = Some t /\ is_contact t = true.
Proof.
  intros H. destruct (find_contact_some ts 0 i H) as (_ & (t & Ht & Hq) & _).
  rewrite Nat.sub_0_r in Ht. exists t. split; [exact Ht|].
  apply is_contact_iff. exact Hq.
Qed.

Definition ring_segments : list (Z * Z) := [(5, 4); (6, 5); (4, 6)]%Z.

Lemma assemble_result posed e bw th depth off m' :
  assemble posed e bw th depth off = Return (Some m') ->
  exists ts i a b c t p,
    triangles posed = Some ts /\ find_contact 0 ts = Some i
    /\ faces posed !! i = Some (a, b, c) /\ ts !! i = Some t
    /\ segments p = ring_segments /\ length (pslg_vertices p) = 7%nat
    /\ faces m'
       = assembled_faces (faces posed) (Z.of_nat (length (vertices posed)))
           i a b c (triangulate p "pc")
    /\ length (vertices m') = (length (vertices posed) + 11)%nat.
Proof.
  unfold assemble, build.
  destruct (bounds posed) as [[bl bu]|]; [|discriminate].
  destruct (triangles posed) as [ts|]; [|discriminate].
  destruct (find_contact 0 ts) as [i|] eqn:Hfind; [|discriminate].
  unfold create_extrusion.
  destruct (faces posed !! i) as [[[a b] c]|] eqn:Hf; [|discriminate].
  destruct (ts !! i) as [[[p q] r0]|] eqn:Ht; [|discriminate].
  unfold create_base. cbn [vertices faces].
  rewrite length_app. cbn [length].
  replace (length (vertices posed) + 3 - 3)%nat
    with (length (vertices posed)) by lia.
  rewrite drop_app_length. cbn [fst snd].
  rewrite remap_faces.
  match goal with
  | |- context [triangulate ?P "pc"] => set (plsg := P)
  end.
  set (boxed := mkTrimesh _ _).
  destruct (triangles boxed) as [ts'|]; [|discriminate].
  intros H. injection H as <-.
  exists ts, i, a, b, c, (p, q, r0), plsg.
  repeat (split; [reflexivity || assumption|]).
  split.
  - cbn [translate_mesh faces boxed]. unfold assembled_faces, side_faces.
    rewrite Nat2Z.inj_add. reflexivity.
  - cbn [translate_mesh vertices boxed].
    rewrite length_map, !length_app. cbn [length]. lia.
Qed.

Lemma faces_valid_range m :
  Forall (face_all (fun v => - Z.of_nat (length (vertices m)) <= v
                             < Z.of_nat (length (vertices m)))%Z) (faces m) ->
  faces_valid m = true.
Proof.
  intros H. unfold faces_valid. apply forallb_forall. intros f Hin.
  rewrite Forall_forall in H. apply list_elem_of_In in Hin.
  specialize (H f Hin). destruct f as [[a b] c]. destruct H as (Ha & Hb & Hc).
  unfold face_ok, index_ok. rewrite !andb_true_iff, !Z.leb_le, !Z.ltb_lt.
  lia.
Qed.

End Watertight.

Section TopFaceForced.
Context `{Collab : Collaborators}.
Local Open Scope Z_scope.

Lemma faces_in_top_range T :
  forallb face_in_top T = true -> Forall (face_all (fun v => 0 <= v <= 6)) T.
Proof.
  intros H. apply Forall_forall. intros [[a b] c] Hin.
  rewrite forallb_forall in H. apply list_elem_of_In in Hin.
  specialize (H _ Hin). unfold face_in_top in H.
  rewrite !andb_true_iff, !in_top_iff in H. unfold face_all. tauto.
Qed.

Lemma range_in_top T :
  Forall (face_all (fun v => 0 <= v <= 6)) T -> forallb face_in_top T = true.
Proof.
  intros H. apply forallb_forall. intros [[a b] c] Hin.
  rewrite Forall_forall in H. apply list_elem_of_In in Hin.
  specialize (H _ Hin). unfold face_in_top.
  rewrite !andb_true_iff, !in_top_iff. unfold face_all in H. tauto.
Qed.

Lemma top_point_cases (P : Z -> Prop) :
  P 0 -> P 1 -> P 2 -> P 3 -> P 4 -> P 5 -> P 6 ->
  forall u, 0 <= u <= 6 -> P u.
Proof.
  intros H0 H1 H2 H3 H4 H5 H6 u Hu.
  assert (H : u = 0 \/ u = 1 \/ u = 2 \/ u = 3 \/ u = 4 \/ u = 5 \/ u = 6)
    by lia.
  repeat (destruct H as [->|H]; [assumption|]). subst u. assumption.
Qed.

(** Conversely, when the new faces use every edge twice or not at all,
    the triangulation has each hull edge and each ring segment once and
    every other edge twice or not at all. *)
Lemma top_count_forced T u v :
  Forall (face_all (fun v => 0 <= v <= 6)) T ->
  0 <= u <= 6 -> 0 <= v <= 6 ->
  (new_count T (Z.min (remap 3 u) (remap 3 v))
               (Z.max (remap 3 u) (remap 3 v)) = 0%nat
   \/ new_count T (Z.min (remap 3 u) (remap 3 v))
                  (Z.max (remap 3 u) (remap 3 v)) = 2%nat) ->
  expected_count (sorted_edge u v)
    (edge_count (sorted_edge u v) (edges_sorted T)) = true.
Proof.
  intros HT Hu Hv. unfold new_count.
  change (Z.min (remap 3 u) (remap 3 v), Z.max (remap 3 u) (remap 3 v))
    with (sorted_edge (remap 3 u) (remap 3 v)).
  rewrite (edge_count_rename (remap 3) (fun v => 0 <= v <= 6) T u v
             (remap_inj 3) HT Hu Hv).
  generalize (edge_count (sorted_edge u v) (edges_sorted T)). intros c.
  revert v Hv. revert u Hu.
  apply (top_point_cases
           (fun u => forall v, 0 <= v <= 6 -> _ -> _));
    apply (top_point_cases (fun v => _ -> _));
    intros H; vm_compute in H; destruct H as [H|H];
    try discriminate H; try (injection H as H); subst c;
    vm_compute; reflexivity.
Qed.

(** The range of the assembled faces needs no more of the triangulation
    than indices within its seven points. *)
Lemma assembly_in_range (F : list face) (n : Z) (i : nat) a b c T :
  0 <= n ->
  Forall (face_all (fun v => - n <= v < n)) F ->
  F !! i = Some (a, b, c) ->
  Forall (face_all (fun v => 0 <= v <= 6)) T ->
  Forall (face_all (fun v => - (n + 11) <= v < n + 11))
         (assembled_faces F n i a b c T).
Proof.
  intros Hn HF Hi HT.
  assert (Habc : face_all (fun v => - n <= v < n) (a, b, c)).
  { rewrite Forall_forall in HF. apply HF.
    apply list_elem_of_lookup. exists i. exact Hi. }
  destruct Habc as (Ha & Hb & Hc).
  unfold assembled_faces. rewrite !Forall_app. split; [|split].
  - apply Forall_delete. rewrite Forall_app. split.
    + apply (Forall_impl _ _ _ HF). intros [[u v] x] (Hu & Hv & Hx).
      cbn. lia.
    + unfold side_faces. repeat constructor; lia.
  - apply (Forall_map_face (fun v => 0 <= v <= 6)); [|exact HT].
    intros x Hx. pose proof (remap_range (n + 3) x Hx). lia.
  - unfold box_faces. cbn [map shift_face]. repeat constructor; lia.
Qed.

Lemma assembly_closed_top (F : list face) (n : Z) (i : nat) a b c T :
  Forall (face_all (fun v => - n <= v < n)) F ->
  F !! i = Some (a, b, c) ->
  Forall (face_all (fun v => 0 <= v <= 6)) T ->
  closed (assembled_faces F n i a b c T) ->
  top_face_ok T = true.
Proof.
  intros Hrange Hi HT Hcl.
  assert (Habc : face_all (fun v => - n <= v < n) (a, b, c)).
  { rewrite Forall_forall in Hrange. apply Hrange.
    apply list_elem_of_lookup. exists i. exact Hi. }
  destruct Habc as (Ha & Hb & Hc).
  unfold top_face_ok. apply andb_true_iff. split; [apply range_in_top, HT|].
  apply forallb_forall. intros u Hu. apply forallb_forall. intros v Hv.
  apply top_points_iff in Hu, Hv.
  apply top_count_forced; try assumption.
  pose proof (remap_range 3 u Hu) as Hru.
  pose proof (remap_range 3 v Hv) as Hrv.
  set (x := Z.min (remap 3 u) (remap 3 v)).
  set (y := Z.max (remap 3 u) (remap 3 v)).
  assert (Hx : 0 <= x) by (subst x; lia).
  specialize (Hcl (x + n, y + n)). unfold assembled_faces in Hcl.
  rewrite delete_app_l in Hcl by (apply lookup_lt_Some in Hi; exact Hi).
  rewrite !edges_sorted_app, !edge_count_app in Hcl.
  pose proof (edge_count_delete F i _ (x + n, y + n) Hi) as Hdel.
  rewrite (edge_count_outside _ F (x + n, y + n) Hrange) in Hdel
    by (cbn [fst snd]; lia).
  rewrite side_count_new in Hcl by lia.
  rewrite remap_shift, shift_faces, !edge_count_shift in Hcl.
  replace (x + n - n) with x in Hcl by lia.
  replace (y + n - n) with y in Hcl by lia.
  replace (x + n - (n + 3)) with (x - 3) in Hcl by lia.
  replace (y + n - (n + 3)) with (y - 3) in Hcl by lia.
  unfold new_count. lia.
Qed.

End TopFaceForced.

(** The planar graph that "Compute top faces" hands to
    [triangle.triangulate]: the corners of the box top, the corners of
    the pedestal, the three ring segments and a hole at the centre of
    the ring. *)
Definition top_pslg (xl xu yl yu : Q) (o0 o1 o2 : vec3) : PSLG :=
  mkPSLG ring_segments
    [ (xl, yl); (xu, yl); (xu, yu); (xl, yu);
      (vx o0, vy o0); (vx o1, vy o1); (vx o2, vy o2) ]
    ((vx o0 + vx o1 + vx o2) / 3, (vy o0 + vy o1 + vy o2) / 3).

(** The graph for a posed mesh: box corners from the bounds, the border
    width and the tab height, ring from the contact triangle. *)
Definition graph_of (posed : Trimesh) (extents : vec3)
    (border_width_pct tab_height_pct : Q) : option PSLG :=
  let border_width := border_width_pct * vx extents in
  let tab_height := tab_height_pct * vy extents in
  match bounds posed, triangles posed with
  | Some (bl, bu), Some ts =>
      match find_contact 0 ts with
      | Some face_ind =>
          match ts !! face_ind with
          | Some (p, q, r) =>
              Some (top_pslg (vx bl - border_width) (vx bu + border_width)
                      (vy bl - border_width)
                      (vy bu + border_width + tab_height) p q r)
          | None => None
          end
      | None => None
      end
  | _, _ => None
  end.

Section Graph.
Context `{Collab : Collaborators}.

(** The graph that a call of [package] on the mesh [m] triangulates
    when the random stream stands at position [k]; there is none when
    the call ends before "Compute top faces". *)
Definition package_graph (config : Config) (m : Trimesh) (k : nat)
    : option PSLG :=
  match packaged_pose m with
  | Return pose =>
      let posed := transform_mesh pose m in
      match extents posed with
      | Some e =>
          if any_gt e (ext_limits config) then None
          else graph_of posed e
                 (sample (min_border_width_pct config)
                         (max_border_width_pct config) k)
                 (sample (min_tab_height_pct config)
                         (max_tab_height_pct config) (S k))
      | None => None
      end
  | Raise _ => None
  end.

Lemma assemble_graph posed e bw th depth off m' :
  assemble posed e bw th depth off = Return (Some m') ->
  exists ts i a b c p,
    triangles posed = Some ts /\ find_contact 0 ts = Some i
    /\ faces posed !! i = Some (a, b, c)
    /\ graph_of posed e bw th = Some p
    /\ faces m'
       = assembled_faces (faces posed) (Z.of_nat (length (vertices posed)))
           i a b c (triangulate p "pc")
    /\ faces_valid m' = true.
Proof.
  unfold assemble, build, graph_of.
  destruct (bounds posed) as [[bl bu]|]; [|discriminate].
  destruct (triangles posed) as [ts|]; [|discriminate].
  destruct (find_contact 0 ts) as [i|] eqn:Hfind; [|discriminate].
  unfold create_extrusion.
  destruct (faces posed !! i) as [[[a b] c]|] eqn:Hf; [|discriminate].
  destruct (ts !! i) as [[[p q] r0]|] eqn:Ht; [|discriminate].
  unfold create_base. cbn [vertices faces].
  rewrite length_app. cbn [length].
  replace (length (vertices posed) + 3 - 3)%nat
    with (length (vertices posed)) by lia.
  rewrite drop_app_length. cbn [fst snd].
  rewrite remap_faces.
  match goal with
  | |- context [triangulate ?P "pc"] => set (plsg := P)
  end.
  set (boxed := mkTrimesh _ _).
  destruct (triangles boxed) as [ts'|] eqn:Hts'; [|discriminate].
  intros H. injection H as <-.
  exists ts, i, a, b, c, plsg.
  split; [reflexivity|]. split; [exact Hfind|]. split; [exact Hf|].
  split; [reflexivity|]. split.
  - cbn [translate_mesh faces boxed]. unfold assembled_faces, side_faces.
    rewrite Nat2Z.inj_add. reflexivity.
  - apply faces_valid_range. cbn [translate_mesh vertices faces].
    rewrite length_map. exact (triangles_range boxed ts' Hts').
Qed.

(** C1 (amended): a mesh that [package] returns for a watertight input
    has every face index valid into its vertex sequence.  It is
    watertight when the triangulation of the graph of this call is a
    top face with the hole of the pedestal: each hull edge and each ring
    segment in exactly one triangle, every other edge in two triangles
    or in none.  For a triangulation over the seven points of the graph
    it is watertight in this case only. *)
Theorem package_watertight_iff_top_face config r m w r' w' :
  heap w !! r = Some m ->
  is_watertight m = true ->
  package config r w = (Return (Some r'), w') ->
  exists p m',
    package_graph config m (rng_pos w) = Some p
    /\ heap w' !! r' = Some m'
    /\ faces_valid m' = true
    /\ (top_face_ok (triangulate p "pc") = true -> is_watertight m' = true)
    /\ (forallb face_in_top (triangulate p "pc") = true ->
        is_watertight m' = true -> top_face_ok (triangulate p "pc") = true).
Proof.
  intros Hr Hw Hrun.
  destruct (package_run config r m w Hr Hw) as (ext & o & Hp & Hag & _).
  rewrite Hp in Hrun. injection Hrun as -> <-. cbn [heap].
  unfold agrees in Hag.
  destruct (package_outcome config m (rng_pos w)) as [[m'|]|err] eqn:Hout;
    [|discriminate..].
  destruct Hag as (r1 & Heq & Hl & _). injection Heq as <-.
  unfold package_outcome, packaged in Hout. unfold package_graph.
  destruct (packaged_pose m) as [pose|]; [|discriminate].
  cbv zeta in Hout |- *.
  destruct (extents (transform_mesh pose m)) as [e|]; [|discriminate].
  destruct (any_gt e (ext_limits config)); [discriminate|].
  destruct (assemble_graph _ _ _ _ _ _ _ Hout)
    as (ts & i & a & b & c & p & Hts & Hfind & Hf & Hg & Hfaces & Hvalid).
  exists p, m'. split; [exact Hg|]. split; [exact Hl|].
  split; [exact Hvalid|].
  pose proof (triangles_range _ ts Hts) as Hrange.
  split.
  - intros Hok.
    destruct (find_contact_is_contact ts i Hfind) as (t & Ht & Hcontact).
    pose proof (triangles_lookup _ ts i _ _ Hts Hf Ht) as Hft.
    destruct (contact_face_distinct _ _ _ _ _ Hft Hcontact)
      as (Hab & Hbc & Hca).
    apply is_watertight_closed. rewrite Hfaces.
    apply assembly_closed; try assumption.
    apply is_watertight_closed. exact Hw.
  - intros Hin Hwm. apply is_watertight_closed in Hwm. rewrite Hfaces in Hwm.
    apply (assembly_closed_top _ _ _ _ _ _ _ Hrange Hf); [|exact Hwm].
    apply faces_in_top_range. exact Hin.
Qed.

End Graph.

(** ** Reading results off a computation *)

Definition is_return {A} (o : outcome A) : bool :=
  match o with Return _ => true | Raise _ => false end.

Definition returned {A} (d : A) (o : outcome A) : A :=
  match o with Return a => a | Raise _ => d end.

Lemma returned_eq {A} (d : A) (o : outcome A) :
  is_return o = true -> o = Return (returned d o).
Proof. destruct o; [reflexivity|discriminate]. Qed.

Definition is_some {A} (o : option A) : bool :=
  match o with Some _ => true | None => false end.

Lemma default_eq {A} (d : A) (o : option A) :
  is_some o = true -> o = Some (default d o).
Proof. destruct o; [reflexivity|discriminate]. Qed.

(** ** A concrete scenario: the unit cube *)

Module Cube.

(** The unit cube centred at the origin: 8 vertices, 12 triangles with
    outward normals; the two triangles of the bottom come first. *)
Definition cube : Trimesh :=
  let h := 1 # 2 in
  mkTrimesh
    [ (- h, - h, - h); (h, - h, - h); (h, h, - h); (- h, h, - h);
      (- h, - h, h); (h, - h, h); (h, h, h); (- h, h, h) ]
    [ (0, 2, 1); (0, 3, 2); (4, 5, 6); (4, 6, 7); (0, 1, 5); (0, 5, 4);
      (3, 7, 6); (3, 6, 2); (0, 4, 7); (0, 7, 3); (1, 2, 6); (1, 6, 5) ]%Z.

(** A rotation followed by a lift of [dz]. *)
Definition lifted (dz : Q) (R : mat3) : mat4 :=
  let '((a, b, c), (d, e, f), (g, h, i)) := R in
  ((a, b, c, 0), (d, e, f, 0), (g, h, i, dz), (0, 0, 0, 1)).

(** The six rotations that turn a face of the cube downwards. *)
Definition face_down_rotations : list mat3 :=
  [ ((1, 0, 0), (0, 1, 0), (0, 0, 1));
    ((1, 0, 0), (0, -1, 0), (0, 0, -1));
    ((1, 0, 0), (0, 0, -1), (0, 1, 0));
    ((1, 0, 0), (0, 0, 1), (0, -1, 0));
    ((0, 0, -1), (0, 1, 0), (1, 0, 0));
    ((0, 0, 1), (0, 1, 0), (-1, 0, 0)) ].

(** The stable poses of the cube: each face down, resting on z = 0. *)
Definition cube_poses : list mat4 := map (lifted (1 # 2)) face_down_rotations.

(** A rotation about the z axis with rational entries: the point of the
    unit circle with parameter [theta / 2], in lowest terms. *)
Definition rational_rotation (theta : Q) : mat3 :=
  let t := Qred (theta / 2) in
  let c := Qred ((1 - t * t) / (1 + t * t)) in
  let s := Qred ((2 * t) / (1 + t * t)) in
  ((c, - s, 0), (s, c, 0), (0, 0, 1)).

(** A triangulation of the box top around the pedestal of the cube:
    corners 0..3 counterclockwise, ring 4, 5, 6. *)
Definition cube_top : list face :=
  [ (0, 1, 6); (0, 6, 4); (1, 2, 5); (1, 5, 6);
    (5, 2, 3); (5, 3, 4); (4, 3, 0) ]%Z.

Definition cube_collab : Collaborators :=
  {| compute_stable_poses := fun _ => cube_poses;
     z_axis_rotation := rational_rotation;
     triangulate := fun _ _ => cube_top;
     rng := fun _ => 1 # 2 |}.

(** The same collaborators with poses that leave the cube a rounding
    residue above the ground. *)
Definition hover_collab : Collaborators :=
  {| compute_stable_poses :=
       fun _ => map (lifted ((1 # 2) + (1 # 1000000000))) face_down_rotations;
     z_axis_rotation := rational_rotation;
     triangulate := fun _ _ => cube_top;
     rng := fun _ => 1 # 2 |}.

(** Collaborators whose pose enumeration is empty. *)
Definition no_pose_collab : Collaborators :=
  {| compute_stable_poses := fun _ => [];
     z_axis_rotation := rational_rotation;
     triangulate := fun _ _ => cube_top;
     rng := fun _ => 1 # 2 |}.

(** [ext_limits=[10,10,10]], [offset=0.01], depth 0.02, border and tab
    0.1. *)
Definition cube_config : Config :=
  mkConfig (1 # 10) (1 # 10) (1 # 10) (1 # 10) (2 # 100) (2 # 100)
           (1 # 100) (10, 10, 10).

(** The same with [ext_limits=[0.5,10,10]]. *)
Definition tight_config : Config :=
  mkConfig (1 # 10) (1 # 10) (1 # 10) (1 # 10) (2 # 100) (2 # 100)
           (1 # 100) (1 # 2, 10, 10).

(** A world whose only object is the cube. *)
Definition cube_world : World := mkWorld [cube] 0 [].

(** A single triangle: not watertight. *)
Definition open_mesh : Trimesh :=
  mkTrimesh [(0, 0, 0); (1, 0, 0); (0, 1, 0)] [(0, 1, 2)%Z].

Definition cube_run : outcome (option ref) * World :=
  package (Collab := cube_collab) cube_config 0%nat cube_world.

Definition open_world : World := mkWorld [open_mesh] 0 [].

(** The pose the packager computes for the cube, and the extents and
    triangles of the cube in that pose. *)
Definition cube_pose : mat4 :=
  returned eye4 (packaged_pose (Collab := cube_collab) cube).

Definition cube_posed : Trimesh := transform_mesh cube_pose cube.

Definition cube_extents : vec3 := default (0, 0, 0) (extents cube_posed).

Lemma cube_pose_eq :
  packaged_pose (Collab := cube_collab) cube = Return cube_pose.
Proof. apply returned_eq. vm_compute. reflexivity. Qed.

Lemma cube_extents_eq : extents cube_posed = Some cube_extents.
Proof. apply default_eq. vm_compute. reflexivity. Qed.

(** Witness of C7: a single triangle is sent back with the error. *)
Lemma package_rejects_open_mesh_witness :
  heap open_world !! 0%nat = Some open_mesh
  /\ is_watertight open_mesh = false
  /\ package (Collab := cube_collab) cube_config 0%nat open_world
     = (Raise (ValueError "Must have a watertight mesh to package it!"),
        open_world).
Proof.
  split; [reflexivity|]. split; [vm_compute; reflexivity|].
  apply (package_rejects_open_mesh (Collab := cube_collab)
           cube_config 0%nat open_mesh open_world);
    [reflexivity|vm_compute; reflexivity].
Defined.

(** Witness of C8: packaging the cube leaves the cube as it was. *)
Lemma package_preserves_input_witness :
  exists o w',
    heap cube_world !! 0%nat = Some cube
    /\ package (Collab := cube_collab) cube_config 0%nat cube_world = (o, w')
    /\ heap w' !! 0%nat = Some cube
    /\ (forall r0, (r0 < length (heap cube_world))%nat ->
                   heap w' !! r0 = heap cube_world !! r0)
    /\ (forall r', o = Return (Some r') ->
                   (length (heap cube_world) <= r')%nat
                   /\ is_Some (heap w' !! r')).
Proof.
  destruct (package (Collab := cube_collab) cube_config 0%nat cube_world)
    as [o w'] eqn:E.
  exists o, w'. split; [reflexivity|]. split; [reflexivity|].
  apply (package_preserves_input (Collab := cube_collab)
           cube_config 0%nat cube cube_world o w');
    [reflexivity|exact E].
Defined.

(** Witness of C9: packaging the cube makes three draws. *)
Lemma package_draws_three_samples_witness :
  exists o w',
    heap cube_world !! 0%nat = Some cube
    /\ package (Collab := cube_collab) cube_config 0%nat cube_world = (o, w')
    /\ if is_watertight cube
       then rng_pos w' = (3 + rng_pos cube_world)%nat
            /\ draw_log w' = draw_log cube_world ++ draws_of cube_config
            /\ agrees (heap cube_world) (heap w') o
                      (package_outcome (Collab := cube_collab) cube_config
                         cube (rng_pos cube_world))
       else rng_pos w' = rng_pos cube_world
            /\ draw_log w' = draw_log cube_world.
Proof.
  destruct (package (Collab := cube_collab) cube_config 0%nat cube_world)
    as [o w'] eqn:E.
  exists o, w'. split; [reflexivity|]. split; [reflexivity|].
  apply (package_draws_three_samples (Collab := cube_collab)
           cube_config 0%nat cube cube_world o w');
    [reflexivity|exact E].
Defined.

(** Witness of C10: the cube without stable poses. *)
Lemma package_without_stable_pose_witness :
  heap cube_world !! 0%nat = Some cube
  /\ is_watertight cube = true
  /\ compute_stable_poses (Collaborators := no_pose_collab) cube = []
  /\ exists w', package (Collab := no_pose_collab) cube_config 0%nat cube_world
                = (Raise BadTransform, w').
Proof.
  split; [reflexivity|]. split; [vm_compute; reflexivity|].
  split; [reflexivity|].
  apply (package_without_stable_pose (Collab := no_pose_collab)
           cube_config 0%nat cube cube_world);
    [reflexivity|vm_compute; reflexivity|reflexivity].
Defined.

(** Witness of C3: the cube against a limit of 0.5 on x. *)
Lemma package_rejects_oversized_witness :
  heap cube_world !! 0%nat = Some cube
  /\ is_watertight cube = true
  /\ packaged_pose (Collab := cube_collab) cube = Return cube_pose
  /\ extents (transform_mesh cube_pose cube) = Some cube_extents
  /\ vx (ext_limits tight_config) < vx cube_extents
  /\ (forall bw th depth,
        exists ext,
          _package (Collab := cube_collab) 0%nat bw th depth
            (offset tight_config) (ext_limits tight_config) cube_world
          = (Return None, set_heap (heap cube_world ++ ext) cube_world)
          /\ Forall (same_faces cube) ext)
  /\ exists w', package (Collab := cube_collab) tight_config 0%nat cube_world
                = (Return None, w').
Proof.
  split; [reflexivity|]. split; [vm_compute; reflexivity|].
  split; [exact cube_pose_eq|]. split; [exact cube_extents_eq|].
  split; [vm_compute; reflexivity|].
  apply (package_rejects_oversized (Collab := cube_collab)
           tight_config 0%nat cube cube_world cube_pose cube_extents);
    [reflexivity|vm_compute; reflexivity|exact cube_pose_eq
    |exact cube_extents_eq|left; vm_compute; reflexivity].
Defined.

(** Witness of C4: the scan over the six poses of the cube. *)
Lemma pose_loop_selects_lowest_witness :
  heap cube_world !! 0%nat = Some cube
  /\ vertices cube <> []
  /\ cube_poses <> []
  /\ exists i tf z w',
       pose_loop 0%nat cube_poses None None cube_world
       = (Return (Some z, Some tf), w')
       /\ cube_poses !! i = Some tf /\ z_extent cube tf z
       /\ (forall j tf' z', cube_poses !! j = Some tf' ->
                            z_extent cube tf' z' -> z <= z')
       /\ (forall j tf' z', (j < i)%nat -> cube_poses !! j = Some tf' ->
                            z_extent cube tf' z' -> z < z').
Proof.
  split; [reflexivity|]. split; [discriminate|]. split; [discriminate|].
  apply (pose_loop_selects_lowest 0%nat cube cube_world cube_poses);
    [reflexivity|discriminate|discriminate].
Defined.

(** The extents of the cube as it is loaded. *)
Definition raw_extents : vec3 := default (0, 0, 0) (extents cube).

Lemma raw_extents_eq : extents cube = Some raw_extents.
Proof. apply default_eq. vm_compute. reflexivity. Qed.

(** Witness of C5: the yaw search on the cube. *)
Lemma yaw_search_never_widens_witness :
  heap cube_world !! 0%nat = Some cube
  /\ extents cube = Some raw_extents
  /\ exists rot x w',
       yaw_loop (Collab := cube_collab) yaw_fuel 0%nat 0 eye4
         (vx raw_extents) cube_world = (Return rot, w')
       /\ x <= vx raw_extents
       /\ (forall k, theta_at k < np_pi <-> (k < 32)%nat)
       /\ (forall j x', (j < 32)%nat ->
                        x_extent cube (rot_at (Collab := cube_collab) j) x' ->
                        x <= x')
       /\ ((rot = eye4 /\ x = vx raw_extents)
           \/ exists i, (i < 32)%nat /\ rot = rot_at (Collab := cube_collab) i
                        /\ x_extent cube rot x /\ x < vx raw_extents
                        /\ forall j x', (j < i)%nat ->
                             x_extent cube (rot_at (Collab := cube_collab) j) x' ->
                             x < x')
       /\ ((forall j x', (j < 32)%nat ->
                         x_extent cube (rot_at (Collab := cube_collab) j) x' ->
                         vx raw_extents <= x') -> rot = eye4).
Proof.
  split; [reflexivity|]. split; [exact raw_extents_eq|].
  apply (yaw_search_never_widens (Collab := cube_collab)
           0%nat cube cube_world raw_extents);
    [reflexivity|exact raw_extents_eq].
Defined.

(** What is left of the box top when the triangle of the pedestal
    fills one of its corners. *)
Definition corner_top : list face := [ (3, 4, 5); (5, 2, 3) ]%Z.

(** Whether a ring point of the graph lies on the boundary of the box
    top. *)
Definition ring_on_boundary (p : PSLG) : bool :=
  match pslg_vertices p with
  | [c0; c1; c2; c3; a; b; c] =>
      existsb (fun o => Qeq_bool (fst o) (fst c0) || Qeq_bool (fst o) (fst c1)
                        || Qeq_bool (snd o) (snd c0)
                        || Qeq_bool (snd o) (snd c2))
              [a; b; c]
  | _ => false
  end.

(** The collaborators of the cube with a triangulator that looks at its
    graph: [cube_top] when the ring lies inside the box top,
    [corner_top] when a ring point lies on its boundary. *)
Definition flush_collab : Collaborators :=
  {| compute_stable_poses := fun _ => cube_poses;
     z_axis_rotation := rational_rotation;
     triangulate :=
       fun p _ => if ring_on_boundary p then corner_top else cube_top;
     rng := fun _ => 1 # 2 |}.

(** The configuration of the cube with a border width of zero. *)
Definition flush_config : Config :=
  mkConfig 0 0 (1 # 10) (1 # 10) (2 # 100) (2 # 100)
           (1 # 100) (10, 10, 10).

(** Witness of C1 (amended): the packaged cube with a border. *)
Lemma package_watertight_iff_top_face_witness :
  exists w',
    heap cube_world !! 0%nat = Some cube
    /\ is_watertight cube = true
    /\ package (Collab := flush_collab) cube_config 0%nat cube_world
       = (Return (Some 42%nat), w')
    /\ exists p m',
         package_graph (Collab := flush_collab) cube_config cube
           (rng_pos cube_world) = Some p
         /\ heap w' !! 42%nat = Some m'
         /\ faces_valid m' = true
         /\ (top_face_ok (triangulate (Collaborators := flush_collab) p "pc")
             = true -> is_watertight m' = true)
         /\ (forallb face_in_top
               (triangulate (Collaborators := flush_collab) p "pc") = true ->
             is_watertight m' = true ->
             top_face_ok (triangulate (Collaborators := flush_collab) p "pc")
             = true).
Proof.
  assert (Hfst : fst (package (Collab := flush_collab) cube_config 0%nat
                        cube_world) = Return (Some 42%nat))
    by (vm_compute; reflexivity).
  destruct (package (Collab := flush_collab) cube_config 0%nat cube_world)
    as [o w'] eqn:E.
  cbn [fst] in Hfst. subst o. exists w'.
  split; [reflexivity|]. split; [vm_compute; reflexivity|].
  split; [reflexivity|].
  apply (package_watertight_iff_top_face (Collab := flush_collab)
           cube_config 0%nat cube cube_world 42%nat w');
    [reflexivity|vm_compute; reflexivity|exact E].
Defined.

(** Counterexample to C1 as stated: with a border width of zero the
    ring of the cube's pedestal lies on the boundary of the box top, the
    triangulation is [corner_top], and [package] returns a mesh of 29
    faces that is not watertight.  With the border of [cube_config] the
    same collaborators give a watertight mesh. *)
Lemma package_open_result_counterexample :
  is_watertight cube = true
  /\ option_map ring_on_boundary
       (package_graph (Collab := flush_collab) flush_config cube 0)
     = Some true
  /\ fst (package (Collab := flush_collab) flush_config 0%nat cube_world)
     = Return (Some 42%nat)
  /\ option_map (fun m' => (length (faces m'), is_watertight m'))
       (heap (snd (package (Collab := flush_collab) flush_config 0%nat
                     cube_world)) !! 42%nat)
     = Some (29%nat, false)
  /\ option_map is_watertight
       (heap (snd (package (Collab := flush_collab) cube_config 0%nat
                     cube_world)) !! 42%nat)
     = Some true.
Proof.
  split; [vm_compute; reflexivity|]. split; [vm_compute; reflexivity|].
  split; [vm_compute; reflexivity|]. split; vm_compute; reflexivity.
Qed.

(** The pose computed for the hovering cube, with the extents and
    triangles of the cube in that pose. *)
Definition hover_pose : mat4 :=
  returned eye4 (packaged_pose (Collab := hover_collab) cube).

Definition hover_posed : Trimesh := transform_mesh hover_pose cube.

Definition hover_extents : vec3 := default (0, 0, 0) (extents hover_posed).

Definition hover_triangles : list triangle3 :=
  default [] (triangles hover_posed).

Lemma hover_pose_eq :
  packaged_pose (Collab := hover_collab) cube = Return hover_pose.
Proof. apply returned_eq. vm_compute. reflexivity. Qed.

Lemma hover_extents_eq : extents hover_posed = Some hover_extents.
Proof. apply default_eq. vm_compute. reflexivity. Qed.

Lemma hover_triangles_eq : triangles hover_posed = Some hover_triangles.
Proof. apply default_eq. vm_compute. reflexivity. Qed.

Lemma hover_no_contact : find_contact 0 hover_triangles = None.
Proof. vm_compute. reflexivity. Qed.

(** Witness of C6 (amended): the hovering cube within generous limits. *)
Lemma contact_face_first_or_fatal_witness :
  heap cube_world !! 0%nat = Some cube
  /\ is_watertight cube = true
  /\ packaged_pose (Collab := hover_collab) cube = Return hover_pose
  /\ extents (transform_mesh hover_pose cube) = Some hover_extents
  /\ any_gt hover_extents (ext_limits cube_config) = false
  /\ triangles (transform_mesh hover_pose cube) = Some hover_triangles
  /\ match find_contact 0 hover_triangles with
     | Some i =>
         (exists t, hover_triangles !! i = Some t /\ qualifies t)
         /\ forall j t', (j < i)%nat -> hover_triangles !! j = Some t' ->
                         ~ qualifies t'
     | None =>
         (forall j t, hover_triangles !! j = Some t -> ~ qualifies t)
         /\ exists ext w',
              package (Collab := hover_collab) cube_config 0%nat cube_world
              = (Raise (ValueError "Malformed mesh"), w')
              /\ heap w' = heap cube_world ++ ext
              /\ Forall (same_faces cube) ext
     end.
Proof.
  split; [reflexivity|]. split; [vm_compute; reflexivity|].
  split; [exact hover_pose_eq|]. split; [exact hover_extents_eq|].
  split; [vm_compute; reflexivity|]. split; [exact hover_triangles_eq|].
  apply (contact_face_first_or_fatal (Collab := hover_collab)
           cube_config 0%nat cube cube_world hover_pose hover_extents
           hover_triangles);
    [reflexivity|vm_compute; reflexivity|exact hover_pose_eq
    |exact hover_extents_eq|vm_compute; reflexivity|exact hover_triangles_eq].
Defined.

(** Counterexample to C6 as stated: no face of the hovering cube
    qualifies as contact face, and with a limit of 0.5 on x [package]
    returns the rejection instead of raising. *)
Lemma contact_error_counterexample :
  is_watertight cube = true
  /\ packaged_pose (Collab := hover_collab) cube = Return hover_pose
  /\ triangles (transform_mesh hover_pose cube) = Some hover_triangles
  /\ find_contact 0 hover_triangles = None
  /\ fst (package (Collab := hover_collab) tight_config 0%nat cube_world)
     = Return None.
Proof.
  split; [vm_compute; reflexivity|]. split; [exact hover_pose_eq|].
  split; [exact hover_triangles_eq|]. split; [exact hover_no_contact|].
  vm_compute. reflexivity.
Qed.

(** *** The packaged cube *)

Definition cube_bw : Q :=
  sample (Collab := cube_collab) (min_border_width_pct cube_config)
         (max_border_width_pct cube_config) 0.
Definition cube_th : Q :=
  sample (Collab := cube_collab) (min_tab_height_pct cube_config)
         (max_tab_height_pct cube_config) 1.
Definition cube_depth : Q :=
  sample (Collab := cube_collab) (min_depth cube_config)
         (max_depth cube_config) 2.

(** The assembly before it is centred, its centre of mass, and the
    mesh that [package] returns. *)
Definition cube_boxed : Trimesh :=
  returned cube
    (build (Collab := cube_collab) cube_posed cube_extents cube_bw cube_th
           cube_depth (offset cube_config)).

Definition cube_boxed_triangles : list triangle3 :=
  default [] (triangles cube_boxed).

Definition cube_cm : vec3 := center_mass_of cube_boxed_triangles.

Definition cube_packaged : Trimesh :=
  translate_mesh (- vx cube_cm, - vy cube_cm, - vz cube_cm) cube_boxed.

Lemma cube_boxed_eq :
  build (Collab := cube_collab) cube_posed cube_extents cube_bw cube_th
        cube_depth (offset cube_config) = Return cube_boxed.
Proof. apply returned_eq. vm_compute. reflexivity. Qed.

Lemma cube_boxed_triangles_eq :
  triangles cube_boxed = Some cube_boxed_triangles.
Proof. apply default_eq. vm_compute. reflexivity. Qed.

Lemma cube_within_limits :
  any_gt cube_extents (ext_limits cube_config) = false.
Proof. vm_compute. reflexivity. Qed.

Lemma cube_outcome :
  package_outcome (Collab := cube_collab) cube_config cube 0
  = Return (Some cube_packaged).
Proof.
  unfold package_outcome, packaged. rewrite cube_pose_eq. cbv zeta.
  change (transform_mesh cube_pose cube) with cube_posed.
  rewrite cube_extents_eq, cube_within_limits. unfold assemble.
  fold cube_bw cube_th cube_depth.
  rewrite cube_boxed_eq, cube_boxed_triangles_eq. reflexivity.
Qed.

Lemma cube_package_run :
  exists r' w',
    package (Collab := cube_collab) cube_config 0%nat cube_world
    = (Return (Some r'), w')
    /\ heap w' !! r' = Some cube_packaged.
Proof.
  destruct (package_run (Collab := cube_collab) cube_config 0%nat cube
              cube_world eq_refl ltac:(vm_compute; reflexivity))
    as (ext & o & Hrun & Hag & _).
  change (rng_pos cube_world) with 0%nat in Hag.
  rewrite cube_outcome in Hag. destruct Hag as (r' & -> & Hl & _).
  exists r'. eexists. split; [exact Hrun|exact Hl].
Qed.

Definition cube_packaged_extents : vec3 :=
  default (0, 0, 0) (extents cube_packaged).
Definition cube_packaged_bounds : vec3 * vec3 :=
  default ((0, 0, 0), (0, 0, 0)) (bounds cube_packaged).
Definition cube_boxed_bounds : vec3 * vec3 :=
  default ((0, 0, 0), (0, 0, 0)) (bounds cube_boxed).

Lemma cube_packaged_extents_eq :
  extents cube_packaged = Some cube_packaged_extents.
Proof. apply default_eq. vm_compute. reflexivity. Qed.

Lemma cube_packaged_bounds_eq :
  bounds cube_packaged = Some cube_packaged_bounds.
Proof. apply default_eq. vm_compute. reflexivity. Qed.

Lemma cube_boxed_bounds_eq : bounds cube_boxed = Some cube_boxed_bounds.
Proof. apply default_eq. vm_compute. reflexivity. Qed.

(** C2 (amended): for the unit cube with [ext_limits=[10,10,10]],
    [offset=0.01], depth 0.02, border and tab 0.1, [package] returns a
    watertight mesh with valid face indices whose x extent is 1.2.  The
    assembly has its lowest point at z = -0.03 before it is centred;
    the returned mesh is that assembly moved by minus its centre of
    mass, whose z coordinate is 499351/1036200, so the minimum z of the
    returned mesh is -0.03 - 499351/1036200, about -0.512. *)
Theorem cube_packaged_dimensions :
  exists r' w',
    package (Collab := cube_collab) cube_config 0%nat cube_world
    = (Return (Some r'), w')
    /\ heap w' !! r' = Some cube_packaged
    /\ is_watertight cube_packaged = true
    /\ faces_valid cube_packaged = true
    /\ extents cube_packaged = Some cube_packaged_extents
    /\ vx cube_packaged_extents == 6 # 5
    /\ build (Collab := cube_collab) cube_posed cube_extents cube_bw cube_th
             cube_depth (offset cube_config) = Return cube_boxed
    /\ bounds cube_boxed = Some cube_boxed_bounds
    /\ vz (fst cube_boxed_bounds) == - (3 # 100)
    /\ cube_packaged
       = translate_mesh (- vx cube_cm, - vy cube_cm, - vz cube_cm) cube_boxed
    /\ vz cube_cm == 499351 # 1036200
    /\ bounds cube_packaged = Some cube_packaged_bounds
    /\ vz (fst cube_packaged_bounds) == - (3 # 100) - vz cube_cm.
Proof.
  destruct cube_package_run as (r' & w' & Hrun & Hl).
  exists r', w'. split; [exact Hrun|]. split; [exact Hl|].
  split; [vm_compute; reflexivity|]. split; [vm_compute; reflexivity|].
  split; [exact cube_packaged_extents_eq|].
  split; [apply Qeq_bool_eq; vm_compute; reflexivity|].
  split; [exact cube_boxed_eq|]. split; [exact cube_boxed_bounds_eq|].
  split; [apply Qeq_bool_eq; vm_compute; reflexivity|].
  split; [reflexivity|].
  split; [apply Qeq_bool_eq; vm_compute; reflexivity|].
  split; [exact cube_packaged_bounds_eq|].
  apply Qeq_bool_eq. vm_compute. reflexivity.
Qed.

(** Counterexample to C2 as stated: the minimum z of the mesh returned
    for the cube is below -0.5, far from -0.03. *)
Lemma cube_min_z_counterexample :
  exists r' w' m' lo hi,
    package (Collab := cube_collab) cube_config 0%nat cube_world
    = (Return (Some r'), w')
    /\ heap w' !! r' = Some m'
    /\ bounds m' = Some (lo, hi)
    /\ vz lo < - (1 # 2).
Proof.
  destruct cube_package_run as (r' & w' & Hrun & Hl).
  exists r', w', cube_packaged, (fst cube_packaged_bounds),
    (snd cube_packaged_bounds).
  split; [exact Hrun|]. split; [exact Hl|].
  split; [rewrite <- surjective_pairing; exact cube_packaged_bounds_eq|].
  apply Qlt_bool_iff. vm_compute. reflexivity.
Qed.

End Cube.

(** ** Further properties of the packager *)

Section Verdicts.
Context `{Collab : Collaborators}.

Lemma build_returns_mesh posed e bw th depth off :
  assemble posed e bw th depth off <> Return None.
Proof.
  unfold assemble.
  destruct (build posed e bw th depth off) as [boxed|]; [|discriminate].
  destruct (triangles boxed); discriminate.
Qed.

Lemma any_gt_cases e l :
  any_gt e l = true -> vx l < vx e \/ vy l < vy e \/ vz l < vz e.
Proof.
  unfold any_gt. rewrite !orb_true_iff, !Qlt_bool_iff. tauto.
Qed.

Lemma agrees_none old h o p : agrees old h o p -> o = Return None -> p = Return None.
Proof.
  unfold agrees. destruct p as [[m'|]|e]; intros H ->.
  - destruct H as (r & H & _). discriminate.
  - reflexivity.
  - discriminate.
Qed.

(** X1: the rejection value has one cause.  When [package] returns
    [None] the mesh was posed and the posed mesh exceeds [ext_limits]
    on some axis. *)
Theorem package_none_means_oversized config r m w w' :
  heap w !! r = Some m ->
  package config r w = (Return None, w') ->
  exists pose e,
    packaged_pose m = Return pose
    /\ extents (transform_mesh pose m) = Some e
    /\ (vx (ext_limits config) < vx e \/ vy (ext_limits config) < vy e
        \/ vz (ext_limits config) < vz e).
Proof.
  intros Hr Hrun. destruct (is_watertight m) eqn:Hw.
  2:{ rewrite (package_run_not_watertight config r m w Hr Hw) in Hrun.
      discriminate. }
  destruct (package_run config r m w Hr Hw) as (ext & o & Hp & Hag & _).
  rewrite Hp in Hrun. injection Hrun as -> _.
  apply agrees_none in Hag; [|reflexivity].
  unfold package_outcome, packaged in Hag.
  destruct (packaged_pose m) as [pose|] eqn:Hpose; [|discriminate].
  cbv zeta in Hag.
  destruct (extents (transform_mesh pose m)) as [e|] eqn:He; [|discriminate].
  destruct (any_gt e (ext_limits config)) eqn:Hgt.
  - exists pose, e. split; [reflexivity|]. split; [exact He|].
    apply any_gt_cases. exact Hgt.
  - exfalso. exact (build_returns_mesh _ _ _ _ _ _ Hag).
Qed.

Lemma np_index_is_some {A} (l : list A) i :
  (- Z.of_nat (length l) <= i < Z.of_nat (length l))%Z ->
  is_Some (np_index l i).
Proof.
  intros Hi. unfold np_index. destruct (Z.leb_spec 0 i) as [H0|H0].
  - apply lookup_lt_is_Some. lia.
  - destruct (Z.leb_spec (- Z.of_nat (length l)) i); [|lia].
    apply lookup_lt_is_Some. lia.
Qed.

(** [mesh.triangles] is defined exactly when every face index is in the
    range numpy accepts. *)
Lemma triangles_is_some m :
  Forall (face_all (fun v => - Z.of_nat (length (vertices m)) <= v
                             < Z.of_nat (length (vertices m)))%Z) (faces m) ->
  is_Some (triangles m).
Proof.
  intros H. unfold triangles. apply mapM_is_Some.
  apply (Forall_impl _ _ _ H). intros [[a b] c] (Ha & Hb & Hc).
  unfold compose, face_triangle.
  destruct (np_index_is_some (vertices m) a Ha) as [p ->].
  destruct (np_index_is_some (vertices m) b Hb) as [q ->].
  destruct (np_index_is_some (vertices m) c Hc) as [r0 ->].
  eexists. reflexivity.
Qed.

Lemma triangles_transform T m :
  is_Some (triangles m) -> is_Some (triangles (transform_mesh T m)).
Proof.
  intros [ts Hts]. apply triangles_is_some.
  unfold transform_mesh. cbn [vertices faces]. rewrite length_map.
  exact (triangles_range m ts Hts).
Qed.

Lemma packaged_pose_returns m :
  vertices m <> [] -> compute_stable_poses m <> [] ->
  exists pose, packaged_pose m = Return pose.
Proof.
  intros Hne Hposes. unfold packaged_pose.
  destruct (pose_select_lowest m _ Hne Hposes)
    as (i & tf & z & -> & _).
  cbv zeta.
  assert (Hne' : vertices (transform_mesh tf m) <> []).
  { unfold transform_mesh. cbn [vertices].
    destruct (vertices m); [contradiction|discriminate]. }
  destruct (extents_transform tf m Hne) as [e ->].
  destruct (yaw_select_running (transform_mesh tf m) 32 0 eye4 (vx e)
              eq_refl Hne') as (rot & x & Hsel & _).
  change (theta_at 0) with 0 in Hsel. unfold yaw_fuel. rewrite Hsel.
  eexists. reflexivity.
Qed.

Lemma find_contact_bound ts i :
  find_contact 0 ts = Some i -> (i < length ts)%nat.
Proof.
  intros H. destruct (find_contact_is_contact ts i H) as (t & Ht & _).
  apply lookup_lt_Some in Ht. exact Ht.
Qed.

Lemma assemble_total posed e bw th depth off :
  (forall p, graph_of posed e bw th = Some p ->
             forallb face_in_top (triangulate p "pc") = true) ->
  is_Some (bounds posed) ->
  is_Some (triangles posed) ->
  assemble posed e bw th depth off = Raise (ValueError "Malformed mesh")
  \/ exists m', assemble posed e bw th depth off = Return (Some m').
Proof.
  intros Htri [[bl bu] Hb] [ts Hts].
  remember (assemble posed e bw th depth off) as A eqn:HA.
  unfold assemble, build in HA. rewrite Hb, Hts in HA.
  destruct (find_contact 0 ts) as [i|] eqn:Hfind; [|left; exact HA].
  right. pose proof (find_contact_bound ts i Hfind) as Hi.
  assert (Hlen : length (faces posed) = length ts).
  { unfold triangles in Hts. exact (length_mapM _ _ _ Hts). }
  destruct (lookup_lt_is_Some_2 (faces posed) i ltac:(lia)) as [[[a b] c] Hf].
  destruct (lookup_lt_is_Some_2 ts i Hi) as [[[p q] r0] Ht].
  unfold create_extrusion in HA.
  change (@lookup nat (Z * Z * Z)%type (list face) (@list_lookup face) i
            (faces posed)) with (faces posed !! i) in HA.
  change (@lookup nat (vec3 * vec3 * vec3)%type (list triangle3)
            (@list_lookup triangle3) i ts) with (ts !! i) in HA.
  rewrite Hf, Ht in HA.
  unfold create_base in HA. cbn [vertices faces] in HA.
  rewrite length_app in HA. cbn [length] in HA.
  replace (length (vertices posed) + 3 - 3)%nat
    with (length (vertices posed)) in HA by lia.
  rewrite drop_app_length in HA. cbn [fst snd] in HA.
  rewrite remap_faces in HA.
  match type of HA with
  | context [triangulate ?P "pc"] => set (plsg := P) in HA
  end.
  assert (Hg : graph_of posed e bw th = Some plsg).
  { unfold graph_of. rewrite Hb, Hts, Hfind.
    change (@lookup nat (vec3 * vec3 * vec3)%type (list triangle3)
              (@list_lookup triangle3) i ts) with (ts !! i).
    rewrite Ht. reflexivity. }
  pose proof (faces_in_top_range _ (Htri plsg Hg)) as Hok.
  match type of HA with
  | context [triangles ?B] => set (boxed := B) in HA
  end.
  assert (Hsome : is_Some (triangles boxed)).
  { apply triangles_is_some. subst boxed. cbn [vertices faces].
    rewrite !length_app. cbn [length].
    replace (Z.of_nat (length (vertices posed) + 3 + 8))
      with (Z.of_nat (length (vertices posed)) + 11)%Z by lia.
    rewrite Nat2Z.inj_add.
    apply (assembly_in_range (faces posed)
             (Z.of_nat (length (vertices posed)))
             i a b c (triangulate plsg "pc")); try assumption; [lia|].
    exact (triangles_range posed ts Hts). }
  destruct Hsome as [ts' Hts']. rewrite Hts' in HA. eexists. exact HA.
Qed.

(** X2: on a watertight mesh with valid face indices, at least one
    vertex and at least one stable pose, and when the triangulation of
    the graph of the call uses no index beyond the seven points of the
    graph, [package] ends in one of three ways: it returns a mesh, it
    returns the rejection, or it raises [ValueError "Malformed mesh"].
    In particular the yaw loop never runs out of fuel and no index or
    transform error occurs. *)
Theorem package_three_outcomes config r m w o w' :
  heap w !! r = Some m ->
  is_watertight m = true ->
  is_Some (triangles m) ->
  vertices m <> [] ->
  compute_stable_poses m <> [] ->
  (forall p, package_graph config m (rng_pos w) = Some p ->
             forallb face_in_top (triangulate p "pc") = true) ->
  package config r w = (o, w') ->
  (exists r', o = Return (Some r')) \/ o = Return None
  \/ o = Raise (ValueError "Malformed mesh").
Proof.
  intros Hr Hw Hts Hne Hposes Htri Hrun.
  destruct (package_run config r m w Hr Hw) as (ext & o1 & Hp & Hag & _).
  rewrite Hp in Hrun. injection Hrun as <- _.
  unfold package_outcome, packaged in Hag. unfold package_graph in Htri.
  destruct (packaged_pose_returns m Hne Hposes) as [pose Hpose].
  rewrite Hpose in Hag, Htri. cbv zeta in Hag, Htri.
  destruct (extents_transform pose m Hne) as [e He].
  rewrite He in Hag, Htri.
  destruct (any_gt e (ext_limits config)).
  { right. left. exact Hag. }
  destruct (extents_bounds _ _ He) as (bl & bu & Hb).
  destruct (assemble_total (transform_mesh pose m) e
              (sample (min_border_width_pct config)
                      (max_border_width_pct config) (rng_pos w))
              (sample (min_tab_height_pct config)
                      (max_tab_height_pct config) (S (rng_pos w)))
              (sample (min_depth config) (max_depth config)
                      (S (S (rng_pos w))))
              (offset config) Htri
              ltac:(rewrite Hb; eexists; reflexivity)
              (triangles_transform pose m Hts)) as [Hm|[m' Hm']].
  - rewrite Hm in Hag. right. right. exact Hag.
  - rewrite Hm' in Hag. destruct Hag as (r' & -> & _). left. eexists.
    reflexivity.
Qed.

End Verdicts.

(** ** The pose is the rotation after the stable pose *)

Section PoseComposition.
Context `{Collab : Collaborators}.

(** A transform whose last row is [0 0 0 1]. *)
Definition affine (T : mat4) : Prop := snd T = (0, 0, 0, 1).

(** Equality of points as rational numbers. *)
Definition veq (u v : vec3) : Prop :=
  vx u == vx v /\ vy u == vy v /\ vz u == vz v.

Lemma transform_point_dot A B v :
  affine B ->
  veq (transform_point (mat4_dot A B) v)
      (transform_point A (transform_point B v)).
Proof.
  destruct A as [[[[[[a00 a01] a02] a03] [[[a10 a11] a12] a13]]
                    [[[a20 a21] a22] a23]] [[[a30 a31] a32] a33]].
  destruct B as [[[[[[b00 b01] b02] b03] [[[b10 b11] b12] b13]]
                    [[[b20 b21] b22] b23]] b3].
  destruct v as [[x y] z]. unfold affine. cbn [snd]. intros ->.
  unfold veq, transform_point, mat4_dot, dot4, col, vx, vy, vz.
  cbn [fst snd]. repeat split; ring.
Qed.

Lemma pose_select_member m tfs : forall z0 t0 z tf,
  pose_select m tfs z0 t0 = Return (z, Some tf) ->
  t0 = Some tf \/ tf ∈ tfs.
Proof.
  induction tfs as [|t rest IH]; intros z0 t0 z tf H.
  - cbn in H. injection H as _ ->. left. reflexivity.
  - cbn [pose_select] in H.
    destruct (extents (transform_mesh t m)) as [e|]; [|discriminate].
    destruct (lt_inf (vz e) z0).
    + destruct (IH _ _ _ _ H) as [Heq|Hin].
      * injection Heq as ->. right. left.
      * right. right. exact Hin.
    + destruct (IH _ _ _ _ H) as [Heq|Hin]; [left; exact Heq|].
      right. right. exact Hin.
Qed.

(** X3: the pose that [_get_packaged_pose] returns is the product of a
    yaw rotation, the identity or one of the 32 sampled rotations, with
    one of the enumerated stable poses; when that stable pose is affine,
    applying the returned pose to a point is applying the stable pose
    first and the rotation second. *)
Theorem packaged_pose_is_rotation_after_pose r m w P w' :
  heap w !! r = Some m ->
  _get_packaged_pose r w = (Return P, w') ->
  exists tf rot,
    tf ∈ compute_stable_poses m
    /\ (rot = eye4 \/ exists k, (k < 32)%nat /\ rot = rot_at k)
    /\ P = mat4_dot rot tf
    /\ (affine tf ->
        forall v, veq (transform_point P v)
                      (transform_point rot (transform_point tf v))).
Proof.
  intros Hr Hrun.
  destruct (_get_packaged_pose_run r m w Hr) as (ext & Hp & _).
  rewrite Hp in Hrun. injection Hrun as Hpose _.
  unfold packaged_pose in Hpose.
  destruct (pose_select m (compute_stable_poses m) None None)
    as [[mz [tf|]]|] eqn:Hsel; [|discriminate..].
  cbv zeta in Hpose.
  destruct (extents (transform_mesh tf m)) as [e|] eqn:He; [|discriminate].
  assert (Hne : vertices (transform_mesh tf m) <> []).
  { intros Hnil. unfold extents, bounds in He. rewrite Hnil in He.
    discriminate. }
  destruct (yaw_select_running (transform_mesh tf m) 32 0 eye4 (vx e)
              eq_refl Hne) as (rot & x & Hyaw & _ & _ & Hwho).
  change (theta_at 0) with 0 in Hyaw. unfold yaw_fuel in Hpose.
  rewrite Hyaw in Hpose. injection Hpose as <-.
  exists tf, rot. split.
  { destruct (pose_select_member _ _ _ _ _ _ Hsel) as [H|H];
      [discriminate|exact H]. }
  split.
  { destruct Hwho as [[-> _]|(k & Hk & -> & _)]; [left; reflexivity|].
    right. exists k. split; [lia|reflexivity]. }
  split; [reflexivity|].
  intros Haff v. apply transform_point_dot. exact Haff.
Qed.

End PoseComposition.

(** ** The index arithmetic of the top face *)

Section Remap.
Local Open Scope Z_scope.

(** X5: the three in-place replacements of "Compute top faces" followed
    by the shift do not interfere: together they send 4, 5, 6 to the
    last three vertices before [vo] and every other index [x] to
    [x + vo], so the box corners 0..3 land on the first four new
    vertices; on the triangulation's own points 0..6 the renaming is
    injective and stays within [vo - 3, vo + 3]. *)
Theorem top_face_indices_remapped vo (T : list face) :
  map (shift_face vo)
    (map (replace_index 6 (vo - 1 - vo))
       (map (replace_index 5 (vo - 2 - vo))
          (map (replace_index 4 (vo - 3 - vo)) T)))
  = map (map_face (remap vo)) T
  /\ remap vo 4 = vo - 3 /\ remap vo 5 = vo - 2 /\ remap vo 6 = vo - 1
  /\ (forall x, x <> 4 -> x <> 5 -> x <> 6 -> remap vo x = x + vo)
  /\ (forall x y, 0 <= x <= 6 -> 0 <= y <= 6 ->
                  remap vo x = remap vo y -> x = y)
  /\ (forall x, 0 <= x <= 6 -> vo - 3 <= remap vo x <= vo + 3).
Proof.
  split; [apply remap_faces|]. split; [reflexivity|].
  split; [reflexivity|]. split; [reflexivity|]. split.
  - intros x H4 H5 H6. unfold remap.
    destruct (Z.eqb_spec x 4); [contradiction|].
    destruct (Z.eqb_spec x 5); [contradiction|].
    destruct (Z.eqb_spec x 6); [contradiction|]. reflexivity.
  - split; [apply remap_inj|apply remap_range].
Qed.

End Remap.

(** ** The extruded mesh is open along the rim of the pedestal *)

Section Extrusion.
Context `{Collab : Collaborators}.
Local Open Scope Z_scope.

Definition pedestal_rim (n : Z) : list edge :=
  [(n, n + 1); (n + 1, n + 2); (n, n + 2)].

Lemma wall_rim_count j k :
  0 <= j -> j <= k -> k <= 2 ->
  edge_count (j, k) wall_rim
  = if (j <? k) then 1%nat else 0%nat.
Proof.
  intros H0 Hjk H2.
  assert (Hj : j = 0 \/ j = 1 \/ j = 2) by lia.
  assert (Hk : k = 0 \/ k = 1 \/ k = 2) by lia.
  destruct Hj as [-> | [-> | ->]], Hk as [-> | [-> | ->]]; try lia;
    vm_compute; reflexivity.
Qed.

(** X4: "Create the extrusion" on a watertight mesh keeps the vertices,
    adds three, and leaves a surface whose only open edges are the three
    edges between the new vertices: these occur in one face each, every
    other edge occurs in two faces or in none. *)
Theorem extrusion_open_at_rim m ts i zu extruded :
  is_watertight m = true ->
  triangles m = Some ts ->
  find_contact 0 ts = Some i ->
  create_extrusion m ts i zu = Some extruded ->
  take (length (vertices m)) (vertices extruded) = vertices m
  /\ length (vertices extruded) = (length (vertices m) + 3)%nat
  /\ length (faces extruded) = (length (faces m) + 5)%nat
  /\ forall e,
       (e ∈ pedestal_rim (Z.of_nat (length (vertices m))) ->
        edge_count e (edges_sorted (faces extruded)) = 1%nat)
       /\ (e ∉ pedestal_rim (Z.of_nat (length (vertices m))) ->
           edge_count e (edges_sorted (faces extruded)) = 0%nat
           \/ edge_count e (edges_sorted (faces extruded)) = 2%nat).
Proof.
  intros Hw Hts Hfind Hex. unfold create_extrusion in Hex.
  destruct (faces m !! i) as [[[a b] c]|] eqn:Hf; [|discriminate].
  destruct (ts !! i) as [[[p q] r0]|] eqn:Ht; [|discriminate].
  injection Hex as <-. cbn [vertices faces].
  set (n := Z.of_nat (length (vertices m))).
  fold (side_faces a b c n).
  pose proof (triangles_range m ts Hts) as Hrange. fold n in Hrange.
  destruct (find_contact_is_contact ts i Hfind) as (t' & Ht' & Hcontact).
  assert (Heq : Some t' = Some (p, q, r0)) by (rewrite <- Ht'; exact Ht).
  injection Heq as ->.
  pose proof (triangles_lookup m ts i _ _ Hts Hf Ht) as Hft.
  destruct (contact_face_distinct _ _ _ _ _ Hft Hcontact) as (Hab & Hbc & Hca).
  assert (Habc : face_all (fun v => - n <= v < n) (a, b, c)).
  { rewrite Forall_forall in Hrange. apply Hrange.
    apply list_elem_of_lookup. exists i. exact Hf. }
  destruct Habc as (Ha & Hb & Hc).
  pose proof (lookup_lt_Some _ _ _ Hf) as Hi.
  split; [apply take_app_length|].
  split; [rewrite length_app; reflexivity|].
  split.
  { rewrite length_delete by
      (apply lookup_lt_is_Some; rewrite length_app; unfold side_faces;
       cbn [length]; unfold face in *; lia).
    rewrite length_app. unfold side_faces. cbn [length].
    unfold face in *. lia. }
  apply is_watertight_closed in Hw.
  intros [x y]. rewrite delete_app_l by exact Hi.
  rewrite edges_sorted_app, edge_count_app.
  pose proof (edge_count_delete (faces m) i _ (x, y) Hf) as Hdel.
  unfold pedestal_rim. rewrite !elem_of_cons, elem_of_nil.
  destruct (Z_lt_dec x n) as [Hx|Hx].
  - assert (Hnot : ~ ((x, y) = (n, n + 1) \/ (x, y) = (n + 1, n + 2)
                      \/ (x, y) = (n, n + 2) \/ False)).
    { intros [H|[H|[H|H]]]; [injection H as H1 H2; lia..|destruct H]. }
    split; [intros H; contradiction|]. intros _.
    destruct (Z_lt_dec y n) as [Hy|Hy].
    + rewrite side_count_old by lia. destruct (Hw (x, y)); lia.
    + rewrite (edge_count_outside _ (faces m) (x, y) Hrange) in Hdel
        by (cbn [fst snd]; lia).
      destruct (side_count_mixed n a b c x y) as [H|H]; try lia;
        rewrite H; lia.
  - rewrite (edge_count_outside _ (faces m) (x, y) Hrange) in Hdel
      by (cbn [fst snd]; lia).
    rewrite side_count_new by lia.
    assert (Hd : edge_count (x, y) (edges_sorted (delete i (faces m))) = 0%nat)
      by lia.
    rewrite Hd. cbn [Nat.add].
    destruct (Z_lt_dec (x - n) 0) as [H0|H0]; [lia|].
    destruct (Z_le_dec (x - n) (y - n)) as [Hle|Hle].
    2:{ rewrite wall_rim_outside by lia. split; [|auto].
        intros [H|[H|[H|H]]]; [injection H as H1 H2; lia..|destruct H]. }
    destruct (Z_le_dec (y - n) 2) as [H2|H2].
    2:{ rewrite wall_rim_outside by lia. split; [|auto].
        intros [H|[H|[H|H]]]; [injection H as H1 H2'; lia..|destruct H]. }
    rewrite wall_rim_count by lia.
    destruct (Z.ltb_spec (x - n) (y - n)) as [Hlt|Hge].
    + split; [reflexivity|]. intros Hnot. exfalso. apply Hnot.
      assert (Hc3 : (x = n /\ y = n + 1) \/ (x = n + 1 /\ y = n + 2)
                    \/ (x = n /\ y = n + 2)) by lia.
      destruct Hc3 as [[-> ->] | [[-> ->] | [-> ->]]]; auto.
    + split; [|auto].
      intros [H|[H|[H|H]]]; [injection H as H1 H2'; lia..|destruct H].
Qed.

End Extrusion.

(** ** Bounding boxes *)

Section Bounds.

(** [b] is the least value of the coordinate [f] over [l]. *)
Definition least (f : vec3 -> Q) (b : Q) (l : list vec3) : Prop :=
  (forall v, v ∈ l -> b <= f v) /\ exists v, v ∈ l /\ f v == b.

(** [b] is the greatest value of the coordinate [f] over [l]. *)
Definition greatest (f : vec3 -> Q) (b : Q) (l : list vec3) : Prop :=
  (forall v, v ∈ l -> f v <= b) /\ exists v, v ∈ l /\ f v == b.

Lemma least_unique f b b' l : least f b l -> least f b' l -> b == b'.
Proof.
  intros [Hlo (v & Hv & Hb)] [Hlo' (v' & Hv' & Hb')].
  pose proof (Hlo v' Hv'). pose proof (Hlo' v Hv). lra.
Qed.

Lemma greatest_unique f b b' l :
  greatest f b l -> greatest f b' l -> b == b'.
Proof.
  intros [Hhi (v & Hv & Hb)] [Hhi' (v' & Hv' & Hb')].
  pose proof (Hhi v' Hv'). pose proof (Hhi' v Hv). lra.
Qed.

Lemma foldl_min_least (f : vec3 -> Q) :
  (forall u v, f (vmin u v) = Qmin (f u) (f v)) ->
  forall l a, least f (f (foldl vmin a l)) (a :: l).
Proof.
  intros Hf. induction l as [|x l IH]; intros a.
  - cbn. split.
    + intros v Hv. apply list_elem_of_singleton in Hv. subst v. lra.
    + exists a. split; [left|reflexivity].
  - cbn [foldl]. destruct (IH (vmin a x)) as [Hlo (v & Hv & Hb)].
    pose proof (Hlo (vmin a x) ltac:(left)) as Hax. rewrite Hf in Hax.
    pose proof (Q.le_min_l (f a) (f x)). pose proof (Q.le_min_r (f a) (f x)).
    split.
    + intros u Hu. apply elem_of_cons in Hu. destruct Hu as [->|Hu]; [lra|].
      apply elem_of_cons in Hu. destruct Hu as [->|Hu]; [lra|].
      apply Hlo. right. exact Hu.
    + apply elem_of_cons in Hv. destruct Hv as [->|Hv].
      * rewrite Hf in Hb.
        destruct (Q.min_spec (f a) (f x)) as [[_ Hm]|[_ Hm]].
        -- exists a. split; [left|lra].
        -- exists x. split; [right; left|lra].
      * exists v. split; [right; right; exact Hv|exact Hb].
Qed.

Lemma foldl_max_greatest (f : vec3 -> Q) :
  (forall u v, f (vmax u v) = Qmax (f u) (f v)) ->
  forall l a, greatest f (f (foldl vmax a l)) (a :: l).
Proof.
  intros Hf. induction l as [|x l IH]; intros a.
  - cbn. split.
    + intros v Hv. apply list_elem_of_singleton in Hv. subst v. lra.
    + exists a. split; [left|reflexivity].
  - cbn [foldl]. destruct (IH (vmax a x)) as [Hhi (v & Hv & Hb)].
    pose proof (Hhi (vmax a x) ltac:(left)) as Hax. rewrite Hf in Hax.
    pose proof (Q.le_max_l (f a) (f x)). pose proof (Q.le_max_r (f a) (f x)).
    split.
    + intros u Hu. apply elem_of_cons in Hu. destruct Hu as [->|Hu]; [lra|].
      apply elem_of_cons in Hu. destruct Hu as [->|Hu]; [lra|].
      apply Hhi. right. exact Hu.
    + apply elem_of_cons in Hv. destruct Hv as [->|Hv].
      * rewrite Hf in Hb.
        destruct (Q.max_spec (f a) (f x)) as [[_ Hm]|[_ Hm]].
        -- exists x. split; [right; left|lra].
        -- exists a. split; [left|lra].
      * exists v. split; [right; right; exact Hv|exact Hb].
Qed.

(** [mesh.bounds] holds, on each axis, the least and the greatest
    coordinate of the vertices. *)
Lemma bounds_least_greatest m lo hi :
  bounds m = Some (lo, hi) ->
  least vx (vx lo) (vertices m) /\ greatest vx (vx hi) (vertices m)
  /\ least vy (vy lo) (vertices m) /\ greatest vy (vy hi) (vertices m)
  /\ least vz (vz lo) (vertices m) /\ greatest vz (vz hi) (vertices m).
Proof.
  unfold bounds. destruct (vertices m) as [|a l]; [discriminate|].
  intros H. injection H as <- <-.
  split; [apply (foldl_min_least vx ltac:(reflexivity) l a)|].
  split; [apply (foldl_max_greatest vx ltac:(reflexivity) l a)|].
  split; [apply (foldl_min_least vy ltac:(reflexivity) l a)|].
  split; [apply (foldl_max_greatest vy ltac:(reflexivity) l a)|].
  split; [apply (foldl_min_least vz ltac:(reflexivity) l a)|].
  apply (foldl_max_greatest vz ltac:(reflexivity) l a).
Qed.

End Bounds.

(** ** The footprint and the height of the package *)

Section Footprint.
Context `{Collab : Collaborators}.

Lemma np_index_elem {A} (l : list A) i x : np_index l i = Some x -> x ∈ l.
Proof.
  unfold np_index. destruct (0 <=? i)%Z.
  - apply list_elem_of_lookup_2.
  - destruct (_ <=? _)%Z; [apply list_elem_of_lookup_2|discriminate].
Qed.

(** The vertices that "Create the extrusion" adds below the contact
    triangle [(p, q, r)]. *)
Definition pedestal_vertices (p q r : vec3) (zu : Q) : list vec3 :=
  [(vx p, vy p, zu); (vx q, vy q, zu); (vx r, vy r, zu)].

(** The [new_vertices] of "Now, create the base". *)
Definition box_vertices (xl xu yl yu zl zu : Q) : list vec3 :=
  [ (xl, yl, zu); (xu, yl, zu); (xu, yu, zu); (xl, yu, zu);
    (xl, yl, zl); (xu, yl, zl); (xu, yu, zl); (xl, yu, zl) ].

Definition tolerance : Q := 1 # 1000000000000.

Lemma touches_ground_cases p q r :
  touches_ground (p, q, r) = true ->
  Qabs (vz p) < tolerance \/ Qabs (vz q) < tolerance
  \/ Qabs (vz r) < tolerance.
Proof.
  unfold touches_ground, tolerance.
  rewrite !orb_true_iff, !Qlt_bool_iff. tauto.
Qed.

Lemma build_vertices posed e bw th depth off boxed :
  build posed e bw th depth off = Return boxed ->
  exists bl bu p q r,
    bounds posed = Some (bl, bu)
    /\ p ∈ vertices posed /\ q ∈ vertices posed /\ r ∈ vertices posed
    /\ touches_ground (p, q, r) = true
    /\ vertices boxed
       = vertices posed ++ pedestal_vertices p q r (- off)
         ++ box_vertices (vx bl - bw * vx e) (vx bu + bw * vx e)
              (vy bl - bw * vx e) (vy bu + bw * vx e + th * vy e)
              (- off - depth) (- off).
Proof.
  unfold build.
  destruct (bounds posed) as [[bl bu]|]; [|discriminate].
  destruct (triangles posed) as [ts|] eqn:Hts; [|discriminate].
  destruct (find_contact 0 ts) as [i|] eqn:Hfind; [|discriminate].
  unfold create_extrusion.
  destruct (faces posed !! i) as [[[a b] c]|] eqn:Hf; [|discriminate].
  destruct (ts !! i) as [[[p q] r0]|] eqn:Ht; [|discriminate].
  unfold create_base. cbn [vertices faces].
  rewrite length_app. cbn [length].
  replace (length (vertices posed) + 3 - 3)%nat
    with (length (vertices posed)) by lia.
  rewrite drop_app_length.
  intros H. injection H as <-.
  exists bl, bu, p, q, r0. split; [reflexivity|].
  pose proof (triangles_lookup posed ts i _ _ Hts Hf Ht) as Hft.
  unfold face_triangle in Hft.
  destruct (np_index (vertices posed) a) as [p'|] eqn:Ea; [|discriminate].
  destruct (np_index (vertices posed) b) as [q'|] eqn:Eb; [|discriminate].
  destruct (np_index (vertices posed) c) as [r'|] eqn:Ec; [|discriminate].
  injection Hft as -> -> ->.
  split; [exact (np_index_elem _ _ _ Ea)|].
  split; [exact (np_index_elem _ _ _ Eb)|].
  split; [exact (np_index_elem _ _ _ Ec)|].
  split.
  - destruct (find_contact_is_contact ts i Hfind) as (t & Ht' & Hc).
    assert (Heq : Some t = Some (p, q, r0)) by (rewrite <- Ht'; exact Ht).
    injection Heq as ->. unfold is_contact in Hc.
    apply andb_true_iff in Hc. apply Hc.
  - cbn [vertices]. rewrite <- app_assoc. reflexivity.
Qed.

Lemma bounds_is_some m :
  vertices m <> [] -> exists lo hi, bounds m = Some (lo, hi).
Proof.
  unfold bounds. destruct (vertices m); [congruence|]. intros _.
  eexists _, _. reflexivity.
Qed.

Lemma least_translate (f : vec3 -> Q) t b l :
  (forall v, f (vx v + vx t, vy v + vy t, vz v + vz t) = f v + f t) ->
  least f b l ->
  least f (b + f t)
    (map (fun v => (vx v + vx t, vy v + vy t, vz v + vz t)) l).
Proof.
  intros Hf [Hlo (v & Hv & Hb)]. split.
  - intros u Hu. apply list_elem_of_fmap in Hu. destruct Hu as (u' & -> & Hu').
    rewrite Hf. pose proof (Hlo u' Hu'). lra.
  - exists (vx v + vx t, vy v + vy t, vz v + vz t). split.
    + apply list_elem_of_fmap. exists v. split; [reflexivity|exact Hv].
    + rewrite Hf. lra.
Qed.

Lemma greatest_translate (f : vec3 -> Q) t b l :
  (forall v, f (vx v + vx t, vy v + vy t, vz v + vz t) = f v + f t) ->
  greatest f b l ->
  greatest f (b + f t)
    (map (fun v => (vx v + vx t, vy v + vy t, vz v + vz t)) l).
Proof.
  intros Hf [Hhi (v & Hv & Hb)]. split.
  - intros u Hu. apply list_elem_of_fmap in Hu. destruct Hu as (u' & -> & Hu').
    rewrite Hf. pose proof (Hhi u' Hu'). lra.
  - exists (vx v + vx t, vy v + vy t, vz v + vz t). split.
    + apply list_elem_of_fmap. exists v. split; [reflexivity|exact Hv].
    + rewrite Hf. lra.
Qed.

(** [apply_translation] moves the bounding box along and keeps the
    extents. *)
Lemma translate_bounds t m lo hi :
  bounds m = Some (lo, hi) ->
  exists lo' hi',
    bounds (translate_mesh t m) = Some (lo', hi')
    /\ veq lo' (vadd lo t) /\ veq hi' (vadd hi t).
Proof.
  intros Hb.
  destruct (bounds_is_some (translate_mesh t m)) as (lo' & hi' & Hb').
  { unfold translate_mesh, bounds in *. cbn [vertices].
    destruct (vertices m); [discriminate|]. discriminate. }
  exists lo', hi'. split; [exact Hb'|].
  destruct (bounds_least_greatest _ _ _ Hb)
    as (Hx & HX & Hy & HY & Hz & HZ).
  destruct (bounds_least_greatest _ _ _ Hb')
    as (Hx' & HX' & Hy' & HY' & Hz' & HZ').
  cbn [translate_mesh vertices] in *.
  unfold veq, vadd. cbn [vx vy vz fst snd].
  split; (split; [|split]).
  - apply (least_unique vx _ _ _ Hx').
    apply (least_translate vx t); [reflexivity|exact Hx].
  - apply (least_unique vy _ _ _ Hy').
    apply (least_translate vy t); [reflexivity|exact Hy].
  - apply (least_unique vz _ _ _ Hz').
    apply (least_translate vz t); [reflexivity|exact Hz].
  - apply (greatest_unique vx _ _ _ HX').
    apply (greatest_translate vx t); [reflexivity|exact HX].
  - apply (greatest_unique vy _ _ _ HY').
    apply (greatest_translate vy t); [reflexivity|exact HY].
  - apply (greatest_unique vz _ _ _ HZ').
    apply (greatest_translate vz t); [reflexivity|exact HZ].
Qed.

Ltac box_cases Hv :=
  unfold pedestal_vertices, box_vertices in Hv; cbn [app] in Hv;
  repeat (apply elem_of_cons in Hv; destruct Hv as [-> | Hv]);
  [cbn [vx vy vz fst snd]; lra .. | apply elem_of_nil in Hv; destruct Hv].

(** The bounding box of the assembly before it is centred: the
    bounding box of the posed mesh, widened by the border and the tab,
    and reaching down to the bottom of the box. *)
Lemma build_bounds posed e bw th depth off boxed :
  extents posed = Some e ->
  0 <= bw -> 0 <= th ->
  build posed e bw th depth off = Return boxed ->
  exists bl bu lo hi,
    bounds posed = Some (bl, bu) /\ bounds boxed = Some (lo, hi)
    /\ vx lo == vx bl - bw * vx e /\ vx hi == vx bu + bw * vx e
    /\ vy lo == vy bl - bw * vx e
    /\ vy hi == vy bu + bw * vx e + th * vy e
    /\ vz lo == Qmin (vz bl) (Qmin (- off) (- off - depth))
    /\ vz hi == Qmax (vz bu) (Qmax (- off) (- off - depth))
    /\ vz bl < tolerance /\ - tolerance < vz bu.
Proof.
  intros He Hbw Hth Hbuild.
  destruct (build_vertices _ _ _ _ _ _ _ Hbuild)
    as (bl & bu & p & q & r0 & Hb & Hp & Hq & Hr & Hg & Hverts).
  unfold extents in He. rewrite Hb in He. injection He as <-.
  destruct (bounds_is_some boxed) as (lo & hi & Hb').
  { rewrite Hverts. destruct (vertices posed); discriminate. }
  exists bl, bu, lo, hi. split; [exact Hb|]. split; [exact Hb'|].
  destruct (bounds_least_greatest _ _ _ Hb)
    as ([Hx (ax & Hax & Eax)] & [HX (aX & HaX & EaX)]
        & [Hy (ay & Hay & Eay)] & [HY (aY & HaY & EaY)]
        & [Hz (az & Haz & Eaz)] & [HZ (aZ & HaZ & EaZ)]).
  destruct (bounds_least_greatest _ _ _ Hb')
    as (Hx' & HX' & Hy' & HY' & Hz' & HZ').
  rewrite Hverts in Hx', HX', Hy', HY', Hz', HZ'.
  unfold vsub in *. cbn [vx vy vz fst snd] in *.
  set (xl := vx bl) in *. set (xu := vx bu) in *.
  set (yl := vy bl) in *. set (yu := vy bu) in *.
  set (zl := vz bl) in *. set (zu := vz bu) in *.
  assert (Hex : 0 <= xu - xl).
  { pose proof (Hx ax Hax). pose proof (HX ax Hax). lra. }
  assert (Hey : 0 <= yu - yl).
  { pose proof (Hy ay Hay). pose proof (HY ay Hay). lra. }
  pose proof (Qmult_le_0_compat _ _ Hbw Hex) as Hd.
  pose proof (Qmult_le_0_compat _ _ Hth Hey) as Ht.
  set (d := bw * (xu - xl)) in *. set (t := th * (yu - yl)) in *.
  pose proof (Hx p Hp). pose proof (Hx q Hq). pose proof (Hx r0 Hr).
  pose proof (HX p Hp). pose proof (HX q Hq). pose proof (HX r0 Hr).
  pose proof (Hy p Hp). pose proof (Hy q Hq). pose proof (Hy r0 Hr).
  pose proof (HY p Hp). pose proof (HY q Hq). pose proof (HY r0 Hr).
  set (bz := Qmin (- off) (- off - depth)).
  set (tz := Qmax (- off) (- off - depth)).
  pose proof (Q.le_min_l (- off) (- off - depth)) as Hbz1.
  pose proof (Q.le_min_r (- off) (- off - depth)) as Hbz2.
  pose proof (Q.le_max_l (- off) (- off - depth)) as Htz1.
  pose proof (Q.le_max_r (- off) (- off - depth)) as Htz2.
  fold bz in Hbz1, Hbz2. fold tz in Htz1, Htz2.
  pose proof (Q.le_min_l zl bz) as Hm1.
  pose proof (Q.le_min_r zl bz) as Hm2.
  pose proof (Q.le_max_l zu tz) as HM1.
  pose proof (Q.le_max_r zu tz) as HM2.
  split; [|split; [|split; [|split; [|split; [|split; [|split]]]]]].
  - apply (least_unique vx _ _ _ Hx'). split.
    + intros v Hv. apply elem_of_app in Hv. destruct Hv as [Hv|Hv].
      * pose proof (Hx v Hv). lra.
      * box_cases Hv.
    + exists (xl - d, yl - d, - off). split; [|reflexivity].
      apply elem_of_app. right. right. right. right. left.
  - apply (greatest_unique vx _ _ _ HX'). split.
    + intros v Hv. apply elem_of_app in Hv. destruct Hv as [Hv|Hv].
      * pose proof (HX v Hv). lra.
      * box_cases Hv.
    + exists (xu + d, yl - d, - off). split; [|reflexivity].
      apply elem_of_app. right. right. right. right. right. left.
  - apply (least_unique vy _ _ _ Hy'). split.
    + intros v Hv. apply elem_of_app in Hv. destruct Hv as [Hv|Hv].
      * pose proof (Hy v Hv). lra.
      * box_cases Hv.
    + exists (xl - d, yl - d, - off). split; [|reflexivity].
      apply elem_of_app. right. right. right. right. left.
  - apply (greatest_unique vy _ _ _ HY'). split.
    + intros v Hv. apply elem_of_app in Hv. destruct Hv as [Hv|Hv].
      * pose proof (HY v Hv). lra.
      * box_cases Hv.
    + exists (xu + d, yu + d + t, - off). split; [|reflexivity].
      apply elem_of_app. right. right. right. right. right. right. left.
  - apply (least_unique vz _ _ _ Hz'). split.
    + intros v Hv. apply elem_of_app in Hv. destruct Hv as [Hv|Hv].
      * pose proof (Hz v Hv). lra.
      * box_cases Hv.
    + destruct (Q.min_spec zl bz) as [[_ Hm]|[_ Hm]].
      * exists az. split; [apply elem_of_app; left; exact Haz|lra].
      * destruct (Q.min_spec (- off) (- off - depth)) as [[_ Hn]|[_ Hn]];
          fold bz in Hn.
        -- exists (xl - d, yl - d, - off). split; [|cbn; lra].
           apply elem_of_app. right. do 3 right. left.
        -- exists (xl - d, yl - d, - off - depth). split; [|cbn; lra].
           apply elem_of_app. right. do 7 right. left.
  - apply (greatest_unique vz _ _ _ HZ'). split.
    + intros v Hv. apply elem_of_app in Hv. destruct Hv as [Hv|Hv].
      * pose proof (HZ v Hv). lra.
      * box_cases Hv.
    + destruct (Q.max_spec zu tz) as [[_ Hm]|[_ Hm]].
      * destruct (Q.max_spec (- off) (- off - depth)) as [[_ Hn]|[_ Hn]];
          fold tz in Hn.
        -- exists (xl - d, yl - d, - off - depth). split; [|cbn; lra].
           apply elem_of_app. right. do 7 right. left.
        -- exists (xl - d, yl - d, - off). split; [|cbn; lra].
           apply elem_of_app. right. do 3 right. left.
      * exists aZ. split; [apply elem_of_app; left; exact HaZ|lra].
  - apply touches_ground_cases in Hg.
    pose proof (Hz p Hp). pose proof (Hz q Hq). pose proof (Hz r0 Hr).
    pose proof (Qle_Qabs (vz p)). pose proof (Qle_Qabs (vz q)).
    pose proof (Qle_Qabs (vz r0)). lra.
  - apply touches_ground_cases in Hg.
    pose proof (HZ p Hp). pose proof (HZ q Hq). pose proof (HZ r0 Hr).
    pose proof (Qle_Qabs (- vz p)). pose proof (Qle_Qabs (- vz q)).
    pose proof (Qle_Qabs (- vz r0)).
    rewrite Qabs_opp in *. lra.
Qed.

(** The three values that [package] samples when the random stream of
    the world stands at [rng_pos w]. *)
Definition border_width_pct_of (config : Config) (w : World) : Q :=
  sample (min_border_width_pct config) (max_border_width_pct config)
         (rng_pos w).
Definition tab_height_pct_of (config : Config) (w : World) : Q :=
  sample (min_tab_height_pct config) (max_tab_height_pct config)
         (S (rng_pos w)).
Definition depth_of (config : Config) (w : World) : Q :=
  sample (min_depth config) (max_depth config) (S (S (rng_pos w))).

(** What lies behind a returned mesh: the pose, the posed mesh within
    the limits, the uncentred assembly and its translation. *)
Lemma package_returns_build config r m w r' w' :
  heap w !! r = Some m ->
  package config r w = (Return (Some r'), w') ->
  exists pose e boxed ts',
    packaged_pose m = Return pose
    /\ extents (transform_mesh pose m) = Some e
    /\ any_gt e (ext_limits config) = false
    /\ build (transform_mesh pose m) e (border_width_pct_of config w)
         (tab_height_pct_of config w) (depth_of config w) (offset config)
       = Return boxed
    /\ triangles boxed = Some ts'
    /\ heap w' !! r'
       = Some (translate_mesh
                 (- vx (center_mass_of ts'), - vy (center_mass_of ts'),
                  - vz (center_mass_of ts')) boxed)
    /\ (length (heap w) <= r')%nat.
Proof.
  intros Hr Hrun. destruct (is_watertight m) eqn:Hw.
  2:{ rewrite (package_run_not_watertight config r m w Hr Hw) in Hrun.
      discriminate. }
  destruct (package_run config r m w Hr Hw) as (ext & o & Hp & Hag & _).
  rewrite Hp in Hrun. injection Hrun as -> <-. cbn [heap].
  unfold package_outcome, packaged in Hag.
  destruct (packaged_pose m) as [pose|] eqn:Hpose; [|discriminate].
  cbv zeta in Hag.
  destruct (extents (transform_mesh pose m)) as [e|] eqn:He; [|discriminate].
  destruct (any_gt e (ext_limits config)) eqn:Hgt; [discriminate|].
  unfold assemble in Hag.
  fold (border_width_pct_of config w) (tab_height_pct_of config w)
       (depth_of config w) in Hag.
  destruct (build _ _ _ _ _ _) as [boxed|] eqn:Hbuild; [|discriminate].
  destruct (triangles boxed) as [ts'|] eqn:Hts'; [|discriminate].
  destruct Hag as (r1 & Heq & Hl & Hfresh). injection Heq as <-.
  exists pose, e, boxed, ts'.
  split; [reflexivity|]. split; [exact He|]. split; [exact Hgt|].
  split; [exact Hbuild|]. split; [exact Hts'|].
  split; [exact Hl|exact Hfresh].
Qed.

(** X6: the footprint of a returned package.  With border and tab
    percentages that are not negative, the returned mesh is wider than
    the posed object by twice the border width on the x axis, and by
    twice the border width plus the tab height on the y axis, where the
    border width is the sampled percentage of the x extent and the tab
    height the sampled percentage of the y extent of the posed
    object. *)
Theorem package_footprint config r m w r' w' :
  heap w !! r = Some m ->
  0 <= border_width_pct_of config w ->
  0 <= tab_height_pct_of config w ->
  package config r w = (Return (Some r'), w') ->
  exists pose e m' e',
    packaged_pose m = Return pose
    /\ extents (transform_mesh pose m) = Some e
    /\ heap w' !! r' = Some m' /\ extents m' = Some e'
    /\ vx e' == vx e + 2 * (border_width_pct_of config w * vx e)
    /\ vy e' == vy e + 2 * (border_width_pct_of config w * vx e)
                + tab_height_pct_of config w * vy e.
Proof.
  intros Hr Hbw Hth Hrun.
  destruct (package_returns_build _ _ _ _ _ _ Hr Hrun)
    as (pose & e & boxed & ts' & Hpose & He & _ & Hbuild & _ & Hres & _).
  destruct (build_bounds _ _ _ _ _ _ _ He Hbw Hth Hbuild)
    as (bl & bu & lo & hi & Hb & Hb' & Hxl & Hxu & Hyl & Hyu & _).
  destruct (translate_bounds
              (- vx (center_mass_of ts'), - vy (center_mass_of ts'),
               - vz (center_mass_of ts')) _ _ _ Hb')
    as (lo' & hi' & Hb'' & (Hlx & Hly & _) & (Hhx & Hhy & _)).
  eexists pose, e, _, (vsub hi' lo').
  split; [exact Hpose|]. split; [exact He|]. split; [exact Hres|].
  split; [unfold extents; rewrite Hb''; reflexivity|].
  unfold extents in He. rewrite Hb in He. injection He as <-.
  unfold vsub, vadd in *. cbn [vx vy vz fst snd] in *.
  split; lra.
Qed.

(** X7: the height of a returned package.  With a depth that is not
    negative and an offset of at least the ground tolerance, the top of
    the package is the top of the posed object, and its lowest point is
    the bottom of the box or, if that is lower, the lowest point of the
    posed object. *)
Theorem package_height config r m w r' w' :
  heap w !! r = Some m ->
  0 <= border_width_pct_of config w ->
  0 <= tab_height_pct_of config w ->
  0 <= depth_of config w ->
  tolerance <= offset config ->
  package config r w = (Return (Some r'), w') ->
  exists pose bl bu m' e',
    packaged_pose m = Return pose
    /\ bounds (transform_mesh pose m) = Some (bl, bu)
    /\ heap w' !! r' = Some m' /\ extents m' = Some e'
    /\ vz e' == vz bu - Qmin (vz bl) (- offset config - depth_of config w)
    /\ vz bl < tolerance.
Proof.
  intros Hr Hbw Hth Hdepth Hoff Hrun.
  destruct (package_returns_build _ _ _ _ _ _ Hr Hrun)
    as (pose & e & boxed & ts' & Hpose & He & _ & Hbuild & _ & Hres & _).
  destruct (build_bounds _ _ _ _ _ _ _ He Hbw Hth Hbuild)
    as (bl & bu & lo & hi & Hb & Hb' & _ & _ & _ & _ & Hzl & Hzu & Hlow
        & Hhigh).
  destruct (translate_bounds
              (- vx (center_mass_of ts'), - vy (center_mass_of ts'),
               - vz (center_mass_of ts')) _ _ _ Hb')
    as (lo' & hi' & Hb'' & (_ & _ & Hlz) & (_ & _ & Hhz)).
  eexists pose, bl, bu, _, (vsub hi' lo').
  split; [exact Hpose|]. split; [exact Hb|]. split; [exact Hres|].
  split; [unfold extents; rewrite Hb''; reflexivity|].
  split; [|exact Hlow].
  unfold vsub, vadd in *. cbn [vx vy vz fst snd] in *.
  rewrite (Q.min_r (- offset config)) in Hzl by lra.
  rewrite (Q.max_l (- offset config)) in Hzu by lra.
  rewrite (Q.max_l (vz bu)) in Hzu by lra.
  lra.
Qed.

End Footprint.

(** ** The object inside the package *)

Section Object.
Context `{Collab : Collaborators}.

(** X8: a returned package contains the object itself.  Its vertex
    sequence begins with the vertices of the input, in their order,
    moved by the pose and then by one common translation, followed by
    eleven new vertices; its face sequence begins with the faces of the
    input, in their order, without the contact face. *)
Theorem package_keeps_object config r m w r' w' :
  heap w !! r = Some m ->
  package config r w = (Return (Some r'), w') ->
  exists pose t ts i m',
    packaged_pose m = Return pose
    /\ triangles (transform_mesh pose m) = Some ts
    /\ find_contact 0 ts = Some i
    /\ heap w' !! r' = Some m'
    /\ length (vertices m') = (length (vertices m) + 11)%nat
    /\ take (length (vertices m)) (vertices m')
       = map (fun v => vadd (transform_point pose v) t) (vertices m)
    /\ take (length (faces m) - 1) (faces m') = delete i (faces m).
Proof.
  intros Hr Hrun.
  destruct (package_returns_build _ _ _ _ _ _ Hr Hrun)
    as (pose & e & boxed & ts' & Hpose & He & _ & Hbuild & Hts' & Hres & _).
  set (t := (- vx (center_mass_of ts'), - vy (center_mass_of ts'),
             - vz (center_mass_of ts'))) in *.
  assert (Hasm : assemble (transform_mesh pose m) e
                   (border_width_pct_of config w)
                   (tab_height_pct_of config w) (depth_of config w)
                   (offset config)
                 = Return (Some (translate_mesh t boxed))).
  { unfold assemble. rewrite Hbuild, Hts'. reflexivity. }
  destruct (assemble_result _ _ _ _ _ _ _ Hasm)
    as (ts & i & a & b & c & tri & p & Hts & Hfind & Hf & _ & _ & _
        & Hfaces & Hverts).
  destruct (build_vertices _ _ _ _ _ _ _ Hbuild)
    as (bl & bu & p0 & q0 & r0 & _ & _ & _ & _ & _ & Hbv).
  exists pose, t, ts, i, (translate_mesh t boxed).
  split; [exact Hpose|]. split; [exact Hts|]. split; [exact Hfind|].
  split; [exact Hres|].
  cbn [transform_mesh vertices faces] in *. rewrite length_map in Hverts.
  split; [exact Hverts|]. split.
  - cbn [translate_mesh vertices]. rewrite Hbv, map_app.
    rewrite take_app_length' by (rewrite !length_map; reflexivity).
    rewrite map_map. reflexivity.
  - rewrite Hfaces. unfold assembled_faces.
    pose proof (lookup_lt_Some _ _ _ Hf) as Hi.
    rewrite delete_app_l by exact Hi. rewrite <- app_assoc.
    apply take_app_length'. rewrite length_delete by (eexists; exact Hf).
    reflexivity.
Qed.

End Object.

(** ** The batch driver

    The [for fn in os.listdir(...)] loop of the script: every file of
    the input directory is loaded and packaged, and the packages that
    are watertight are exported. *)

From Stdlib Require Import Ascii.

(** [s.split(sep)] for a separator of one character. *)
Fixpoint split (sep : ascii) (s : string) : list string :=
  match s with
  | EmptyString => [EmptyString]
  | String c rest =>
      if Ascii.eqb c sep then EmptyString :: split sep rest
      else match split sep rest with
           | [] => [String c EmptyString]
           | p :: ps => String c p :: ps
           end
  end.

Definition starts_with_slash (s : string) : bool :=
  match s with
  | String c _ => Ascii.eqb c "/"%char
  | EmptyString => false
  end.

Fixpoint ends_with_slash (s : string) : bool :=
  match s with
  | EmptyString => false
  | String c EmptyString => Ascii.eqb c "/"%char
  | String _ rest => ends_with_slash rest
  end.

(** [os.path.join(a, b)] of posixpath. *)
Definition path_join (a b : string) : string :=
  if starts_with_slash b then b
  else if String.eqb a EmptyString || ends_with_slash a
       then String.append a b
       else String.append a (String "/"%char b).

(** [os.path.join(out_dir, '{}_packaged.obj'.format(fn))] *)
Definition export_name (out_dir fn : string) : string :=
  path_join out_dir (String.append fn "_packaged.obj").

(** The state of a run of the script: the world of the packager and
    the files written by [export], oldest first, each with the value of
    the mesh when it was written. *)
Record Session := mkSession {
  world : World;
  exported : list (string * Trimesh)
}.

Section Driver.
Context `{Collab : Collaborators}.

(** [trimesh.load_mesh]: the mesh stored under a path, or the error
    that loading it raises. *)
Variable load_mesh : string -> outcome Trimesh.

(** The loop over the directory listing [fns].  The result of
    [os.path.splitext] is not used by the script and is left out. *)
Fixpoint main_loop (config : Config) (in_dir out_dir : string)
    (fns : list string) (s : Session) : outcome unit * Session :=
  match fns with
  | [] => (Return tt, s)
  | fn :: rest =>
      let full_fn := path_join in_dir fn in
      match split "."%char fn !! 0%nat with
      | None => (Raise IndexError, s)
      | Some fn =>
          match load_mesh full_fn with
          | Raise e => (Raise e, s)
          | Return loaded =>
              match (m <- alloc loaded ;; package config m) (world s) with
              | (Raise e, w) => (Raise e, mkSession w (exported s))
              | (Return None, w) =>
                  main_loop config in_dir out_dir rest
                            (mkSession w (exported s))
              | (Return (Some r), w) =>
                  match heap w !! r with
                  | None => (Raise DanglingRef, mkSession w (exported s))
                  | Some m =>
                      if negb (is_watertight m)
                      then main_loop config in_dir out_dir rest
                                     (mkSession w (exported s))
                      else main_loop config in_dir out_dir rest
                             (mkSession w
                                (exported s
                                 ++ [(export_name out_dir fn, m)]))
                  end
              end
          end
      end
  end.

Lemma split_first sep s : exists p ps, split sep s = p :: ps.
Proof.
  induction s as [|c s (p & ps & IH)]; cbn.
  - eexists _, _. reflexivity.
  - destruct (Ascii.eqb c sep); [eexists _, _; reflexivity|].
    rewrite IH. eexists _, _. reflexivity.
Qed.

(** What one export of the loop looks like: a watertight mesh under
    the export name of the first piece of one of the listed names. *)
Definition export_of (out_dir : string) (fns : list string)
    (x : string * Trimesh) : Prop :=
  is_watertight (snd x) = true
  /\ exists fn stem,
       fn ∈ fns /\ split "."%char fn !! 0%nat = Some stem
       /\ fst x = export_name out_dir stem.

Lemma export_of_cons out_dir fn fns x :
  export_of out_dir fns x -> export_of out_dir (fn :: fns) x.
Proof.
  intros (Hw & f & st & Hin & Hs & Hn). split; [exact Hw|].
  exists f, st. split; [right; exact Hin|]. split; assumption.
Qed.

(** X9: the script exports nothing but watertight meshes.  Whatever
    the loop runs into, the files it has written are those that were
    there before followed by at most one new file per listed name, and
    every new file holds a watertight mesh and is named after the part
    of a listed name before its first dot. *)
Theorem main_exports_watertight config in_dir out_dir fns : forall s,
  exists new,
    exported (snd (main_loop config in_dir out_dir fns s))
    = exported s ++ new
    /\ Forall (export_of out_dir fns) new
    /\ (length new <= length fns)%nat.
Proof.
  induction fns as [|fn rest IH]; intros s.
  - exists []. cbn. rewrite app_nil_r. repeat split; [constructor|lia].
  - cbn [main_loop].
    destruct (split "."%char fn !! 0%nat) as [stem|] eqn:Hstem.
    2:{ exists []. cbn. rewrite app_nil_r. repeat split; [constructor|lia]. }
    destruct (load_mesh (path_join in_dir fn)) as [loaded|e].
    2:{ exists []. cbn. rewrite app_nil_r. repeat split; [constructor|lia]. }
    destruct ((m <- alloc loaded ;; package config m) (world s))
      as [[[r|]|e] w].
    + destruct (heap w !! r) as [m|].
      2:{ exists []. cbn. rewrite app_nil_r.
          repeat split; [constructor|lia]. }
      destruct (is_watertight m) eqn:Hw; cbn [negb].
      * destruct (IH (mkSession w
                        (exported s ++ [(export_name out_dir stem, m)])))
          as (new & -> & Hall & Hlen).
        cbn [exported]. exists ((export_name out_dir stem, m) :: new).
        split; [rewrite <- app_assoc; reflexivity|]. split.
        -- constructor.
           ++ split; [exact Hw|]. exists fn, stem.
              split; [left|]. split; [exact Hstem|reflexivity].
           ++ apply (Forall_impl _ _ _ Hall). intros x.
              apply export_of_cons.
        -- cbn [length]. lia.
      * destruct (IH (mkSession w (exported s))) as (new & -> & Hall & Hlen).
        exists new. split; [reflexivity|]. split.
        -- apply (Forall_impl _ _ _ Hall). intros x. apply export_of_cons.
        -- cbn [length]. lia.
    + destruct (IH (mkSession w (exported s))) as (new & -> & Hall & Hlen).
      exists new. split; [reflexivity|]. split.
      * apply (Forall_impl _ _ _ Hall). intros x. apply export_of_cons.
      * cbn [length]. lia.
    + exists []. cbn. rewrite app_nil_r. repeat split; [constructor|lia].
Qed.

Fixpoint has_char (c : ascii) (s : string) : bool :=
  match s with
  | EmptyString => false
  | String d rest => Ascii.eqb d c || has_char c rest
  end.

(** X10: [fn.split('.')[0]] always exists, holds no dot, and is the
    whole name when the name has no dot and otherwise the part before
    its first dot; the index error of the empty list cannot occur. *)
Theorem first_piece_is_stem fn :
  exists stem,
    split "."%char fn !! 0%nat = Some stem
    /\ has_char "."%char stem = false
    /\ (fn = stem
        \/ exists rest, fn = String.append stem (String "."%char rest)).
Proof.
  induction fn as [|c fn (stem & Hs & Hno & Hfn)].
  - exists EmptyString. cbn. repeat split. left. reflexivity.
  - cbn [split]. destruct (Ascii.eqb c "."%char) eqn:Hc.
    + apply Ascii.eqb_eq in Hc. subst c. exists EmptyString. cbn.
      repeat split. right. exists fn. reflexivity.
    + destruct (split_first "."%char fn) as (p & ps & Hp).
      rewrite Hp in Hs |- *. cbn in Hs. injection Hs as ->.
      exists (String c stem). cbn [lookup list_lookup has_char].
      rewrite Hc, Hno. repeat split.
      destruct Hfn as [->|(rest & ->)]; [left; reflexivity|].
      right. exists rest. reflexivity.
Qed.

Lemma main_loop_app config in_dir out_dir fns1 fns2 : forall s,
  main_loop config in_dir out_dir (fns1 ++ fns2) s
  = match main_loop config in_dir out_dir fns1 s with
    | (Return _, s1) => main_loop config in_dir out_dir fns2 s1
    | (Raise e, s1) => (Raise e, s1)
    end.
Proof.
  induction fns1 as [|fn rest IH]; intros s; [reflexivity|].
  cbn [app main_loop].
  destruct (split "."%char fn !! 0%nat) as [stem|]; [|reflexivity].
  destruct (load_mesh (path_join in_dir fn)) as [loaded|e]; [|reflexivity].
  destruct ((m <- alloc loaded ;; package config m) (world s))
    as [[[r|]|e] w]; [| |reflexivity].
  - destruct (heap w !! r) as [m|]; [|reflexivity].
    destruct (negb (is_watertight m)); apply IH.
  - apply IH.
Qed.

(** X11: the batch ends at the first mesh that is not watertight.  When
    the loop has passed the names before [fn] and the file of [fn] loads
    as a mesh that is not watertight, the error of [package] ends the
    script: the later names are not looked at, no sample is drawn for
    [fn], and the files written so far stay as they are. *)
Theorem main_stops_at_open_mesh config in_dir out_dir fns1 fn fns2 s s1 m :
  main_loop config in_dir out_dir fns1 s = (Return tt, s1) ->
  load_mesh (path_join in_dir fn) = Return m ->
  is_watertight m = false ->
  main_loop config in_dir out_dir (fns1 ++ fn :: fns2) s
  = (Raise (ValueError "Must have a watertight mesh to package it!"),
     mkSession (set_heap (heap (world s1) ++ [m]) (world s1))
               (exported s1)).
Proof.
  intros H1 Hload Hw. rewrite main_loop_app, H1. cbn [main_loop].
  destruct (split_first "."%char fn) as (p & ps & ->).
  cbn [lookup list_lookup]. rewrite Hload.
  unfold bind at 1, alloc.
  rewrite (package_run_not_watertight config _ m); [reflexivity| |exact Hw].
  cbn [heap set_heap]. apply lookup_fresh.
Qed.

(** X12: a batch that runs to its end has loaded a watertight mesh for
    every listed name and has drawn exactly three samples for each of
    them. *)
Theorem main_draws_three_per_file config in_dir out_dir fns : forall s s',
  main_loop config in_dir out_dir fns s = (Return tt, s') ->
  rng_pos (world s') = (3 * length fns + rng_pos (world s))%nat
  /\ Forall (fun fn => exists m,
               load_mesh (path_join in_dir fn) = Return m
               /\ is_watertight m = true) fns.
Proof.
  induction fns as [|fn rest IH]; intros s s' H.
  - cbn in H. injection H as <-. split; [reflexivity|constructor].
  - cbn [main_loop] in H.
    destruct (split "."%char fn !! 0%nat) as [stem|]; [|discriminate].
    destruct (load_mesh (path_join in_dir fn)) as [loaded|e] eqn:Hload;
      [|discriminate].
    unfold bind at 1, alloc in H.
    set (w1 := set_heap (heap (world s) ++ [loaded]) (world s)) in H.
    assert (Hr : heap w1 !! length (heap (world s)) = Some loaded)
      by (subst w1; cbn [heap set_heap]; apply lookup_fresh).
    destruct (is_watertight loaded) eqn:Hw.
    2:{ rewrite (package_run_not_watertight config _ loaded w1 Hr Hw) in H.
        discriminate. }
    destruct (package_run config _ loaded w1 Hr Hw) as (ext & o & Hp & _).
    rewrite Hp in H.
    assert (Hstep : forall ex,
              main_loop config in_dir out_dir rest
                (mkSession
                   (mkWorld (heap w1 ++ ext) (3 + rng_pos w1)
                            (draw_log w1 ++ draws_of config)) ex)
              = (Return tt, s') ->
              rng_pos (world s')
              = (3 * length (fn :: rest) + rng_pos (world s))%nat
              /\ Forall (fun fn => exists m,
                           load_mesh (path_join in_dir fn) = Return m
                           /\ is_watertight m = true) (fn :: rest)).
    { intros ex Hrest. destruct (IH _ _ Hrest) as [Hpos Hall].
      cbn [world rng_pos] in Hpos. split.
      - rewrite Hpos. subst w1. cbn [length rng_pos set_heap]. lia.
      - constructor; [|exact Hall]. exists loaded. split; [exact Hload|exact Hw]. }
    destruct o as [[r|]|e]; [| |discriminate].
    + destruct (_ !! r) as [m|]; [|discriminate].
      destruct (negb (is_watertight m)); exact (Hstep _ H).
    + exact (Hstep _ H).
Qed.

End Driver.

(** ** The cube, continued *)

Module CubeBatch.
Import Cube.

(** Witness of X1: the cube against a limit of 0.5 on x. *)
Lemma package_none_means_oversized_witness :
  exists w',
    heap cube_world !! 0%nat = Some cube
    /\ package (Collab := cube_collab) tight_config 0%nat cube_world
       = (Return None, w')
    /\ exists pose e,
         packaged_pose (Collab := cube_collab) cube = Return pose
         /\ extents (transform_mesh pose cube) = Some e
         /\ (vx (ext_limits tight_config) < vx e
             \/ vy (ext_limits tight_config) < vy e
             \/ vz (ext_limits tight_config) < vz e).
Proof.
  assert (Hfst : fst (package (Collab := cube_collab) tight_config 0%nat
                        cube_world) = Return None)
    by (vm_compute; reflexivity).
  destruct (package (Collab := cube_collab) tight_config 0%nat cube_world)
    as [o w'] eqn:E.
  cbn [fst] in Hfst. subst o. exists w'.
  split; [reflexivity|]. split; [reflexivity|].
  apply (package_none_means_oversized (Collab := cube_collab)
           tight_config 0%nat cube cube_world w');
    [reflexivity|exact E].
Defined.

(** Witness of X2: the cube with a border width of zero, where the
    triangulation is [corner_top]. *)
Lemma package_three_outcomes_witness :
  exists o w',
    heap cube_world !! 0%nat = Some cube
    /\ is_watertight cube = true
    /\ is_Some (triangles cube)
    /\ vertices cube <> []
    /\ compute_stable_poses (Collaborators := flush_collab) cube <> []
    /\ (forall p,
          package_graph (Collab := flush_collab) flush_config cube
            (rng_pos cube_world) = Some p ->
          forallb face_in_top
            (triangulate (Collaborators := flush_collab) p "pc") = true)
    /\ package (Collab := flush_collab) flush_config 0%nat cube_world
       = (o, w')
    /\ ((exists r', o = Return (Some r')) \/ o = Return None
        \/ o = Raise (ValueError "Malformed mesh")).
Proof.
  assert (Hts : is_Some (triangles cube)) by (eexists; reflexivity).
  assert (Hv : vertices cube <> []) by discriminate.
  assert (Hp : compute_stable_poses (Collaborators := flush_collab) cube <> [])
    by discriminate.
  assert (Hin : forall p,
            package_graph (Collab := flush_collab) flush_config cube
              (rng_pos cube_world) = Some p ->
            forallb face_in_top
              (triangulate (Collaborators := flush_collab) p "pc") = true).
  { intros p _. cbn [triangulate flush_collab].
    destruct (ring_on_boundary p); reflexivity. }
  destruct (package (Collab := flush_collab) flush_config 0%nat cube_world)
    as [o w'] eqn:E.
  exists o, w'. split; [reflexivity|].
  split; [vm_compute; reflexivity|]. split; [exact Hts|].
  split; [exact Hv|]. split; [exact Hp|]. split; [exact Hin|].
  split; [reflexivity|].
  apply (package_three_outcomes (Collab := flush_collab)
           flush_config 0%nat cube cube_world o w');
    [reflexivity|vm_compute; reflexivity|exact Hts|exact Hv|exact Hp
    |exact Hin|exact E].
Defined.

(** Witness of X3: the pose of the cube. *)
Lemma packaged_pose_is_rotation_after_pose_witness :
  exists w',
    heap cube_world !! 0%nat = Some cube
    /\ _get_packaged_pose (Collab := cube_collab) 0%nat cube_world
       = (Return cube_pose, w')
    /\ exists tf rot,
         tf ∈ compute_stable_poses (Collaborators := cube_collab) cube
         /\ (rot = eye4
             \/ exists k, (k < 32)%nat
                          /\ rot = rot_at (Collab := cube_collab) k)
         /\ cube_pose = mat4_dot rot tf
         /\ (affine tf ->
             forall v, veq (transform_point cube_pose v)
                           (transform_point rot (transform_point tf v))).
Proof.
  assert (Hfst : fst (_get_packaged_pose (Collab := cube_collab) 0%nat
                        cube_world) = Return cube_pose)
    by (vm_compute; reflexivity).
  destruct (_get_packaged_pose (Collab := cube_collab) 0%nat cube_world)
    as [o w'] eqn:E.
  cbn [fst] in Hfst. subst o. exists w'.
  split; [reflexivity|]. split; [reflexivity|].
  apply (packaged_pose_is_rotation_after_pose (Collab := cube_collab)
           0%nat cube cube_world cube_pose w');
    [reflexivity|exact E].
Defined.

(** The triangles of the posed cube and the cube with its pedestal. *)
Definition cube_triangles : list triangle3 :=
  default [] (triangles cube_posed).

Definition cube_contact : nat := default 0%nat (find_contact 0 cube_triangles).

Definition cube_extruded : Trimesh :=
  default cube
    (create_extrusion cube_posed cube_triangles cube_contact (- (1 # 100))).

Lemma cube_triangles_eq : triangles cube_posed = Some cube_triangles.
Proof. apply default_eq. vm_compute. reflexivity. Qed.

Lemma cube_contact_eq : find_contact 0 cube_triangles = Some cube_contact.
Proof. apply default_eq. vm_compute. reflexivity. Qed.

Lemma cube_extruded_eq :
  create_extrusion cube_posed cube_triangles cube_contact (- (1 # 100))
  = Some cube_extruded.
Proof. apply default_eq. vm_compute. reflexivity. Qed.

(** Witness of X4: the pedestal below the posed cube. *)
Lemma extrusion_open_at_rim_witness :
  is_watertight cube_posed = true
  /\ triangles cube_posed = Some cube_triangles
  /\ find_contact 0 cube_triangles = Some cube_contact
  /\ create_extrusion cube_posed cube_triangles cube_contact (- (1 # 100))
     = Some cube_extruded
  /\ take (length (vertices cube_posed)) (vertices cube_extruded)
     = vertices cube_posed
  /\ length (vertices cube_extruded) = (length (vertices cube_posed) + 3)%nat
  /\ length (faces cube_extruded) = (length (faces cube_posed) + 5)%nat
  /\ forall e,
       (e ∈ pedestal_rim (Z.of_nat (length (vertices cube_posed))) ->
        edge_count e (edges_sorted (faces cube_extruded)) = 1%nat)
       /\ (e ∉ pedestal_rim (Z.of_nat (length (vertices cube_posed))) ->
           edge_count e (edges_sorted (faces cube_extruded)) = 0%nat
           \/ edge_count e (edges_sorted (faces cube_extruded)) = 2%nat).
Proof.
  split; [vm_compute; reflexivity|]. split; [exact cube_triangles_eq|].
  split; [exact cube_contact_eq|]. split; [exact cube_extruded_eq|].
  apply (extrusion_open_at_rim cube_posed cube_triangles cube_contact
           (- (1 # 100)) cube_extruded);
    [vm_compute; reflexivity|exact cube_triangles_eq|exact cube_contact_eq
    |exact cube_extruded_eq].
Defined.

(** Witness of X5: the top face of the cube's box, eleven vertices
    before the corners. *)
Lemma top_face_indices_remapped_witness :
  map (shift_face 11)
    (map (replace_index 6 (11 - 1 - 11))
       (map (replace_index 5 (11 - 2 - 11))
          (map (replace_index 4 (11 - 3 - 11)) cube_top)))
  = [ (11, 12, 10); (11, 10, 8); (12, 13, 9); (12, 9, 10);
      (9, 13, 14); (9, 14, 8); (8, 14, 11) ]%Z.
Proof.
  destruct (top_face_indices_remapped 11 cube_top) as [H _].
  rewrite H. reflexivity.
Defined.

(** Witness of X6: the footprint of the packaged cube. *)
Lemma package_footprint_witness :
  exists w',
    heap cube_world !! 0%nat = Some cube
    /\ 0 <= border_width_pct_of (Collab := cube_collab) cube_config cube_world
    /\ 0 <= tab_height_pct_of (Collab := cube_collab) cube_config cube_world
    /\ package (Collab := cube_collab) cube_config 0%nat cube_world
       = (Return (Some 42%nat), w')
    /\ exists pose e m' e',
         packaged_pose (Collab := cube_collab) cube = Return pose
         /\ extents (transform_mesh pose cube) = Some e
         /\ heap w' !! 42%nat = Some m' /\ extents m' = Some e'
         /\ vx e' == vx e
                     + 2 * (border_width_pct_of (Collab := cube_collab)
                              cube_config cube_world * vx e)
         /\ vy e' == vy e
                     + 2 * (border_width_pct_of (Collab := cube_collab)
                              cube_config cube_world * vx e)
                     + tab_height_pct_of (Collab := cube_collab)
                         cube_config cube_world * vy e.
Proof.
  assert (Hbw : 0 <= border_width_pct_of (Collab := cube_collab)
                       cube_config cube_world)
    by (apply Qle_bool_iff; vm_compute; reflexivity).
  assert (Hth : 0 <= tab_height_pct_of (Collab := cube_collab)
                       cube_config cube_world)
    by (apply Qle_bool_iff; vm_compute; reflexivity).
  assert (Hfst : fst (package (Collab := cube_collab) cube_config 0%nat
                        cube_world) = Return (Some 42%nat))
    by (vm_compute; reflexivity).
  destruct (package (Collab := cube_collab) cube_config 0%nat cube_world)
    as [o w'] eqn:E.
  cbn [fst] in Hfst. subst o. exists w'.
  split; [reflexivity|]. split; [exact Hbw|]. split; [exact Hth|].
  split; [reflexivity|].
  apply (package_footprint (Collab := cube_collab)
           cube_config 0%nat cube cube_world 42%nat w');
    [reflexivity|exact Hbw|exact Hth|exact E].
Defined.

(** Witness of X7: the height of the packaged cube. *)
Lemma package_height_witness :
  exists w',
    heap cube_world !! 0%nat = Some cube
    /\ 0 <= border_width_pct_of (Collab := cube_collab) cube_config cube_world
    /\ 0 <= tab_height_pct_of (Collab := cube_collab) cube_config cube_world
    /\ 0 <= depth_of (Collab := cube_collab) cube_config cube_world
    /\ tolerance <= offset cube_config
    /\ package (Collab := cube_collab) cube_config 0%nat cube_world
       = (Return (Some 42%nat), w')
    /\ exists pose bl bu m' e',
         packaged_pose (Collab := cube_collab) cube = Return pose
         /\ bounds (transform_mesh pose cube) = Some (bl, bu)
         /\ heap w' !! 42%nat = Some m' /\ extents m' = Some e'
         /\ vz e' == vz bu
                     - Qmin (vz bl)
                         (- offset cube_config
                          - depth_of (Collab := cube_collab)
                              cube_config cube_world)
         /\ vz bl < tolerance.
Proof.
  assert (Hbw : 0 <= border_width_pct_of (Collab := cube_collab)
                       cube_config cube_world)
    by (apply Qle_bool_iff; vm_compute; reflexivity).
  assert (Hth : 0 <= tab_height_pct_of (Collab := cube_collab)
                       cube_config cube_world)
    by (apply Qle_bool_iff; vm_compute; reflexivity).
  assert (Hd : 0 <= depth_of (Collab := cube_collab) cube_config cube_world)
    by (apply Qle_bool_iff; vm_compute; reflexivity).
  assert (Hoff : tolerance <= offset cube_config)
    by (apply Qle_bool_iff; vm_compute; reflexivity).
  assert (Hfst : fst (package (Collab := cube_collab) cube_config 0%nat
                        cube_world) = Return (Some 42%nat))
    by (vm_compute; reflexivity).
  destruct (package (Collab := cube_collab) cube_config 0%nat cube_world)
    as [o w'] eqn:E.
  cbn [fst] in Hfst. subst o. exists w'.
  split; [reflexivity|]. split; [exact Hbw|]. split; [exact Hth|].
  split; [exact Hd|]. split; [exact Hoff|]. split; [reflexivity|].
  apply (package_height (Collab := cube_collab)
           cube_config 0%nat cube cube_world 42%nat w');
    [reflexivity|exact Hbw|exact Hth|exact Hd|exact Hoff|exact E].
Defined.

(** Witness of X8: the cube inside its package. *)
Lemma package_keeps_object_witness :
  exists w',
    heap cube_world !! 0%nat = Some cube
    /\ package (Collab := cube_collab) cube_config 0%nat cube_world
       = (Return (Some 42%nat), w')
    /\ exists pose t ts i m',
         packaged_pose (Collab := cube_collab) cube = Return pose
         /\ triangles (transform_mesh pose cube) = Some ts
         /\ find_contact 0 ts = Some i
         /\ heap w' !! 42%nat = Some m'
         /\ length (vertices m') = (length (vertices cube) + 11)%nat
         /\ take (length (vertices cube)) (vertices m')
            = map (fun v => vadd (transform_point pose v) t) (vertices cube)
         /\ take (length (faces cube) - 1) (faces m')
            = delete i (faces cube).
Proof.
  assert (Hfst : fst (package (Collab := cube_collab) cube_config 0%nat
                        cube_world) = Return (Some 42%nat))
    by (vm_compute; reflexivity).
  destruct (package (Collab := cube_collab) cube_config 0%nat cube_world)
    as [o w'] eqn:E.
  cbn [fst] in Hfst. subst o. exists w'.
  split; [reflexivity|]. split; [reflexivity|].
  apply (package_keeps_object (Collab := cube_collab)
           cube_config 0%nat cube cube_world 42%nat w');
    [reflexivity|exact E].
Defined.

(** A directory with the cube and a single triangle. *)
Definition cube_dir (path : string) : outcome Trimesh :=
  if String.eqb path "in/cube.obj" then Return cube else Return open_mesh.

Definition empty_session : Session := mkSession (mkWorld [] 0 []) [].

(** Witness of X11: the cube is packaged, the triangle ends the batch
    and the third file is not reached. *)
Lemma main_stops_at_open_mesh_witness :
  exists s1,
    main_loop (Collab := cube_collab) cube_dir cube_config "in" "out"
      ["cube.obj"%string] empty_session = (Return tt, s1)
    /\ cube_dir (path_join "in" "open.obj") = Return open_mesh
    /\ is_watertight open_mesh = false
    /\ main_loop (Collab := cube_collab) cube_dir cube_config "in" "out"
         (["cube.obj"%string] ++ "open.obj"%string :: ["late.obj"%string])
         empty_session
       = (Raise (ValueError "Must have a watertight mesh to package it!"),
          mkSession (set_heap (heap (world s1) ++ [open_mesh]) (world s1))
                    (exported s1)).
Proof.
  assert (Hfst : fst (main_loop (Collab := cube_collab) cube_dir cube_config
                        "in" "out" ["cube.obj"%string] empty_session)
                 = Return tt)
    by (vm_compute; reflexivity).
  destruct (main_loop (Collab := cube_collab) cube_dir cube_config
              "in" "out" ["cube.obj"%string] empty_session)
    as [o s1] eqn:E.
  cbn [fst] in Hfst. subst o. exists s1.
  split; [reflexivity|]. split; [reflexivity|].
  split; [vm_compute; reflexivity|].
  apply (main_stops_at_open_mesh (Collab := cube_collab) cube_dir
           cube_config "in" "out" ["cube.obj"%string] "open.obj"
           ["late.obj"%string] empty_session s1 open_mesh);
    [exact E|reflexivity|vm_compute; reflexivity].
Defined.

(** Witness of X12: a directory that holds the cube twice. *)
Lemma main_draws_three_per_file_witness :
  exists s',
    main_loop (Collab := cube_collab) (fun _ => Return cube) cube_config
      "in" "out" ["a.obj"%string; "b.obj"%string] empty_session
    = (Return tt, s')
    /\ rng_pos (world s')
       = (3 * length ["a.obj"%string; "b.obj"%string]
          + rng_pos (world empty_session))%nat
    /\ Forall (fun fn => exists m,
                 (fun _ : string => Return cube) (path_join "in" fn)
                 = Return m
                 /\ is_watertight m = true)
              ["a.obj"%string; "b.obj"%string].
Proof.
  assert (Hfst : fst (main_loop (Collab := cube_collab)
                        (fun _ => Return cube) cube_config "in" "out"
                        ["a.obj"%string; "b.obj"%string] empty_session)
                 = Return tt)
    by (vm_compute; reflexivity).
  destruct (main_loop (Collab := cube_collab) (fun _ => Return cube)
              cube_config "in" "out" ["a.obj"%string; "b.obj"%string]
              empty_session)
    as [o s'] eqn:E.
  cbn [fst] in Hfst. subst o. exists s'.
  split; [reflexivity|].
  apply (main_draws_three_per_file (Collab := cube_collab)
           (fun _ => Return cube) cube_config "in" "out"
           ["a.obj"%string; "b.obj"%string] empty_session s').
  exact E.
Defined.

End CubeBatch.
